(** * Hemlock: environment, arrays and type inference

    A shallow embedding of the parts of the Hemlock sources that the
    value/environment model and the static type inferer are built from:

    - [src/interpreter/environment.c]   ([Module Env])
    - [src/interpreter/values.c]        ([Module Interp], arrays and strings)
    - [runtime/src/builtins_array.c]    ([Module Runtime])
    - [src/ast.c], [backends/compiler/type_infer.c]  ([Module Infer])

    C [int]s are modelled as [Z]; a C truth value is an [int] that is
    tested against zero.  Sizes are written without wrap-around: a
    scope, a string or an array that is filled one element at a time
    stays far below [2^31] elements.  The index of an indexed write is
    an argument and can ask for any size at once, so the interpreter's
    arrays check every doubling of the capacity against [INT_MAX], and
    the theorems on the runtime's indexed writes state the indices for
    which every capacity stays an [int].  A function that ends the
    process through [exit] returns [Fatal] with the text written to
    stderr and the exit status; a function that returns normally yields
    [Ok].  A function that writes through a pointer returns the object
    as it is afterwards.  Reference counting ([hml_retain],
    [hml_release]) only manages memory and is not part of the model. *)

From Stdlib Require Import ZArith String Ascii DecimalString Lia.
From stdpp Require Import base list strings.

Open Scope Z_scope.

(** ** Process outcomes *)

Inductive result (A : Type) : Type :=
| Ok (a : A)
| Fatal (stderr : string) (exit_code : Z).
Arguments Ok {A} a.
Arguments Fatal {A} stderr exit_code.

Definition bind {A B} (r : result A) (k : A -> result B) : result B :=
  match r with
  | Ok a => k a
  | Fatal m c => Fatal m c
  end.

Notation "'do' x <- r ; k" := (bind r (fun x => k))
  (at level 10, x name, r at level 100, k at level 200).

(** The line feed that ends every diagnostic. *)
Definition nl : string := String (ascii_of_nat 10) EmptyString.

(** [printf]'s [%d] for a C [int]. *)
Definition fmt_d (z : Z) : string := NilZero.string_of_int (Z.to_int z).

(** A C truth value: any non-zero [int]. *)
Definition truthy (z : Z) : bool := negb (z =? 0).

(** The line a fault leaves on stderr. *)
Definition stderr_line (msg : string) : string :=
  "Runtime error: " +:+ msg +:+ nl.

(** [fprintf(stderr, "Runtime error: <msg>\n"); exit(1);] as the
    interpreter writes it out at every fault. *)
Definition runtime_error {A} (msg : string) : result A :=
  Fatal (stderr_line msg) 1.

(** The largest and the smallest C [int]. *)
Definition INT_MAX : Z := 2147483647.
Definition INT_MIN : Z := -2147483648.

(** ** Interpreter values ([values.c]) *)

Module Interp.

(** The tags that [print_value] switches over. *)
Inductive ValueType :=
| VAL_I8 | VAL_I16 | VAL_I32 | VAL_U8 | VAL_U16 | VAL_U32
| VAL_F32 | VAL_F64 | VAL_BOOL | VAL_STRING | VAL_PTR | VAL_BUFFER
| VAL_ARRAY | VAL_FILE | VAL_OBJECT | VAL_TYPE | VAL_BUILTIN_FN
| VAL_FUNCTION | VAL_NULL.

(** The union [as]: integers by value, floats by their IEEE bits, heap
    entities by address.  [val_null] leaves the union unset. *)
Inductive Payload :=
| as_int (z : Z)
| as_float (bits : Z)
| as_heap (addr : Z)
| as_unset.

Record Value := mkValue { type : ValueType; as_ : Payload }.

Definition val_i32 (value : Z) : Value := mkValue VAL_I32 (as_int value).
Definition val_int (value : Z) : Value := val_i32 value.
Definition val_bool (value : Z) : Value :=
  mkValue VAL_BOOL (as_int (if truthy value then 1 else 0)).
Definition val_null : Value := mkValue VAL_NULL as_unset.

(** *** Arrays

    [elements] lists the [length] live slots of the buffer; the slots
    between [length] and [capacity] hold no value.

    [array_grow] doubles the capacity in [int] arithmetic, and
    [array_push] writes to slot [length] of a buffer of [capacity]
    slots.  Where the product is no [int], or the slot lies outside the
    buffer, the C code has no defined behaviour, and the model answers
    [None]. *)
Record Array := mkArray {
  elements : list Value;
  capacity : Z
}.

Definition arr_length (arr : Array) : Z := Z.of_nat (List.length (elements arr)).

Definition array_new : Array := mkArray [] 8.

(** [arr->capacity *= 2;] *)
Definition array_grow (arr : Array) : option Array :=
  if (INT_MIN <=? capacity arr * 2) && (capacity arr * 2 <=? INT_MAX)
  then Some (mkArray (elements arr) (capacity arr * 2))
  else None.

(** [arr->elements[arr->length++] = val;] after the growth step. *)
Definition array_push (arr : Array) (val : Value) : option Array :=
  arr' ← (if arr_length arr >=? capacity arr then array_grow arr else Some arr);
  if arr_length arr' <? capacity arr'
  then Some (mkArray (elements arr' ++ [val]) (capacity arr'))
  else None.

(** [return arr->elements[--arr->length];] *)
Definition array_pop (arr : Array) : Array * Value :=
  if arr_length arr =? 0 then (arr, val_null)
  else
    let n := Z.to_nat (arr_length arr - 1) in
    (mkArray (take n (elements arr)) (capacity arr),
     default val_null (elements arr !! n)).

Definition array_get (arr : Array) (index : Z) : result Value :=
  if (index <? 0) || (index >=? arr_length arr) then
    runtime_error ("Array index " +:+ fmt_d index +:+ " out of bounds (length "
                   +:+ fmt_d (arr_length arr) +:+ ")")
  else Ok (default val_null (elements arr !! Z.to_nat index)).

(** [n] rounds of [while (index >= arr->length) array_push(arr, val_null());]. *)
Fixpoint pad_nulls (n : nat) (arr : Array) : option Array :=
  match n with
  | O => Some arr
  | S k => arr' ← array_push arr val_null; pad_nulls k arr'
  end.

(** Every round of the loop makes the array one longer, so it runs
    [index + 1 - length] times when that is positive, and not at all
    otherwise. *)
Definition array_set (arr : Array) (index : Z) (val : Value)
    : option (result Array) :=
  if index <? 0 then Some (runtime_error "Negative array index not supported")
  else
    arr' ← pad_nulls (Z.to_nat (index + 1 - arr_length arr)) arr;
    Some (Ok (mkArray (<[Z.to_nat index := val]> (elements arr')) (capacity arr'))).

(** The buffer of an array is allocated, its size is an [int], and it
    holds the live slots. *)
Definition fits (arr : Array) : Prop :=
  0 < capacity arr <= INT_MAX /\ arr_length arr <= capacity arr.

(** *** Strings

    [s_data] lists the bytes of the buffer that have been written, the
    terminator included.  A C string argument is given by the
    characters in front of its terminator. *)
Record String_ := mkString {
  s_data : list ascii;
  s_length : Z;
  s_capacity : Z
}.

Definition NUL : ascii := zero.

(** [memcpy(dst, src, n)]: the first [n] bytes of [src]. *)
Definition memcpy (src : list ascii) (n : Z) : list ascii := take (Z.to_nat n) src.

Definition string_new (cstr : string) : String_ :=
  let len := Z.of_nat (String.length cstr) in
  mkString (memcpy (list_ascii_of_string cstr) len ++ [NUL]) len (len + 1).

Definition string_copy (str : String_) : String_ :=
  mkString (memcpy (s_data str) (s_length str + 1)) (s_length str) (s_capacity str).

Definition string_concat (a b : String_) : String_ :=
  let new_len := s_length a + s_length b in
  mkString (memcpy (s_data a) (s_length a) ++ memcpy (s_data b) (s_length b) ++ [NUL])
           new_len (new_len + 1).

Definition val_string_take (data : list ascii) (length capacity : Z) : String_ :=
  mkString data length capacity.

(** The characters of a string, and the layout the string functions
    rely on: [length] characters followed by the terminator, inside the
    capacity. *)
Definition contents (str : String_) : list ascii :=
  take (Z.to_nat (s_length str)) (s_data str).

Definition terminated (str : String_) : Prop :=
  0 <= s_length str
  /\ s_length str + 1 <= s_capacity str
  /\ s_data str = contents str ++ [NUL].

(** [[1, 2]] *)
Definition xs12 : Array := mkArray [val_int 1; val_int 2] 8.

End Interp.

(** ** Environments ([environment.c]) *)

Module Env.
Import Interp.

(** One slot of the three parallel arrays [names], [values],
    [is_const]. *)
Record Binding := mkBinding {
  b_name : string;
  b_value : Value;
  b_const : Z
}.

(** A scope holds its [count] live slots in insertion order, and the
    allocated [capacity]. *)
Record Scope := mkScope {
  bindings : list Binding;
  capacity : Z
}.

#[warning="-register-all"] Inductive Environment :=
| mkEnv (scope : Scope) (parent : option Environment).

Definition scope (env : Environment) : Scope :=
  match env with mkEnv s _ => s end.
Definition parent (env : Environment) : option Environment :=
  match env with mkEnv _ p => p end.

Definition count (s : Scope) : Z := Z.of_nat (length (bindings s)).

Definition env_new (parent : option Environment) : Environment :=
  mkEnv (mkScope [] 16) parent.

Definition env_grow (s : Scope) : Scope :=
  mkScope (bindings s) (capacity s * 2).

(** The search loop [for (i = 0; i < count; i++) if (strcmp(...) == 0)]:
    the index of the first slot called [name]. *)
Fixpoint find_slot (name : string) (bs : list Binding) : option nat :=
  match bs with
  | [] => None
  | b :: rest =>
      if String.eqb (b_name b) name then Some 0%nat
      else option_map S (find_slot name rest)
  end.

(** The tail shared by [env_define] and the implicit definition in
    [env_set]: grow when full, then fill slot [count]. *)
Definition append_binding (s : Scope) (b : Binding) : Scope :=
  let s' := if count s >=? capacity s then env_grow s else s in
  mkScope (bindings s' ++ [b]) (capacity s').

Definition env_define (env : Environment) (name : string) (value : Value)
    (is_const : Z) : result Environment :=
  match find_slot name (bindings (scope env)) with
  | Some _ =>
      runtime_error ("Variable '" +:+ name +:+ "' already defined in this scope")
  | None =>
      Ok (mkEnv (append_binding (scope env) (mkBinding name value is_const))
                (parent env))
  end.

(** What both search loops of [env_set] do on a hit at slot [i]. *)
Definition assign_slot (s : Scope) (i : nat) (name : string) (value : Value)
    : result Scope :=
  match bindings s !! i with
  | Some b =>
      if truthy (b_const b) then
        runtime_error ("Cannot assign to const variable '" +:+ name +:+ "'")
      else
        Ok (mkScope (<[i := mkBinding (b_name b) value (b_const b)]> (bindings s))
                    (capacity s))
  | None => Ok s
  end.

(** The [while (search_env != NULL)] loop over the enclosing scopes;
    [None] when the chain is exhausted without a hit. *)
Fixpoint set_in_parents (search_env : Environment) (name : string)
    (value : Value) : option (result Environment) :=
  match search_env with
  | mkEnv s p =>
      match find_slot name (bindings s) with
      | Some i => Some (do s' <- assign_slot s i name value; Ok (mkEnv s' p))
      | None =>
          match p with
          | None => None
          | Some up =>
              match set_in_parents up name value with
              | Some r => Some (do up' <- r; Ok (mkEnv s (Some up')))
              | None => None
              end
          end
      end
  end.

Definition env_set (env : Environment) (name : string) (value : Value)
    : result Environment :=
  match find_slot name (bindings (scope env)) with
  | Some i =>
      do s' <- assign_slot (scope env) i name value; Ok (mkEnv s' (parent env))
  | None =>
      let implicit :=
        Ok (mkEnv (append_binding (scope env) (mkBinding name value 0))
                  (parent env)) in
      match parent env with
      | None => implicit
      | Some up =>
          match set_in_parents up name value with
          | Some r => do up' <- r; Ok (mkEnv (scope env) (Some up'))
          | None => implicit
          end
      end
  end.

Fixpoint env_get (env : Environment) (name : string) : result Value :=
  match env with
  | mkEnv s p =>
      match find_slot name (bindings s) with
      | Some i =>
          match bindings s !! i with
          | Some b => Ok (b_value b)
          | None => Ok val_null
          end
      | None =>
          match p with
          | Some up => env_get up name
          | None => runtime_error ("Undefined variable '" +:+ name +:+ "'")
          end
      end
  end.

(** The chain as the list of its scopes, innermost first. *)
Fixpoint scopes (env : Environment) : list Scope :=
  match env with
  | mkEnv s p => s :: match p with Some up => scopes up | None => [] end
  end.

Definition declares (name : string) (bs : list Binding) : Prop :=
  exists b, b ∈ bs /\ b_name b = name.

(** The binding a name resolves to: the first slot called [name] of the
    first scope of the chain that has one. *)
Definition lookup_scope (name : string) (bs : list Binding) : option Binding :=
  match find_slot name bs with
  | Some i => bs !! i
  | None => None
  end.

Fixpoint lookup_chain (name : string) (ss : list Scope) : option Binding :=
  match ss with
  | [] => None
  | s :: up =>
      match lookup_scope name (bindings s) with
      | Some b => Some b
      | None => lookup_chain name up
      end
  end.

(** The three arrays of a scope are large enough for its slots. *)
Definition fits (s : Scope) : Prop := 0 < capacity s /\ count s <= capacity s.

(** A two-scope chain: [y] (const) inside, [x] (mutable) outside. *)
Definition demo_outer : Scope := mkScope [mkBinding "x" (val_int 2) 0] 16.
Definition demo_inner : Scope := mkScope [mkBinding "y" (val_int 1) 1] 16.
Definition demo_env : Environment :=
  mkEnv demo_inner (Some (mkEnv demo_outer None)).

End Env.

(** ** Runtime arrays ([builtins_array.c]) *)

Module Runtime.

(** Modelled from the spec: [enum HmlValueType] is declared in a runtime
    header that is not among the sources.  The tags follow the value
    kinds of the data model (section 3.2); [builtins_array.c] itself
    names [HML_VAL_ARRAY], [HML_VAL_NULL] and [HML_VAL_STRING]. *)
Inductive HmlValueType :=
| HML_VAL_I8 | HML_VAL_I16 | HML_VAL_I32 | HML_VAL_I64
| HML_VAL_U8 | HML_VAL_U16 | HML_VAL_U32 | HML_VAL_U64
| HML_VAL_F32 | HML_VAL_F64 | HML_VAL_BOOL | HML_VAL_STRING
| HML_VAL_ARRAY | HML_VAL_OBJECT | HML_VAL_BUFFER | HML_VAL_FILE
| HML_VAL_FUNCTION | HML_VAL_BUILTIN_FN | HML_VAL_CLOSURE
| HML_VAL_PTR | HML_VAL_TYPE | HML_VAL_NULL.

#[global] Instance HmlValueType_eq_dec : EqDecision HmlValueType.
Proof. solve_decision. Defined.

(** A value is a tag and the union [as].  An array value holds the
    pointer [as_array], [None] when it is [NULL]; the array it points to
    is carried along, and an operation that writes through the pointer
    returns the array as it is afterwards.  [elements] lists the
    [length] live slots of the buffer. *)
#[warning="-register-all"] Inductive HmlValue :=
| mkHmlValue (type : HmlValueType) (as_ : HmlUnion)
with HmlUnion :=
| as_i32 (z : Z)
| as_bool (z : Z)
| as_string (data : string)
| as_array (a : option HmlArray)
| as_other (addr : Z)
| as_unset
with HmlArray :=
| mkHmlArray (elements : list HmlValue) (capacity : Z)
             (element_type : HmlValueType).

Definition type (v : HmlValue) : HmlValueType :=
  match v with mkHmlValue t _ => t end.
Definition as_ (v : HmlValue) : HmlUnion :=
  match v with mkHmlValue _ u => u end.
Definition elements (a : HmlArray) : list HmlValue :=
  match a with mkHmlArray l _ _ => l end.
Definition capacity (a : HmlArray) : Z :=
  match a with mkHmlArray _ c _ => c end.
Definition element_type (a : HmlArray) : HmlValueType :=
  match a with mkHmlArray _ _ t => t end.
Definition length (a : HmlArray) : Z := Z.of_nat (List.length (elements a)).

Definition hml_val_null : HmlValue := mkHmlValue HML_VAL_NULL as_unset.
Definition hml_val_i32 (z : Z) : HmlValue := mkHmlValue HML_VAL_I32 (as_i32 z).
Definition hml_val_array (a : HmlArray) : HmlValue :=
  mkHmlValue HML_VAL_ARRAY (as_array (Some a)).

(** Modelled from the spec: [hml_runtime_error] is defined outside the
    sources at hand.  Every fault is fatal: the driver writes
    [Runtime error: <message>] to stderr and the process exits with
    status 1 (sections 6 and 7). *)
Definition hml_runtime_error {A} (msg : string) : result A :=
  Fatal (stderr_line msg) 1.

(** The test [arr.type != HML_VAL_ARRAY || !arr.as.as_array] that opens
    every operation: the array behind [arr], or the fault [msg]. *)
Definition require_array (arr : HmlValue) (msg : string) : result HmlArray :=
  match type arr, as_ arr with
  | HML_VAL_ARRAY, as_array (Some a) => Ok a
  | _, _ => hml_runtime_error msg
  end.

(** The check every write to a typed array starts with. *)
Definition check_element_type (a : HmlArray) (val : HmlValue) : result unit :=
  if bool_decide (element_type a <> HML_VAL_NULL)
     && bool_decide (type val <> element_type a)
  then hml_runtime_error
         "Type mismatch in typed array - expected element of specific type"
  else Ok tt.

(** The block under [// Grow if needed]. *)
Definition grow_if_needed (a : HmlArray) : HmlArray :=
  if length a >=? capacity a then
    let new_cap := if capacity a =? 0 then 8 else capacity a * 2 in
    mkHmlArray (elements a) new_cap (element_type a)
  else a.

(** [elements[i] = x] on the live prefix [l]: a slot below [length] is
    overwritten; slot [length], which the growth step has reserved,
    extends the prefix (the matching [length++] comes after). *)
Definition store (l : list HmlValue) (i : nat) (x : HmlValue) : list HmlValue :=
  if decide (i < List.length l)%nat then <[i := x]> l else l ++ [x].

(** [elements[dst] = elements[src]]. *)
Definition move (l : list HmlValue) (dst src : nat) : list HmlValue :=
  match l !! src with
  | Some x => store l dst x
  | None => l
  end.

(** [for (int i = lo + k; i > lo; i--) elements[i] = elements[i - 1];] *)
Fixpoint shift_right (lo k : nat) (l : list HmlValue) : list HmlValue :=
  match k with
  | O => l
  | S k' => shift_right lo k' (move l (lo + S k') (lo + k'))
  end.

(** [k] rounds of [elements[i] = elements[i + 1]; i++], starting at [i]. *)
Fixpoint shift_left (k i : nat) (l : list HmlValue) : list HmlValue :=
  match k with
  | O => l
  | S k' => shift_left k' (S i) (move l i (S i))
  end.

Definition hml_array_push (arr val : HmlValue) : result HmlArray :=
  do a <- require_array arr "push() requires array";
  do _ <- check_element_type a val;
  let a := grow_if_needed a in
  Ok (mkHmlArray (store (elements a) (List.length (elements a)) val)
                 (capacity a) (element_type a)).

Definition hml_array_pop (arr : HmlValue) : result (HmlArray * HmlValue) :=
  do a <- require_array arr "pop() requires array";
  if length a =? 0 then Ok (a, hml_val_null)
  else
    let n := Z.to_nat (length a - 1) in
    Ok (mkHmlArray (take n (elements a)) (capacity a) (element_type a),
        default hml_val_null (elements a !! n)).

Definition hml_array_shift (arr : HmlValue) : result (HmlArray * HmlValue) :=
  do a <- require_array arr "shift() requires array";
  if length a =? 0 then Ok (a, hml_val_null)
  else
    let n := Z.to_nat (length a - 1) in
    Ok (mkHmlArray (take n (shift_left n 0 (elements a)))
                   (capacity a) (element_type a),
        default hml_val_null (elements a !! 0%nat)).

Definition hml_array_unshift (arr val : HmlValue) : result HmlArray :=
  do a <- require_array arr "unshift() requires array";
  do _ <- check_element_type a val;
  let a := grow_if_needed a in
  let shifted := shift_right 0 (List.length (elements a)) (elements a) in
  Ok (mkHmlArray (store shifted 0 val) (capacity a) (element_type a)).

Definition hml_type_matches (val : HmlValue) (expected : HmlValueType) : bool :=
  if bool_decide (expected = HML_VAL_NULL) then true
  else bool_decide (type val = expected).

(** The validation loop: [true] when some element fails
    [hml_type_matches]. *)
Definition some_mismatch (l : list HmlValue) (t : HmlValueType) : bool :=
  existsb (fun v => negb (hml_type_matches v t)) l.

Definition hml_validate_typed_array (arr : HmlValue) (element_type : HmlValueType)
    : result HmlArray :=
  do a <- require_array arr "Expected array";
  if bool_decide (element_type = HML_VAL_NULL) then Ok a
  else if some_mismatch (elements a) element_type then
    hml_runtime_error
      "Type mismatch in typed array - expected element of specific type"
  else Ok (mkHmlArray (elements a) (capacity a) element_type).

Definition hml_array_set_element_type (arr : HmlValue)
    (element_type : HmlValueType) : result HmlArray :=
  do a <- require_array arr "cannot set element type on non-array";
  Ok (mkHmlArray (elements a) (capacity a) element_type).

(** The left fold of a step that may end the process: the reference
    that [hml_array_reduce] is compared with. *)
Fixpoint fold_left_result (step : HmlValue -> HmlValue -> result HmlValue)
    (l : list HmlValue) (acc : HmlValue) : result HmlValue :=
  match l with
  | [] => Ok acc
  | x :: rest => do acc' <- step acc x; fold_left_result step rest acc'
  end.

(** A typed array all of whose elements carry its tag. *)
Definition typed (a : HmlArray) : Prop := element_type a <> HML_VAL_NULL.
Definition homogeneous (a : HmlArray) : Prop :=
  Forall (fun v => type v = element_type a) (elements a).

(** The value that a call returns, when the callee is looked at as a
    function of its arguments. *)
Definition returned (r : result (HmlValue * HmlArray)) : result HmlValue :=
  do p <- r; Ok (fst p).

Section Collaborators.
(** Two runtime entry points live outside [builtins_array.c]: the
    coercion of an index value to a C [int], and the call of a function
    value on an argument vector.  Either may end the process.  The
    callee runs user code, which can hold the array that a loop of this
    file is traversing and write to it: [hml_call_function fn args a]
    is the call made while that array is [a], and yields the value
    returned together with the array as the callee leaves it. *)
Variable hml_to_i32 : HmlValue -> result Z.
Variable hml_call_function :
  HmlValue -> list HmlValue -> HmlArray -> result (HmlValue * HmlArray).

(** The callee [fn] does not write to the array [a]. *)
Definition keeps (fn : HmlValue) (a : HmlArray) : Prop :=
  forall args v a', hml_call_function fn args a = Ok (v, a') -> a' = a.

Definition hml_array_get (arr index : HmlValue) : result HmlValue :=
  do a <- require_array arr "Index access requires array";
  do idx <- hml_to_i32 index;
  if (idx <? 0) || (idx >=? length a) then
    hml_runtime_error ("Array index " +:+ fmt_d idx +:+ " out of bounds (length "
                       +:+ fmt_d (length a) +:+ ")")
  else Ok (default hml_val_null (elements a !! Z.to_nat idx)).

(** [n] rounds of the loop [while (idx >= a->length)] of
    [hml_array_set].  The capacity doubles in [int] arithmetic in the
    code and in [Z] here; the two agree while the capacity stays an
    [int], which is the case for the indices that
    [hml_array_set_then_get] and [hml_array_capacity_invariant] name. *)
Fixpoint pad_nulls (n : nat) (a : HmlArray) : HmlArray :=
  match n with
  | O => a
  | S k =>
      let a := grow_if_needed a in
      pad_nulls k (mkHmlArray
                     (store (elements a) (List.length (elements a)) hml_val_null)
                     (capacity a) (element_type a))
  end.

Definition hml_array_set (arr index val : HmlValue) : result HmlArray :=
  do a <- require_array arr "Index assignment requires array";
  do idx <- hml_to_i32 index;
  do _ <- check_element_type a val;
  if idx <? 0 then hml_runtime_error "Negative array index not supported"
  else
    let a := pad_nulls (Z.to_nat (idx + 1 - length a)) a in
    Ok (mkHmlArray (store (elements a) (Z.to_nat idx) val)
                   (capacity a) (element_type a)).

Definition hml_array_insert (arr index val : HmlValue) : result HmlArray :=
  do a <- require_array arr "insert() requires array";
  do idx <- hml_to_i32 index;
  do _ <- check_element_type a val;
  if (idx <? 0) || (idx >? length a) then
    hml_runtime_error ("insert index " +:+ fmt_d idx +:+ " out of bounds (length "
                       +:+ fmt_d (length a) +:+ ")")
  else
    let a := grow_if_needed a in
    let i := Z.to_nat idx in
    let shifted := shift_right i (List.length (elements a) - i) (elements a) in
    Ok (mkHmlArray (store shifted i val) (capacity a) (element_type a)).

(** The loop [for (int i = start_idx; i < a->length; i++)] of
    [hml_array_reduce].  The bound [a->length] and the slot
    [a->elements[i]] are read anew in every round, from the array as
    the last call has left it, so the number of rounds is not known
    beforehand: [fuel] bounds it, and the answer is [None] when the
    bound is reached.  The lookup is the test [i < a->length]. *)
Fixpoint reduce_loop (fuel : nat) (reducer : HmlValue) (a : HmlArray) (i : nat)
    (acc : HmlValue) : option (result HmlValue) :=
  match fuel with
  | O => None
  | S fuel' =>
      match elements a !! i with
      | Some x =>
          match hml_call_function reducer [acc; x] a with
          | Ok (new_acc, a') => reduce_loop fuel' reducer a' (S i) new_acc
          | Fatal msg code => Some (Fatal msg code)
          end
      | None => Some (Ok acc)
      end
  end.

Definition hml_array_reduce (fuel : nat) (arr reducer initial : HmlValue)
    : option (result HmlValue) :=
  match require_array arr "reduce() requires array" with
  | Fatal msg code => Some (Fatal msg code)
  | Ok a =>
      if length a =? 0 then
        if bool_decide (type initial = HML_VAL_NULL) then
          Some (hml_runtime_error "reduce() of empty array with no initial value")
        else Some (Ok initial)
      else
        let '(acc, start_idx) :=
          if bool_decide (type initial = HML_VAL_NULL)
          then (default hml_val_null (elements a !! 0%nat), 1%nat)
          else (initial, 0%nat) in
        reduce_loop fuel reducer a start_idx acc
  end.

End Collaborators.

(** *** The remaining operations

    Besides [hml_to_i32] and [hml_call_function], these rely on three
    more entry points of the runtime that live outside
    [builtins_array.c]: the comparison [hml_values_equal] and the
    coercion [hml_to_bool], both returning a C truth value, and
    [hml_to_string], taken here to yield the characters of the string it
    builds.  [fresh] is the empty array that the parameterless
    constructor of the runtime hands out. *)

Definition hml_val_bool (z : Z) : HmlValue :=
  mkHmlValue HML_VAL_BOOL (as_bool (if truthy z then 1 else 0)).
Definition hml_val_string (data : string) : HmlValue :=
  mkHmlValue HML_VAL_STRING (as_string data).

Definition hml_array_length (arr : HmlValue) : HmlValue :=
  match type arr, as_ arr with
  | HML_VAL_ARRAY, as_array (Some a) => hml_val_i32 (length a)
  | _, _ => hml_val_i32 0
  end.

Definition hml_array_first (arr : HmlValue) : result HmlValue :=
  do a <- require_array arr "first() requires array";
  if length a =? 0 then Ok hml_val_null
  else Ok (default hml_val_null (elements a !! 0%nat)).

Definition hml_array_last (arr : HmlValue) : result HmlValue :=
  do a <- require_array arr "last() requires array";
  if length a =? 0 then Ok hml_val_null
  else Ok (default hml_val_null (elements a !! Z.to_nat (length a - 1))).

Definition hml_array_clear (arr : HmlValue) : result HmlArray :=
  do a <- require_array arr "clear() requires array";
  Ok (mkHmlArray [] (capacity a) (element_type a)).

(** [tmp = elements[i]; elements[i] = elements[j]; elements[j] = tmp;] *)
Definition swap (l : list HmlValue) (i j : nat) : list HmlValue :=
  match l !! i, l !! j with
  | Some x, Some y => <[j := x]> (<[i := y]> l)
  | _, _ => l
  end.

(** [k] rounds of the loop of [hml_array_reverse], starting at [i]. *)
Fixpoint reverse_loop (k i : nat) (l : list HmlValue) : list HmlValue :=
  match k with
  | O => l
  | S k' => reverse_loop k' (S i) (swap l i (List.length l - 1 - i))
  end.

Definition hml_array_reverse (arr : HmlValue) : result HmlArray :=
  do a <- require_array arr "reverse() requires array";
  Ok (mkHmlArray (reverse_loop (Z.to_nat (length a / 2)) 0 (elements a))
                 (capacity a) (element_type a)).

(** [k] rounds of [dst[dst_off + i] = src[src_off + i]; i++], starting at
    [i].  The new array is written front to back, so every write lands on
    the slot after the last one written. *)
Fixpoint copy_loop (src : list HmlValue) (src_off dst_off k i : nat)
    (dst : list HmlValue) : list HmlValue :=
  match k with
  | O => dst
  | S k' =>
      copy_loop src src_off dst_off k' (S i)
        (match src !! (src_off + i)%nat with
         | Some x => store dst (dst_off + i) x
         | None => dst
         end)
  end.

Definition hml_array_concat (arr1 arr2 : HmlValue) : result HmlArray :=
  do a1 <- require_array arr1 "concat() requires array";
  do a2 <- require_array arr2 "concat() requires array argument";
  let new_len := length a1 + length a2 in
  let part1 := copy_loop (elements a1) 0 0 (List.length (elements a1)) 0 [] in
  let part2 := copy_loop (elements a2) 0 (List.length (elements a1))
                         (List.length (elements a2)) 0 part1 in
  Ok (mkHmlArray part2 (if new_len >? 0 then new_len else 1) HML_VAL_NULL).

Section MoreOperations.
Variable hml_to_i32 : HmlValue -> result Z.
Variable hml_call_function :
  HmlValue -> list HmlValue -> HmlArray -> result (HmlValue * HmlArray).
Variable hml_values_equal : HmlValue -> HmlValue -> Z.
Variable hml_to_bool : HmlValue -> Z.
Variable hml_to_string : HmlValue -> string.
Variable fresh : HmlArray.

Definition hml_array_remove (arr index : HmlValue) : result (HmlArray * HmlValue) :=
  do a <- require_array arr "remove() requires array";
  do idx <- hml_to_i32 index;
  if (idx <? 0) || (idx >=? length a) then
    hml_runtime_error ("remove index " +:+ fmt_d idx +:+ " out of bounds (length "
                       +:+ fmt_d (length a) +:+ ")")
  else
    let i := Z.to_nat idx in
    let n := List.length (elements a) in
    Ok (mkHmlArray (take (n - 1) (shift_left (n - 1 - i) i (elements a)))
                   (capacity a) (element_type a),
        default hml_val_null (elements a !! i)).

(** The search loop of [hml_array_find] over the elements from index [i]
    on: the index of the first element equal to [val], or [-1]. *)
Fixpoint find_loop (l : list HmlValue) (val : HmlValue) (i : Z) : Z :=
  match l with
  | [] => -1
  | x :: rest =>
      if truthy (hml_values_equal x val) then i else find_loop rest val (i + 1)
  end.

Definition hml_array_find (arr val : HmlValue) : result HmlValue :=
  do a <- require_array arr "find() requires array";
  Ok (hml_val_i32 (find_loop (elements a) val 0)).

Definition hml_array_contains (arr val : HmlValue) : result HmlValue :=
  do idx <- hml_array_find arr val;
  match as_ idx with
  | as_i32 z => Ok (hml_val_bool (if z >=? 0 then 1 else 0))
  | _ => Ok (hml_val_bool 0)
  end.

Definition hml_array_slice (arr start end_ : HmlValue) : result HmlArray :=
  do a <- require_array arr "slice() requires array";
  do s <- hml_to_i32 start;
  do e <- hml_to_i32 end_;
  let s := if s <? 0 then 0 else s in
  let e := if e >? length a then length a else e in
  let s := if s >? e then e else s in
  let new_len := e - s in
  Ok (mkHmlArray (copy_loop (elements a) (Z.to_nat s) 0 (Z.to_nat new_len) 0 [])
                 (if new_len >? 0 then new_len else 1) HML_VAL_NULL).

(** The first pass of [hml_array_join]: the size of the result. *)
Fixpoint join_total (l : list HmlValue) (delim_len : Z) (total_len : Z) : Z :=
  match l with
  | [] => total_len
  | x :: rest =>
      let total_len := total_len + Z.of_nat (String.length (hml_to_string x)) in
      let total_len := match rest with
                       | [] => total_len
                       | _ => total_len + delim_len
                       end in
      join_total rest delim_len total_len
  end.

(** The second pass: the bytes copied to the buffer so far are [written]. *)
Fixpoint join_copy (l : list HmlValue) (delim : string) (written : string) : string :=
  match l with
  | [] => written
  | x :: rest =>
      let written := written +:+ hml_to_string x in
      let written := match rest with
                     | [] => written
                     | _ => written +:+ delim
                     end in
      join_copy rest delim written
  end.

(** The joined string, with the buffer size the first pass computed. *)
Definition hml_array_join (arr delimiter : HmlValue) : result (HmlValue * Z) :=
  do a <- require_array arr "join() requires array";
  match type delimiter, as_ delimiter with
  | HML_VAL_STRING, as_string delim =>
      if length a =? 0 then Ok (hml_val_string "", 0)
      else
        let total_len :=
          join_total (elements a) (Z.of_nat (String.length delim)) 0 in
        Ok (hml_val_string (join_copy (elements a) delim ""), total_len)
  | _, _ => hml_runtime_error "join() requires string delimiter"
  end.

(** The loop [for (int i = 0; i < a->length; i++)] of [hml_array_map].
    As in [hml_array_reduce], [a->length] and [a->elements[i]] are read
    in every round from the array as the callback has left it; [fuel]
    bounds the number of rounds.  The array [out] is the one the loop
    has made: no callee holds it. *)
Fixpoint map_loop (fuel : nat) (callback : HmlValue) (a : HmlArray) (i : nat)
    (out : HmlArray) : option (result HmlArray) :=
  match fuel with
  | O => None
  | S fuel' =>
      match elements a !! i with
      | Some x =>
          match hml_call_function callback [x] a with
          | Ok (mapped, a') =>
              match hml_array_push (hml_val_array out) mapped with
              | Ok out' => map_loop fuel' callback a' (S i) out'
              | Fatal msg code => Some (Fatal msg code)
              end
          | Fatal msg code => Some (Fatal msg code)
          end
      | None => Some (Ok out)
      end
  end.

Definition hml_array_map (fuel : nat) (arr callback : HmlValue)
    : option (result HmlArray) :=
  match require_array arr "map() requires array" with
  | Fatal msg code => Some (Fatal msg code)
  | Ok a => map_loop fuel callback a 0 fresh
  end.

(** The loop of [hml_array_filter].  The element that is kept is read
    again after the call, [HmlValue elem = a->elements[i];].  When the
    predicate has shortened the array to [i] elements or fewer, that
    read finds what the buffer still holds past the live slots, which
    the list does not record: the answer is [None] then, as when the
    fuel is used up. *)
Fixpoint filter_loop (fuel : nat) (predicate : HmlValue) (a : HmlArray) (i : nat)
    (out : HmlArray) : option (result HmlArray) :=
  match fuel with
  | O => None
  | S fuel' =>
      match elements a !! i with
      | Some x =>
          match hml_call_function predicate [x] a with
          | Ok (keep, a') =>
              if truthy (hml_to_bool keep) then
                match elements a' !! i with
                | Some elem =>
                    match hml_array_push (hml_val_array out) elem with
                    | Ok out' => filter_loop fuel' predicate a' (S i) out'
                    | Fatal msg code => Some (Fatal msg code)
                    end
                | None => None
                end
              else filter_loop fuel' predicate a' (S i) out
          | Fatal msg code => Some (Fatal msg code)
          end
      | None => Some (Ok out)
      end
  end.

Definition hml_array_filter (fuel : nat) (arr predicate : HmlValue)
    : option (result HmlArray) :=
  match require_array arr "filter() requires array" with
  | Fatal msg code => Some (Fatal msg code)
  | Ok a => filter_loop fuel predicate a 0 fresh
  end.

End MoreOperations.

(** The buffer holds every live element. *)
Definition fits (a : HmlArray) : Prop := length a <= capacity a.

(** The buffer holds every live element, and its size is an [int]. *)
Definition int_sized (a : HmlArray) : Prop :=
  length a <= capacity a /\ capacity a <= INT_MAX.

(** After the rounds up to [i], the [i] outermost slots at either end
    hold the mirrored elements and the slots between hold the original
    ones. *)
Definition mirrored (l l' : list HmlValue) (i : nat) : Prop :=
  List.length l' = List.length l /\
  forall j, (j < List.length l)%nat ->
    l' !! j = if decide (j < i \/ List.length l - i <= j)%nat
              then l !! (List.length l - 1 - j)%nat else l !! j.

(** A value may be written to an array: the array is untyped or the
    value carries its tag. *)
Definition admits (a : HmlArray) (val : HmlValue) : Prop :=
  element_type a = HML_VAL_NULL \/ type val = element_type a.

(** *** Sample data

    A coercion that reads an [i32] and refuses every other value, and a
    call that adds two [i32]s, in the place of [hml_to_i32] and of
    [hml_call_function] on [fn(a, b) => a + b]. *)
Definition i32_index (v : HmlValue) : result Z :=
  match type v, as_ v with
  | HML_VAL_I32, as_i32 z => Ok z
  | _, _ => hml_runtime_error "Cannot convert to i32"
  end.

Definition call_add (fn : HmlValue) (args : list HmlValue) : result HmlValue :=
  match args with
  | [mkHmlValue HML_VAL_I32 (as_i32 x); mkHmlValue HML_VAL_I32 (as_i32 y)] =>
      Ok (hml_val_i32 (x + y))
  | _ => hml_runtime_error "Cannot add"
  end.

Definition fn_add : HmlValue := mkHmlValue HML_VAL_FUNCTION (as_other 1).

(** A callee that computes its result from its arguments alone and
    does not write to the array that is being traversed. *)
Definition leaving (call : HmlValue -> list HmlValue -> result HmlValue)
    (fn : HmlValue) (args : list HmlValue) (a : HmlArray)
    : result (HmlValue * HmlArray) :=
  do v <- call fn args; Ok (v, a).

(** [fn(acc, x) { xs.pop(); return acc + x; }], called while [xs] is
    being reduced. *)
Definition call_add_pop (fn : HmlValue) (args : list HmlValue) (xs : HmlArray)
    : result (HmlValue * HmlArray) :=
  do popped <- hml_array_pop (hml_val_array xs);
  do v <- call_add fn args;
  Ok (v, fst popped).

(** Callbacks on one argument: [fn(x) => x * x] and [fn(x) => x > 1] on
    [i32]s, with the reading of a boolean in the place of [hml_to_bool]
    and decimal printing of an [i32] in the place of [hml_to_string]. *)
Definition square (v : HmlValue) : HmlValue :=
  match v with
  | mkHmlValue HML_VAL_I32 (as_i32 x) => hml_val_i32 (x * x)
  | _ => hml_val_null
  end.
Definition above_one (v : HmlValue) : HmlValue :=
  match v with
  | mkHmlValue HML_VAL_I32 (as_i32 x) => hml_val_bool (if x >? 1 then 1 else 0)
  | _ => hml_val_bool 0
  end.
Definition call_unary (f : HmlValue -> HmlValue) (fn : HmlValue)
    (args : list HmlValue) : result HmlValue :=
  match args with
  | [x] => Ok (f x)
  | _ => hml_runtime_error "wrong number of arguments"
  end.
Definition bool_payload (v : HmlValue) : Z :=
  match as_ v with as_bool z => z | _ => 0 end.
Definition i32_to_string (v : HmlValue) : string :=
  match as_ v with as_i32 z => fmt_d z | _ => "null" end.

(** The empty untyped array, and [[1, 2, 3]]. *)
Definition empty_array : HmlArray := mkHmlArray [] 0 HML_VAL_NULL.
Definition xs123 : HmlArray :=
  mkHmlArray [hml_val_i32 1; hml_val_i32 2; hml_val_i32 3] 8 HML_VAL_NULL.

(** [[1, 2]], untyped, and the typed array [[1]] of [i32]. *)
Definition xs12 : HmlArray :=
  mkHmlArray [hml_val_i32 1; hml_val_i32 2] 8 HML_VAL_NULL.
Definition typed1 : HmlArray := mkHmlArray [hml_val_i32 1] 8 HML_VAL_I32.

End Runtime.

(** ** The AST ([ast.c]) and the type inferer ([type_infer.c]) *)

Module Infer.

(** Modelled from the spec: [ast.h], which declares [TypeKind], the
    operators and the node structs, is not among the sources.  The type
    kinds and the node variants are those of sections 3.1 and 3.4; the
    fields are the ones [ast.c] fills and [type_infer.c] reads. *)
Inductive TypeKind :=
| TYPE_I8 | TYPE_I16 | TYPE_I32 | TYPE_I64
| TYPE_U8 | TYPE_U16 | TYPE_U32 | TYPE_U64
| TYPE_F32 | TYPE_F64 | TYPE_BOOL | TYPE_STRING
| TYPE_ARRAY | TYPE_OBJECT | TYPE_FUNCTION | TYPE_PTR
| TYPE_VOID | TYPE_ANY.

Record Type_ := mkType { kind_of : TypeKind }.

Definition type_new (kind : TypeKind) : Type_ := mkType kind.

Inductive BinaryOp :=
| OP_ADD | OP_SUB | OP_MUL | OP_DIV | OP_MOD
| OP_EQUAL | OP_NOT_EQUAL | OP_LESS | OP_LESS_EQUAL
| OP_GREATER | OP_GREATER_EQUAL | OP_AND | OP_OR
| OP_BIT_AND | OP_BIT_OR | OP_BIT_XOR | OP_BIT_LSHIFT | OP_BIT_RSHIFT.

Inductive UnaryOp := UNARY_NEGATE | UNARY_NOT | UNARY_BIT_NOT.

(** A child that the inferer tests against [NULL] is an [option]. *)
#[warning="-register-all"] Inductive Expr :=
| EXPR_NUMBER (int_value : Z) (float_bits : Z) (is_float : Z)
| EXPR_BOOL (boolean : Z)
| EXPR_STRING (str : string)
| EXPR_STRING_INTERPOLATION (parts : list Expr)
| EXPR_NULL
| EXPR_RUNE (codepoint : Z)
| EXPR_IDENT (name : string)
| EXPR_BINARY (left : Expr) (op : BinaryOp) (right : Expr)
| EXPR_UNARY (op : UnaryOp) (operand : Expr)
| EXPR_CALL (func : option Expr) (args : list Expr)
| EXPR_ASSIGN (name : string) (value : Expr)
| EXPR_GET_PROPERTY (object : Expr) (property : string)
| EXPR_INDEX (object : Expr) (index : Expr)
| EXPR_INDEX_ASSIGN (object : Expr) (index : Expr) (value : Expr)
| EXPR_ARRAY_LITERAL (items : list Expr)
| EXPR_OBJECT_LITERAL (field_names : list string) (field_values : list Expr)
| EXPR_FUNCTION (param_names : list string) (param_types : list (option Type_))
                (return_type : option Type_) (body : Stmt)
| EXPR_TERNARY (condition : Expr) (true_expr : Expr) (false_expr : Expr)
| EXPR_NULL_COALESCE (left : Expr) (right : Expr)
| EXPR_PREFIX_INC (operand : Expr)
| EXPR_PREFIX_DEC (operand : Expr)
| EXPR_POSTFIX_INC (operand : Expr)
| EXPR_POSTFIX_DEC (operand : Expr)
| EXPR_AWAIT (awaited : Expr)
with Stmt :=
| STMT_LET (name : string) (type_annotation : option Type_) (value : option Expr)
| STMT_CONST (name : string) (type_annotation : option Type_) (value : option Expr)
| STMT_EXPR (expr : Expr)
| STMT_IF (condition : Expr) (then_branch : Stmt) (else_branch : option Stmt)
| STMT_WHILE (condition : Expr) (body : Stmt)
| STMT_FOR (initializer : option Stmt) (condition : option Expr)
           (increment : option Expr) (body : Stmt)
| STMT_BLOCK (statements : list Stmt)
| STMT_RETURN (value : option Expr)
| STMT_BREAK
| STMT_CONTINUE.

(** The constructors of [ast.c] that build number literals; [value] is a
    C [int] and [int_value] the wider field it is stored in. *)
Definition expr_number_int (value : Z) : Expr := EXPR_NUMBER value 0 0.
Definition expr_number_float (bits : Z) : Expr := EXPR_NUMBER 0 bits 1.
Definition expr_number (value : Z) : Expr := expr_number_int value.

Definition stmt_let_typed (name : string) (type_annotation : option Type_)
    (value : option Expr) : Stmt := STMT_LET name type_annotation value.
Definition stmt_let (name : string) (value : option Expr) : Stmt :=
  stmt_let_typed name None value.

(** *** Inferred types ([type_infer.h]) *)

Inductive InferredTypeKind :=
| INFER_UNKNOWN | INFER_I32 | INFER_I64 | INFER_F64 | INFER_BOOL
| INFER_STRING | INFER_NULL | INFER_ARRAY | INFER_OBJECT | INFER_FUNCTION
| INFER_NUMERIC | INFER_INTEGER.

#[global] Instance InferredTypeKind_eq_dec : EqDecision InferredTypeKind.
Proof. solve_decision. Defined.

#[warning="-register-all"] Inductive InferredType :=
| mkInferred (kind : InferredTypeKind) (element_type : option InferredType).

Definition kind (t : InferredType) : InferredTypeKind :=
  match t with mkInferred k _ => k end.
Definition element_type (t : InferredType) : option InferredType :=
  match t with mkInferred _ e => e end.

Record TypeBinding := mkTypeBinding { tb_name : string; tb_type : InferredType }.

(** [current_env] is the chain of [TypeEnv]s, innermost first, each one
    the list of its bindings, newest first; [[]] is the null chain. *)
Record TypeInferContext := mkCtx {
  current_env : list (list TypeBinding);
  func_returns : list (string * InferredType);
  changed : Z
}.

Definition infer_unknown : InferredType := mkInferred INFER_UNKNOWN None.
Definition infer_i32 : InferredType := mkInferred INFER_I32 None.
Definition infer_i64 : InferredType := mkInferred INFER_I64 None.
Definition infer_f64 : InferredType := mkInferred INFER_F64 None.
Definition infer_bool : InferredType := mkInferred INFER_BOOL None.
Definition infer_string : InferredType := mkInferred INFER_STRING None.
Definition infer_null : InferredType := mkInferred INFER_NULL None.
Definition infer_numeric : InferredType := mkInferred INFER_NUMERIC None.
Definition infer_integer : InferredType := mkInferred INFER_INTEGER None.

Definition is_kind (t : InferredType) (k : InferredTypeKind) : bool :=
  bool_decide (kind t = k).

Definition infer_is_known (t : InferredType) : bool := negb (is_kind t INFER_UNKNOWN).
Definition infer_is_i32 (t : InferredType) : bool := is_kind t INFER_I32.
Definition infer_is_i64 (t : InferredType) : bool := is_kind t INFER_I64.
Definition infer_is_f64 (t : InferredType) : bool := is_kind t INFER_F64.
Definition infer_is_integer (t : InferredType) : bool :=
  is_kind t INFER_I32 || is_kind t INFER_I64 || is_kind t INFER_INTEGER.
Definition infer_is_numeric (t : InferredType) : bool :=
  is_kind t INFER_I32 || is_kind t INFER_I64 || is_kind t INFER_F64
  || is_kind t INFER_NUMERIC || is_kind t INFER_INTEGER.

Definition infer_meet (a b : InferredType) : InferredType :=
  if bool_decide (kind a = kind b) then a
  else if is_kind a INFER_UNKNOWN then a
  else if is_kind b INFER_UNKNOWN then b
  else if infer_is_integer a && infer_is_integer b then
    if is_kind a INFER_I32 && is_kind b INFER_I32 then infer_i32
    else if is_kind a INFER_I64 && is_kind b INFER_I64 then infer_i64
    else infer_integer
  else if infer_is_numeric a && infer_is_numeric b then infer_numeric
  else infer_unknown.

Definition infer_binary_result (op : BinaryOp) (left right : InferredType)
    : InferredType :=
  match op with
  | OP_ADD | OP_SUB | OP_MUL =>
      if infer_is_f64 left || infer_is_f64 right then infer_f64
      else if infer_is_i64 left || infer_is_i64 right then infer_i64
      else if infer_is_i32 left && infer_is_i32 right then infer_i32
      else if infer_is_integer left && infer_is_integer right then infer_integer
      else if infer_is_numeric left && infer_is_numeric right then infer_numeric
      else if match op with OP_ADD => true | _ => false end
              && (is_kind left INFER_STRING || is_kind right INFER_STRING)
      then infer_string
      else infer_unknown
  | OP_DIV => infer_f64
  | OP_MOD =>
      if infer_is_i64 left || infer_is_i64 right then infer_i64
      else if infer_is_i32 left && infer_is_i32 right then infer_i32
      else if infer_is_integer left && infer_is_integer right then infer_integer
      else infer_numeric
  | OP_EQUAL | OP_NOT_EQUAL | OP_LESS | OP_LESS_EQUAL
  | OP_GREATER | OP_GREATER_EQUAL => infer_bool
  | OP_AND | OP_OR => infer_bool
  | OP_BIT_AND | OP_BIT_OR | OP_BIT_XOR | OP_BIT_LSHIFT | OP_BIT_RSHIFT =>
      if infer_is_i64 left || infer_is_i64 right then infer_i64
      else if infer_is_i32 left && infer_is_i32 right then infer_i32
      else infer_integer
  end.

Definition infer_unary_result (op : UnaryOp) (operand : InferredType)
    : InferredType :=
  match op with
  | UNARY_NEGATE => operand
  | UNARY_NOT => infer_bool
  | UNARY_BIT_NOT => operand
  end.

(** *** The type environment *)

Definition type_infer_new : TypeInferContext := mkCtx [[]] [] 0.

Definition type_env_push (ctx : TypeInferContext) : TypeInferContext :=
  mkCtx ([] :: current_env ctx) (func_returns ctx) (changed ctx).

Definition type_env_pop (ctx : TypeInferContext) : TypeInferContext :=
  mkCtx (tail (current_env ctx)) (func_returns ctx) (changed ctx).

(** The new binding goes to the head of the innermost list.  The C code
    dereferences [current_env] without a test; the null chain is left
    as it is here. *)
Definition type_env_bind (ctx : TypeInferContext) (name : string)
    (type : InferredType) : TypeInferContext :=
  match current_env ctx with
  | [] => ctx
  | env :: up =>
      mkCtx ((mkTypeBinding name type :: env) :: up) (func_returns ctx) (changed ctx)
  end.

Fixpoint lookup_bindings (name : string) (bs : list TypeBinding)
    : option InferredType :=
  match bs with
  | [] => None
  | b :: next =>
      if String.eqb (tb_name b) name then Some (tb_type b)
      else lookup_bindings name next
  end.

Fixpoint lookup_envs (name : string) (envs : list (list TypeBinding))
    : option InferredType :=
  match envs with
  | [] => None
  | env :: up =>
      match lookup_bindings name env with
      | Some t => Some t
      | None => lookup_envs name up
      end
  end.

Definition type_env_lookup (ctx : TypeInferContext) (name : string)
    : InferredType :=
  default infer_unknown (lookup_envs name (current_env ctx)).

(** The three tests of [type_env_refine] on the binding it has found:
    does [type] replace the type [old] of the binding? *)
Definition refines (old type : InferredType) : bool :=
  if is_kind old INFER_UNKNOWN && negb (is_kind type INFER_UNKNOWN) then true
  else if is_kind old INFER_NUMERIC && infer_is_integer type then true
  else if is_kind old INFER_INTEGER
          && (is_kind type INFER_I32 || is_kind type INFER_I64) then true
  else false.

(** The inner loop: [None] when no binding of the list is called [name];
    otherwise the list after the visit and whether it was written. *)
Fixpoint refine_bindings (name : string) (type : InferredType)
    (bs : list TypeBinding) : option (list TypeBinding * bool) :=
  match bs with
  | [] => None
  | b :: next =>
      if String.eqb (tb_name b) name then
        if refines (tb_type b) type
        then Some (mkTypeBinding (tb_name b) type :: next, true)
        else Some (b :: next, false)
      else
        match refine_bindings name type next with
        | Some (next', w) => Some (b :: next', w)
        | None => None
        end
  end.

Fixpoint refine_envs (name : string) (type : InferredType)
    (envs : list (list TypeBinding)) : option (list (list TypeBinding) * bool) :=
  match envs with
  | [] => None
  | env :: up =>
      match refine_bindings name type env with
      | Some (env', w) => Some (env' :: up, w)
      | None =>
          match refine_envs name type up with
          | Some (up', w) => Some (env :: up', w)
          | None => None
          end
      end
  end.

Definition type_env_refine (ctx : TypeInferContext) (name : string)
    (type : InferredType) : TypeInferContext :=
  match refine_envs name type (current_env ctx) with
  | Some (envs', w) =>
      mkCtx envs' (func_returns ctx) (if w then 1 else changed ctx)
  | None => ctx
  end.

(** *** The registry of function return types *)

Fixpoint update_func_return (name : string) (ret_type : InferredType)
    (fs : list (string * InferredType)) : option (list (string * InferredType)) :=
  match fs with
  | [] => None
  | (f, t) :: next =>
      if String.eqb f name then Some ((f, ret_type) :: next)
      else option_map (cons (f, t)) (update_func_return name ret_type next)
  end.

Definition type_register_func_return (ctx : TypeInferContext) (name : string)
    (ret_type : InferredType) : TypeInferContext :=
  match update_func_return name ret_type (func_returns ctx) with
  | Some fs => mkCtx (current_env ctx) fs (changed ctx)
  | None => mkCtx (current_env ctx) ((name, ret_type) :: func_returns ctx) (changed ctx)
  end.

Fixpoint lookup_func_return (name : string) (fs : list (string * InferredType))
    : option InferredType :=
  match fs with
  | [] => None
  | (f, t) :: next => if String.eqb f name then Some t else lookup_func_return name next
  end.

Definition type_lookup_func_return (ctx : TypeInferContext) (name : string)
    : InferredType :=
  default infer_unknown (lookup_func_return name (func_returns ctx)).

(** *** Inference

    [infer_expr] and [infer_stmt] write to the context they are given;
    here they return it. *)

Fixpoint infer_expr (ctx : TypeInferContext) (expr : Expr)
    : TypeInferContext * InferredType :=
  match expr with
  | EXPR_NUMBER int_value _ is_float =>
      if truthy is_float then (ctx, infer_f64)
      else if (int_value >=? -2147483648) && (int_value <=? 2147483647)
      then (ctx, infer_i32)
      else (ctx, infer_i64)
  | EXPR_BOOL _ => (ctx, infer_bool)
  | EXPR_STRING _ | EXPR_STRING_INTERPOLATION _ => (ctx, infer_string)
  | EXPR_NULL => (ctx, infer_null)
  | EXPR_IDENT name => (ctx, type_env_lookup ctx name)
  | EXPR_BINARY l op r =>
      let '(ctx, left_t) := infer_expr ctx l in
      let '(ctx, right_t) := infer_expr ctx r in
      (ctx, infer_binary_result op left_t right_t)
  | EXPR_UNARY op e =>
      let '(ctx, operand) := infer_expr ctx e in
      (ctx, infer_unary_result op operand)
  | EXPR_ASSIGN name e =>
      let '(ctx, value) := infer_expr ctx e in
      (type_env_refine ctx name value, value)
  | EXPR_TERNARY _ t f =>
      let '(ctx, then_t) := infer_expr ctx t in
      let '(ctx, else_t) := infer_expr ctx f in
      (ctx, infer_meet then_t else_t)
  | EXPR_CALL func _ =>
      match func with
      | Some (EXPR_IDENT name) => (ctx, type_lookup_func_return ctx name)
      | _ => (ctx, infer_unknown)
      end
  | EXPR_ARRAY_LITERAL _ => (ctx, mkInferred INFER_ARRAY None)
  | EXPR_OBJECT_LITERAL _ _ => (ctx, mkInferred INFER_OBJECT None)
  | EXPR_FUNCTION _ _ _ _ => (ctx, mkInferred INFER_FUNCTION None)
  | EXPR_INDEX _ _ => (ctx, infer_unknown)
  | EXPR_GET_PROPERTY _ _ => (ctx, infer_unknown)
  | EXPR_PREFIX_INC e | EXPR_PREFIX_DEC e => infer_expr ctx e
  | EXPR_POSTFIX_INC e | EXPR_POSTFIX_DEC e => infer_expr ctx e
  | EXPR_RUNE _ => (ctx, infer_i32)
  | EXPR_AWAIT _ => (ctx, infer_unknown)
  | EXPR_NULL_COALESCE l r =>
      let '(ctx, left_t) := infer_expr ctx l in
      let '(ctx, right_t) := infer_expr ctx r in
      if is_kind left_t INFER_NULL then (ctx, right_t)
      else (ctx, infer_meet left_t right_t)
  | EXPR_INDEX_ASSIGN _ _ _ => (ctx, infer_unknown)
  end.

(** [infer_expr] on a pointer that may be [NULL]. *)
Definition infer_expr_opt (ctx : TypeInferContext) (expr : option Expr)
    : TypeInferContext * InferredType :=
  match expr with
  | Some e => infer_expr ctx e
  | None => (ctx, infer_unknown)
  end.

(** The [switch] on the kind of a type annotation, shared by [let],
    [const] and function parameters: [fallback] is what the variable
    [init_type] holds when the switch is entered. *)
Definition annotated_type (annotation : option Type_) (fallback : InferredType)
    : InferredType :=
  match annotation with
  | None => fallback
  | Some ty =>
      match kind_of ty with
      | TYPE_I32 => infer_i32
      | TYPE_I64 => infer_i64
      | TYPE_F32 | TYPE_F64 => infer_f64
      | TYPE_BOOL => infer_bool
      | TYPE_STRING => infer_string
      | _ => fallback
      end
  end.

Fixpoint infer_stmt (ctx : TypeInferContext) (stmt : Stmt) : TypeInferContext :=
  match stmt with
  | STMT_LET name type_annotation value =>
      let '(ctx, init_type) := infer_expr_opt ctx value in
      type_env_bind ctx name (annotated_type type_annotation init_type)
  | STMT_CONST name type_annotation value =>
      let '(ctx, init_type) := infer_expr_opt ctx value in
      type_env_bind ctx name (annotated_type type_annotation init_type)
  | STMT_BLOCK statements =>
      let ctx := type_env_push ctx in
      let ctx :=
        (fix each (ss : list Stmt) (ctx : TypeInferContext) :=
           match ss with
           | [] => ctx
           | s :: rest => each rest (infer_stmt ctx s)
           end) statements ctx in
      type_env_pop ctx
  | STMT_IF condition then_branch else_branch =>
      let ctx := fst (infer_expr ctx condition) in
      let ctx := infer_stmt ctx then_branch in
      match else_branch with
      | Some s => infer_stmt ctx s
      | None => ctx
      end
  | STMT_WHILE condition body =>
      let ctx := fst (infer_expr ctx condition) in
      infer_stmt ctx body
  | STMT_FOR initializer condition increment body =>
      let ctx := type_env_push ctx in
      let ctx := match initializer with
                 | Some s => infer_stmt ctx s
                 | None => ctx
                 end in
      let ctx := match condition with
                 | Some e => fst (infer_expr ctx e)
                 | None => ctx
                 end in
      let ctx := match increment with
                 | Some e => fst (infer_expr ctx e)
                 | None => ctx
                 end in
      let ctx := infer_stmt ctx body in
      type_env_pop ctx
  | STMT_EXPR expr => fst (infer_expr ctx expr)
  | STMT_RETURN value =>
      match value with
      | Some e => fst (infer_expr ctx e)
      | None => ctx
      end
  | STMT_BREAK | STMT_CONTINUE => ctx
  end.

(** The parameter loop of [infer_function]: [param_types] may be
    [NULL] as a whole ([None]) or hold [NULL] entries. *)
Fixpoint bind_params (ctx : TypeInferContext) (param_names : list string)
    (param_types : list (option Type_)) : TypeInferContext :=
  match param_names with
  | [] => ctx
  | p :: names =>
      let annotation := match param_types with a :: _ => a | [] => None end in
      bind_params (type_env_bind ctx p (annotated_type annotation infer_unknown))
                  names (tail param_types)
  end.

(** When [type_env_refine] overwrites: the binding is [UNKNOWN] and the
    new type is not, or it is [NUMERIC] and the new type is an integer
    type, or it is [INTEGER] and the new type is [I32] or [I64]. *)
Definition narrows (old type : InferredType) : Prop :=
  (kind old = INFER_UNKNOWN /\ kind type <> INFER_UNKNOWN)
  \/ (kind old = INFER_NUMERIC /\
      (kind type = INFER_I32 \/ kind type = INFER_I64 \/ kind type = INFER_INTEGER))
  \/ (kind old = INFER_INTEGER /\ (kind type = INFER_I32 \/ kind type = INFER_I64)).

(** How far a kind can still be narrowed: [UNKNOWN] to [NUMERIC] to
    [INTEGER] to a definite type. *)
Definition specificity (k : InferredTypeKind) : nat :=
  match k with
  | INFER_UNKNOWN => 3
  | INFER_NUMERIC => 2
  | INFER_INTEGER => 1
  | _ => 0
  end.

(** The names bound in each scope of the chain. *)
Definition shape (ctx : TypeInferContext) : list (list string) :=
  List.map (List.map tb_name) (current_env ctx).

(** A step of inference that declares nothing: the registry and the
    bound names are as before, and either the [changed] flag is up or
    the context is untouched. *)
Definition quiet (ctx ctx' : TypeInferContext) : Prop :=
  func_returns ctx' = func_returns ctx
  /\ shape ctx' = shape ctx
  /\ (changed ctx' = 1 \/ ctx' = ctx).

(** A step that may declare names in the current scope: the enclosing
    scopes keep their names, and the current scope keeps its own behind
    the ones [added]. *)
Definition grows (ctx ctx' : TypeInferContext) : Prop :=
  func_returns ctx' = func_returns ctx
  /\ exists added hd tl,
       shape ctx = hd :: tl /\ shape ctx' = (added ++ hd) :: tl.

(** A context of one scope in which [x] is known to be an [i32]. *)
Definition ctx_x_i32 : TypeInferContext :=
  type_env_bind type_infer_new "x" infer_i32.

(** [x = "s"] *)
Definition assign_x_string : Expr := EXPR_ASSIGN "x" (EXPR_STRING "s").

(** [let x: array = 1;] and [let x: array = "s";] *)
Definition let_x_array_number : Stmt :=
  STMT_LET "x" (Some (type_new TYPE_ARRAY)) (Some (expr_number_int 1)).
Definition let_x_array_string : Stmt :=
  STMT_LET "x" (Some (type_new TYPE_ARRAY)) (Some (EXPR_STRING "s")).

Definition infer_function (ctx : TypeInferContext) (func_expr : option Expr)
    : TypeInferContext :=
  match func_expr with
  | Some (EXPR_FUNCTION param_names param_types _ body) =>
      let ctx := type_env_push ctx in
      let ctx := bind_params ctx param_names param_types in
      let ctx := infer_stmt ctx body in
      type_env_pop ctx
  | _ => ctx
  end.

End Infer.


(** * Properties *)

(** ** Environments *)

Section EnvFacts.
Import Interp Env.

Lemma declares_cons name b rest :
  declares name (b :: rest) <-> b_name b = name \/ declares name rest.
Proof.
  unfold declares. split.
  - intros (b' & Hin & Hn). apply elem_of_cons in Hin as [->|Hin]; eauto.
  - intros [Hn | (b' & Hin & Hn)].
    + exists b. split; [left | exact Hn].
    + exists b'. split; [right|]; assumption.
Qed.

Lemma find_slot_miss name bs :
  ~ declares name bs -> find_slot name bs = None.
Proof.
  induction bs as [|b rest IH]; simpl; intros Hno; [reflexivity|].
  rewrite declares_cons in Hno.
  destruct (String.eqb_spec (b_name b) name) as [Heq|Hne]; [tauto|].
  rewrite IH by tauto. reflexivity.
Qed.

Lemma find_slot_hit name bs1 b bs2 :
  ~ declares name bs1 -> b_name b = name ->
  find_slot name (bs1 ++ b :: bs2) = Some (length bs1).
Proof.
  intros Hno Hb. induction bs1 as [|b1 rest IH]; simpl.
  - rewrite <- Hb, String.eqb_refl. reflexivity.
  - rewrite declares_cons in Hno.
    destruct (String.eqb_spec (b_name b1) name) as [Heq|Hne]; [tauto|].
    rewrite IH by tauto. reflexivity.
Qed.

Lemma find_slot_Some name bs i :
  find_slot name bs = Some i -> declares name bs.
Proof.
  revert i. induction bs as [|b rest IH]; simpl; intros i; [discriminate|].
  rewrite declares_cons.
  destruct (String.eqb_spec (b_name b) name) as [Heq|Hne]; [auto|].
  destruct (find_slot name rest) as [j|]; [|discriminate].
  intros _. right. eapply IH. reflexivity.
Qed.

Lemma find_slot_None name bs :
  find_slot name bs = None <-> ~ declares name bs.
Proof.
  split; [|apply find_slot_miss].
  intros Hnone Hd. destruct (find_slot name bs) as [i|] eqn:Hf; [discriminate|].
  clear Hnone. induction bs as [|b rest IH]; simpl in *.
  - destruct Hd as (b & Hin & _). inversion Hin.
  - apply declares_cons in Hd.
    destruct (String.eqb_spec (b_name b) name) as [Heq|Hne]; [discriminate|].
    destruct (find_slot name rest); [discriminate|].
    destruct Hd as [Hd|Hd]; [congruence | auto].
Qed.

Lemma assign_slot_hit s bs1 b bs2 cap name value :
  s = mkScope (bs1 ++ b :: bs2) cap ->
  assign_slot s (length bs1) name value =
    if truthy (b_const b)
    then runtime_error ("Cannot assign to const variable '" +:+ name +:+ "'")
    else Ok (mkScope (bs1 ++ mkBinding (b_name b) value (b_const b) :: bs2) cap).
Proof.
  intros ->. unfold assign_slot. simpl.
  rewrite list_lookup_middle by reflexivity.
  destruct (truthy (b_const b)); [reflexivity|].
  rewrite insert_app_r_alt by reflexivity.
  rewrite Nat.sub_diag. reflexivity.
Qed.

(** The search through the enclosing scopes stops at the first scope
    that declares the name and assigns there. *)
Lemma set_in_parents_hit name value bs1 b bs2 cap post pre :
  forall up,
    scopes up = pre ++ mkScope (bs1 ++ b :: bs2) cap :: post ->
    Forall (fun s => ~ declares name (bindings s)) pre ->
    ~ declares name bs1 -> b_name b = name ->
    exists r, set_in_parents up name value = Some r /\
      if truthy (b_const b)
      then r = runtime_error ("Cannot assign to const variable '" +:+ name +:+ "'")
      else exists up', r = Ok up' /\
        scopes up' = pre ++ mkScope (bs1 ++ mkBinding name value (b_const b) :: bs2) cap :: post.
Proof.
  induction pre as [|s0 pre IH]; intros [s p] Hsc Hpre Hbs1 Hb; simpl in Hsc.
  - injection Hsc as Hs Hp. simpl.
    rewrite Hs. simpl. rewrite find_slot_hit by assumption.
    rewrite (assign_slot_hit _ bs1 b bs2 cap) by reflexivity.
    destruct (truthy (b_const b)); simpl.
    + eexists; split; reflexivity.
    + eexists; split; [reflexivity|]. eexists; split; [reflexivity|].
      simpl. rewrite Hb, Hp. reflexivity.
  - injection Hsc as Hs Hp. subst s0. simpl.
    apply Forall_cons in Hpre as [Hs Hpre].
    rewrite find_slot_miss by assumption.
    destruct p as [up|]; [|destruct pre; discriminate].
    destruct (IH up Hp Hpre Hbs1 Hb) as (r & Hr & Hcase).
    rewrite Hr. eexists; split; [reflexivity|].
    destruct (truthy (b_const b)).
    + subst r. reflexivity.
    + destruct Hcase as (up' & -> & Hup'). simpl.
      eexists; split; [reflexivity|]. simpl. rewrite Hup'. reflexivity.
Qed.

Lemma set_in_parents_miss name value :
  forall up,
    Forall (fun s => ~ declares name (bindings s)) (scopes up) ->
    set_in_parents up name value = None.
Proof.
  fix IH 1. intros [s p] Hall. simpl in *.
  apply Forall_cons in Hall as [Hs Hall].
  rewrite find_slot_miss by assumption.
  destruct p as [up|]; [|reflexivity].
  rewrite (IH up Hall). reflexivity.
Qed.

(** C7.  [env_define] ends the process with
    [Variable 'n' already defined in this scope] and exit status 1
    exactly when the current scope of [env] already holds a binding
    called [n]; the enclosing scopes are never consulted.  Otherwise it
    returns, and the current scope has gained the slot [(n, v, c)] at
    its end, everything else being as before. *)
Theorem env_define_spec (env : Environment) (n : string) (v : Value) (c : Z) :
  (env_define env n v c =
     Fatal (stderr_line ("Variable '" +:+ n +:+ "' already defined in this scope")) 1
   <-> declares n (bindings (scope env)))
  /\ (~ declares n (bindings (scope env)) ->
      exists cap,
        env_define env n v c =
          Ok (mkEnv (mkScope (bindings (scope env) ++ [mkBinding n v c]) cap)
                    (parent env))
        /\ (cap = capacity (scope env) \/ cap = capacity (scope env) * 2)).
Proof.
  unfold env_define. split.
  - destruct (find_slot n (bindings (scope env))) as [i|] eqn:Hf.
    + split; [intros _ | reflexivity]. eapply find_slot_Some, Hf.
    + apply find_slot_None in Hf. split; [discriminate | tauto].
  - intros Hno. rewrite find_slot_miss by assumption.
    unfold append_binding.
    destruct (count (scope env) >=? capacity (scope env));
      eexists; (split; [reflexivity|]); simpl; auto.
Qed.

(** C1.  [env_set] looks for [n] in the current scope and then in each
    enclosing scope, and stops at the first scope that declares it.
    If the binding found there is const, the process ends with
    [Cannot assign to const variable 'n'] and exit status 1; otherwise
    the value of that binding becomes [v] and nothing else changes.
    If no scope of the chain declares [n], the current scope gains the
    mutable binding [(n, v)] at its end. *)
Theorem env_set_spec (env : Environment) (n : string) (v : Value) :
  (forall pre bs1 b bs2 cap post,
      scopes env = (pre ++ mkScope (bs1 ++ b :: bs2) cap :: post)%list ->
      Forall (fun s => ~ declares n (bindings s)) pre ->
      ~ declares n bs1 ->
      b_name b = n ->
      (b_const b <> 0 ->
         env_set env n v =
           Fatal (stderr_line ("Cannot assign to const variable '" +:+ n +:+ "'")) 1)
      /\ (b_const b = 0 ->
          exists env',
            env_set env n v = Ok env' /\
            scopes env' = pre ++ mkScope (bs1 ++ mkBinding n v 0 :: bs2) cap :: post))
  /\ (Forall (fun s => ~ declares n (bindings s)) (scopes env) ->
      exists cap,
        env_set env n v =
          Ok (mkEnv (mkScope (bindings (scope env) ++ [mkBinding n v 0]) cap)
                    (parent env))
        /\ (cap = capacity (scope env) \/ cap = capacity (scope env) * 2)).
Proof.
  split.
  - intros pre bs1 b bs2 cap post Hsc Hpre Hbs1 Hb.
    assert (Hcase :
      if truthy (b_const b)
      then env_set env n v =
             runtime_error ("Cannot assign to const variable '" +:+ n +:+ "'")
      else exists env', env_set env n v = Ok env' /\
             scopes env' =
               pre ++ mkScope (bs1 ++ mkBinding n v (b_const b) :: bs2) cap :: post).
    { destruct env as [s p]. destruct pre as [|s0 pre]; simpl in Hsc.
      - injection Hsc as Hs Hp. unfold env_set. simpl.
        rewrite Hs. simpl. rewrite find_slot_hit by assumption.
        rewrite (assign_slot_hit _ bs1 b bs2 cap) by reflexivity.
        destruct (truthy (b_const b)); simpl; [reflexivity|].
        eexists; split; [reflexivity|]. simpl. rewrite Hb, Hp. reflexivity.
      - injection Hsc as Hs Hp. subst s0.
        apply Forall_cons in Hpre as [Hs Hpre].
        unfold env_set. simpl. rewrite find_slot_miss by assumption.
        destruct p as [up|]; [|destruct pre; discriminate].
        destruct (set_in_parents_hit n v bs1 b bs2 cap post pre up Hp Hpre Hbs1 Hb)
          as (r & Hr & Hcase).
        rewrite Hr. destruct (truthy (b_const b)).
        + subst r. reflexivity.
        + destruct Hcase as (up' & -> & Hup'). simpl.
          eexists; split; [reflexivity|]. simpl. rewrite Hup'. reflexivity. }
    unfold truthy in Hcase. split; intros Hc.
    + apply Z.eqb_neq in Hc. rewrite Hc in Hcase. exact Hcase.
    + rewrite Hc in Hcase. simpl in Hcase. exact Hcase.
  - intros Hall. destruct env as [s p]. simpl in Hall.
    apply Forall_cons in Hall as [Hs Hall].
    unfold env_set. simpl. rewrite find_slot_miss by assumption.
    assert (Himp : exists cap,
      Ok (mkEnv (append_binding s (mkBinding n v 0)) p) =
        Ok (mkEnv (mkScope (bindings s ++ [mkBinding n v 0]) cap) p)
      /\ (cap = capacity s \/ cap = capacity s * 2)).
    { unfold append_binding. destruct (count s >=? capacity s);
        eexists; (split; [reflexivity|]); simpl; auto. }
    destruct p as [up|]; [|exact Himp].
    rewrite set_in_parents_miss by assumption. exact Himp.
Qed.

Lemma env_define_spec_witness :
  exists cap,
    env_define demo_env "x" (val_int 7) 1 =
      Ok (mkEnv (mkScope [mkBinding "y" (val_int 1) 1; mkBinding "x" (val_int 7) 1] cap)
                (Some (mkEnv demo_outer None)))
    /\ (cap = 16 \/ cap = 16 * 2).
Proof.
  apply (proj2 (env_define_spec demo_env "x" (val_int 7) 1)).
  apply find_slot_None. reflexivity.
Defined.

Lemma env_set_spec_witness :
  exists env',
    env_set demo_env "x" (val_int 5) = Ok env' /\
    scopes env' = [demo_inner; mkScope [mkBinding "x" (val_int 5) 0] 16].
Proof.
  apply (proj1 (env_set_spec demo_env "x" (val_int 5))
           [demo_inner] [] (mkBinding "x" (val_int 2) 0) [] 16 []).
  - reflexivity.
  - repeat constructor. apply find_slot_None. reflexivity.
  - apply find_slot_None. reflexivity.
  - reflexivity.
  - reflexivity.
Defined.

End EnvFacts.

(** ** Arrays *)

Section ArrayFacts.
Import Runtime.

Lemma bounds_check_false (i n : Z) :
  0 <= i < n -> (i <? 0) || (i >=? n) = false.
Proof. intros H. apply orb_false_iff. split; lia. Qed.

Lemma bounds_check_true (i n : Z) :
  ~ (0 <= i < n) -> (i <? 0) || (i >=? n) = true.
Proof. intros H. apply orb_true_iff. lia. Qed.

(** C3.  An indexed read returns element [i] exactly when
    [0 <= i < length]; for every other index, negative or too large, it
    ends the process with [Array index i out of bounds (length n)] and
    exit status 1.  This holds for [array_get] of the interpreter and
    for [hml_array_get] of the runtime, whose index is the value that
    [hml_to_i32] coerces to [i]. *)
Theorem array_get_bounds :
  (forall (arr : Interp.Array) (i : Z),
      (0 <= i < Interp.arr_length arr ->
         exists x, Interp.elements arr !! Z.to_nat i = Some x /\
                   Interp.array_get arr i = Ok x)
      /\ (~ (0 <= i < Interp.arr_length arr) ->
          Interp.array_get arr i =
            Fatal (stderr_line ("Array index " +:+ fmt_d i +:+ " out of bounds (length "
                                +:+ fmt_d (Interp.arr_length arr) +:+ ")")) 1))
  /\ (forall (hml_to_i32 : HmlValue -> result Z) (a : HmlArray)
             (index : HmlValue) (i : Z),
        hml_to_i32 index = Ok i ->
        (0 <= i < length a ->
           exists x, elements a !! Z.to_nat i = Some x /\
                     hml_array_get hml_to_i32 (hml_val_array a) index = Ok x)
        /\ (~ (0 <= i < length a) ->
            hml_array_get hml_to_i32 (hml_val_array a) index =
              Fatal (stderr_line ("Array index " +:+ fmt_d i +:+ " out of bounds (length "
                                  +:+ fmt_d (length a) +:+ ")")) 1)).
Proof.
  split.
  - intros arr i. unfold Interp.array_get. split; intros H.
    + rewrite bounds_check_false by assumption.
      destruct (Interp.elements arr !! Z.to_nat i) as [x|] eqn:Hx.
      * exists x. split; reflexivity.
      * apply lookup_ge_None in Hx. unfold Interp.arr_length in H. lia.
    + rewrite bounds_check_true by assumption. reflexivity.
  - intros to_i32 a index i Hidx. unfold hml_array_get. simpl. rewrite Hidx. simpl.
    split; intros H.
    + rewrite bounds_check_false by assumption.
      destruct (elements a !! Z.to_nat i) as [x|] eqn:Hx.
      * exists x. split; reflexivity.
      * apply lookup_ge_None in Hx. unfold length in H. lia.
    + rewrite bounds_check_true by assumption. reflexivity.
Qed.

Lemma array_get_bounds_witness :
  (exists x, elements Runtime.xs12 !! Z.to_nat 1 = Some x /\
             hml_array_get i32_index (hml_val_array Runtime.xs12) (hml_val_i32 1) = Ok x)
  /\ hml_array_get i32_index (hml_val_array Runtime.xs12) (hml_val_i32 5) =
       Fatal (stderr_line "Array index 5 out of bounds (length 2)") 1
  /\ Interp.array_get Interp.xs12 (-1) =
       Fatal (stderr_line "Array index -1 out of bounds (length 2)") 1.
Proof.
  split; [|split].
  - apply (proj2 array_get_bounds i32_index Runtime.xs12 (hml_val_i32 1) 1);
      [reflexivity | unfold length; simpl; lia].
  - apply (proj2 array_get_bounds i32_index Runtime.xs12 (hml_val_i32 5) 5);
      [reflexivity | unfold length; simpl; lia].
  - apply (proj1 array_get_bounds Interp.xs12 (-1)).
    unfold Interp.arr_length; simpl; lia.
Defined.

(** *** Buffer writes and the shifting loops *)

Lemma store_end l x : store l (List.length l) x = l ++ [x].
Proof. unfold store. destruct (decide _) as [H|H]; [lia | reflexivity]. Qed.

Lemma store_lt l i x : (i < List.length l)%nat -> store l i x = <[i := x]> l.
Proof. unfold store. intros H. destruct (decide _); [reflexivity | contradiction]. Qed.

(** After [k] rounds from [i], the elements above [i] have moved down by
    one slot and the last element is still in place. *)
Lemma shift_left_spec k :
  forall i l,
    (i + k + 1 = List.length l)%nat ->
    shift_left k i l = take i l ++ drop (S i) l ++ drop (i + k) l.
Proof.
  induction k as [|k IH]; intros i l Hlen; simpl.
  - rewrite Nat.add_0_r. rewrite (drop_ge l (S i)) by lia. simpl.
    symmetry. apply take_drop.
  - destruct (lookup_lt_is_Some_2 l (S i)) as [x Hx]; [lia|].
    unfold move. rewrite Hx. rewrite store_lt by lia.
    rewrite IH by (rewrite length_insert; lia).
    rewrite take_insert_lt by lia.
    rewrite !drop_insert_lt by lia.
    rewrite (drop_S l x (S i) Hx).
    replace (S i + k)%nat with (i + S k)%nat by lia.
    destruct (lookup_lt_is_Some_2 l i) as [y Hy]; [lia|].
    rewrite (take_S_r l i y Hy).
    rewrite insert_app_r_alt by (rewrite length_take; lia).
    rewrite length_take, Nat.min_l by lia. rewrite Nat.sub_diag. simpl.
    rewrite <- app_assoc. reflexivity.
Qed.

(** C9.  On an empty array [array_pop], [hml_array_pop] and
    [hml_array_shift] return the null value without a fault and leave
    the array as it is.  On a non-empty array the pops return the last
    element and the shift the first, and what remains is the array
    without that element, one shorter. *)
Theorem pop_shift_spec :
  (forall arr : Interp.Array,
      (Interp.elements arr = [] -> Interp.array_pop arr = (arr, Interp.val_null))
      /\ (forall l x, Interp.elements arr = l ++ [x] ->
            Interp.array_pop arr = (Interp.mkArray l (Interp.capacity arr), x)
            /\ Z.of_nat (List.length l) = Interp.arr_length arr - 1))
  /\ (forall a : HmlArray,
        (elements a = [] ->
           hml_array_pop (hml_val_array a) = Ok (a, hml_val_null)
           /\ hml_array_shift (hml_val_array a) = Ok (a, hml_val_null))
        /\ (forall l x, elements a = l ++ [x] ->
              hml_array_pop (hml_val_array a) =
                Ok (mkHmlArray l (capacity a) (element_type a), x)
              /\ Z.of_nat (List.length l) = length a - 1)
        /\ (forall l x, elements a = x :: l ->
              hml_array_shift (hml_val_array a) =
                Ok (mkHmlArray l (capacity a) (element_type a), x)
              /\ Z.of_nat (List.length l) = length a - 1)).
Proof.
  split.
  - intros [els cap]. unfold Interp.array_pop, Interp.arr_length. simpl. split.
    + intros ->. reflexivity.
    + intros l x ->. rewrite length_app. simpl.
      rewrite (proj2 (Z.eqb_neq _ 0)) by lia.
      replace (Z.to_nat (Z.of_nat (List.length l + 1) - 1)) with (List.length l) by lia.
      rewrite take_app_length, list_lookup_middle by reflexivity.
      split; [reflexivity | lia].
  - intros [els cap ty]. unfold hml_array_pop, hml_array_shift, length. simpl.
    split; [|split].
    + intros ->. split; reflexivity.
    + intros l x ->. rewrite length_app. simpl.
      rewrite (proj2 (Z.eqb_neq _ 0)) by lia.
      replace (Z.to_nat (Z.of_nat (List.length l + 1) - 1)) with (List.length l) by lia.
      rewrite take_app_length, list_lookup_middle by reflexivity.
      split; [reflexivity | lia].
    + intros l x ->. cbn [List.length elements].
      rewrite (proj2 (Z.eqb_neq _ 0)) by lia.
      replace (Z.to_nat (Z.of_nat (S (List.length l)) - 1)) with (List.length l) by lia.
      rewrite shift_left_spec by (simpl; lia). simpl.
      rewrite take_app_length. split; [reflexivity | lia].
Qed.

Lemma pop_shift_spec_witness :
  hml_array_shift (hml_val_array Runtime.xs12) =
    Ok (mkHmlArray [hml_val_i32 2] 8 HML_VAL_NULL, hml_val_i32 1)
  /\ Z.of_nat (List.length [hml_val_i32 2]) = length Runtime.xs12 - 1.
Proof.
  apply (proj2 (proj2 (proj2 pop_shift_spec Runtime.xs12))
           [hml_val_i32 2] (hml_val_i32 1)).
  reflexivity.
Defined.

(** *** Reduce *)

(** With a reducer that leaves the array alone, the loop is the left
    fold of the values it returns, whatever fuel exceeds the rounds. *)
Lemma reduce_loop_spec call reducer a :
  keeps call reducer a ->
  forall fuel i acc,
    (List.length (elements a) - i < fuel)%nat ->
    reduce_loop call fuel reducer a i acc =
      Some (fold_left_result (fun acc y => returned (call reducer [acc; y] a))
                             (drop i (elements a)) acc).
Proof.
  intros Hkeeps. induction fuel as [|fuel IH]; intros i acc Hfuel; [lia|].
  simpl. destruct (elements a !! i) as [x|] eqn:Hx.
  - rewrite (drop_S _ x i Hx). simpl.
    destruct (call reducer [acc; x] a) as [[new_acc a']|msg code] eqn:Hcall; simpl;
      [|reflexivity].
    rewrite (Hkeeps _ _ _ Hcall). apply IH.
    apply lookup_lt_Some in Hx. lia.
  - apply lookup_ge_None in Hx. rewrite drop_ge by lia. reflexivity.
Qed.

(** C8, as the code has it.  On an empty array [hml_array_reduce] ends
    the process with [reduce() of empty array with no initial value]
    and exit status 1 exactly when [initial] is null, and returns
    [initial] otherwise, without a call of the reducer.  On a non-empty
    array, and with a reducer that does not write to that array, it
    returns the left fold of the reducer: over the elements after the
    first, starting from the first, when [initial] is null; over all
    elements, starting from [initial], otherwise.  A fault of the
    reducer ends the fold. *)
Theorem hml_array_reduce_spec
    (hml_call_function :
       HmlValue -> list HmlValue -> HmlArray -> result (HmlValue * HmlArray))
    (a : HmlArray) (reducer initial : HmlValue) (fuel : nat) :
  (elements a = [] ->
     (type initial = HML_VAL_NULL ->
        hml_array_reduce hml_call_function fuel (hml_val_array a) reducer initial =
          Some (Fatal (stderr_line "reduce() of empty array with no initial value") 1))
     /\ (type initial <> HML_VAL_NULL ->
         hml_array_reduce hml_call_function fuel (hml_val_array a) reducer initial =
           Some (Ok initial)))
  /\ (keeps hml_call_function reducer a ->
      (List.length (elements a) < fuel)%nat ->
      forall x rest, elements a = x :: rest ->
        (type initial = HML_VAL_NULL ->
           hml_array_reduce hml_call_function fuel (hml_val_array a) reducer initial =
             Some (fold_left_result
                     (fun acc y => returned (hml_call_function reducer [acc; y] a))
                     rest x))
        /\ (type initial <> HML_VAL_NULL ->
            hml_array_reduce hml_call_function fuel (hml_val_array a) reducer initial =
              Some (fold_left_result
                      (fun acc y => returned (hml_call_function reducer [acc; y] a))
                      (x :: rest) initial))).
Proof.
  unfold hml_array_reduce, length. simpl. split.
  - intros ->. simpl. split; intros H.
    + rewrite bool_decide_eq_true_2 by assumption. reflexivity.
    + rewrite bool_decide_eq_false_2 by assumption. reflexivity.
  - intros Hkeeps Hfuel x rest Hel. rewrite Hel. cbn [List.length].
    rewrite (proj2 (Z.eqb_neq _ 0)) by lia. split; intros H.
    + rewrite bool_decide_eq_true_2 by assumption. cbn [lookup list_lookup default].
      rewrite (reduce_loop_spec _ _ _ Hkeeps) by lia.
      rewrite Hel. reflexivity.
    + rewrite bool_decide_eq_false_2 by assumption.
      rewrite (reduce_loop_spec _ _ _ Hkeeps) by lia.
      rewrite Hel. reflexivity.
Qed.

(** With a reducer that always returns, the fold is [fold_left]. *)
Lemma fold_left_result_pure step (f : HmlValue -> HmlValue -> HmlValue) l :
  (forall acc x, step acc x = Ok (f acc x)) ->
  forall acc, fold_left_result step l acc = Ok (fold_left f l acc).
Proof.
  intros Hf. induction l as [|x rest IH]; intros acc; simpl; [reflexivity|].
  rewrite Hf. simpl. apply IH.
Qed.

Lemma keeps_leaving call fn a : keeps (leaving call) fn a.
Proof.
  intros args v a'. unfold leaving. destruct (call fn args); simpl; congruence.
Qed.

Lemma hml_array_reduce_spec_witness :
  hml_array_reduce (leaving call_add) 3 (hml_val_array Runtime.xs12) fn_add
                   hml_val_null =
    Some (Ok (hml_val_i32 3))
  /\ hml_array_reduce (leaving call_add) 3 (hml_val_array Runtime.xs12) fn_add
                      (hml_val_i32 10) =
    Some (Ok (hml_val_i32 13))
  /\ hml_array_reduce (leaving call_add) 3
       (hml_val_array (mkHmlArray [] 8 HML_VAL_NULL)) fn_add hml_val_null =
    Some (Fatal (stderr_line "reduce() of empty array with no initial value") 1).
Proof.
  split; [|split].
  - apply (proj2 (hml_array_reduce_spec (leaving call_add) Runtime.xs12 fn_add
                    hml_val_null 3)
             (keeps_leaving _ _ _) ltac:(simpl; lia)
             (hml_val_i32 1) [hml_val_i32 2]); reflexivity.
  - apply (proj2 (hml_array_reduce_spec (leaving call_add) Runtime.xs12 fn_add
                    (hml_val_i32 10) 3)
             (keeps_leaving _ _ _) ltac:(simpl; lia)
             (hml_val_i32 1) [hml_val_i32 2]); [reflexivity | discriminate].
  - apply (proj1 (hml_array_reduce_spec (leaving call_add)
                    (mkHmlArray [] 8 HML_VAL_NULL) fn_add hml_val_null 3));
      reflexivity.
Defined.

(** C8, where the code departs from the claim as it was put.  The
    reducer [fn(acc, x) { xs.pop(); return acc + x; }] shortens the
    array [[1, 2, 3]] while it is reduced from [0]: the loop reads the
    length again before every round and stops after two of them, so the
    call returns [3], where the left fold of the reducer's values over
    the three elements is [6]. *)
Lemma hml_array_reduce_writing_counterexample :
  hml_array_reduce call_add_pop 8 (hml_val_array xs123) fn_add (hml_val_i32 0) =
    Some (Ok (hml_val_i32 3))
  /\ fold_left_result (fun acc y => returned (call_add_pop fn_add [acc; y] xs123))
                      (elements xs123) (hml_val_i32 0) =
       Ok (hml_val_i32 6)
  /\ hml_val_i32 3 <> hml_val_i32 6.
Proof. split; [reflexivity|]. split; [reflexivity | discriminate]. Qed.

(** After [k] rounds down to [lo], the elements from [lo] on have moved
    up by one slot, over the element that was at [lo + k]. *)
Lemma shift_right_inside lo k :
  forall l,
    (lo + k < List.length l)%nat ->
    shift_right lo k l =
      take (S lo) l ++ drop lo (take (lo + k) l) ++ drop (S (lo + k)) l.
Proof.
  induction k as [|k IH]; intros l Hlen; simpl.
  - rewrite Nat.add_0_r. rewrite (drop_ge (take lo l)) by (rewrite length_take; lia).
    simpl. symmetry. apply take_drop.
  - destruct (lookup_lt_is_Some_2 l (lo + k)) as [x Hx]; [lia|].
    unfold move. rewrite Hx. rewrite store_lt by lia.
    rewrite IH by (rewrite length_insert; lia).
    rewrite !take_insert_ge by lia.
    rewrite drop_insert_ge by lia.
    replace (lo + S k - S (lo + k))%nat with 0%nat by lia.
    destruct (lookup_lt_is_Some_2 l (lo + S k)) as [y Hy]; [lia|].
    replace (S (lo + k)) with (lo + S k)%nat by lia.
    rewrite (drop_S l y (lo + S k) Hy). simpl.
    replace (lo + S k)%nat with (S (lo + k)) by lia.
    rewrite (take_S_r l (lo + k) x Hx).
    rewrite drop_app_le by (rewrite length_take; lia).
    rewrite <- !app_assoc. reflexivity.
Qed.

(** The loop of [hml_array_unshift] and [hml_array_insert] followed by
    the write of the new element: [val] ends up at [lo], in front of
    the elements that were at [lo] and beyond. *)
Lemma shift_right_store lo k l val :
  (lo + k = List.length l)%nat ->
  store (shift_right lo k l) lo val = take lo l ++ val :: drop lo l.
Proof.
  intros Hlen. destruct k as [|k]; simpl.
  - rewrite Nat.add_0_r in Hlen. subst lo.
    rewrite store_end, take_ge, drop_ge by lia. reflexivity.
  - destruct (lookup_lt_is_Some_2 l (lo + k)) as [x Hx]; [lia|].
    unfold move. rewrite Hx. rewrite Hlen, store_end.
    rewrite shift_right_inside by (rewrite length_app; simpl; lia).
    rewrite (take_app_le l [x] (S lo)) by lia.
    rewrite (take_app_le l [x] (lo + k)) by lia.
    replace (S (lo + k)) with (List.length l) by lia.
    rewrite drop_app_length.
    destruct (lookup_lt_is_Some_2 l lo) as [y Hy]; [lia|].
    rewrite (take_S_r l lo y Hy).
    rewrite <- app_assoc.
    assert (Hlo : List.length (take lo l) = lo) by (rewrite length_take; lia).
    rewrite store_lt by (rewrite length_app, Hlo; simpl; lia).
    rewrite insert_app_r_alt by lia.
    rewrite Hlo, Nat.sub_diag. simpl.
    f_equal. f_equal.
    rewrite <- (drop_take_drop l lo (lo + k)) by lia.
    f_equal. rewrite (drop_S l x (lo + k) Hx).
    rewrite (drop_ge l (S (lo + k))) by lia. reflexivity.
Qed.

(** *** Typed arrays *)

Lemma grow_if_needed_elements a : elements (grow_if_needed a) = elements a.
Proof. unfold grow_if_needed. destruct (length a >=? capacity a); reflexivity. Qed.

Lemma grow_if_needed_element_type a :
  element_type (grow_if_needed a) = element_type a.
Proof. unfold grow_if_needed. destruct (length a >=? capacity a); reflexivity. Qed.

Lemma pad_nulls_spec n :
  forall a,
    elements (pad_nulls n a) = elements a ++ replicate n hml_val_null
    /\ element_type (pad_nulls n a) = element_type a.
Proof.
  induction n as [|n IH]; intros a; simpl.
  - rewrite app_nil_r. split; reflexivity.
  - destruct (IH (mkHmlArray
                    (store (elements (grow_if_needed a))
                           (List.length (elements (grow_if_needed a))) hml_val_null)
                    (capacity (grow_if_needed a))
                    (element_type (grow_if_needed a)))) as [Hel Hty].
    rewrite Hel, Hty. simpl.
    rewrite store_end, grow_if_needed_elements, grow_if_needed_element_type.
    rewrite <- app_assoc. split; reflexivity.
Qed.

Lemma check_element_type_ok a val :
  type val = element_type a -> check_element_type a val = Ok tt.
Proof.
  intros H. unfold check_element_type.
  rewrite (bool_decide_eq_false_2 (type val <> element_type a)) by tauto.
  rewrite andb_false_r. reflexivity.
Qed.

Lemma check_element_type_mismatch a val :
  typed a -> type val <> element_type a ->
  check_element_type a val =
    Fatal (stderr_line
             "Type mismatch in typed array - expected element of specific type") 1.
Proof.
  intros Hty Hval. unfold check_element_type.
  rewrite !bool_decide_eq_true_2 by assumption. reflexivity.
Qed.

(** What the writes store when the check lets them through. *)
Lemma hml_array_push_elements a val :
  check_element_type a val = Ok tt ->
  exists cap,
    hml_array_push (hml_val_array a) val =
      Ok (mkHmlArray (elements a ++ [val]) cap (element_type a)).
Proof.
  intros Hc. unfold hml_array_push. simpl. rewrite Hc. simpl.
  rewrite store_end, grow_if_needed_elements, grow_if_needed_element_type.
  eexists. reflexivity.
Qed.

Lemma hml_array_unshift_elements a val :
  check_element_type a val = Ok tt ->
  exists cap,
    hml_array_unshift (hml_val_array a) val =
      Ok (mkHmlArray (val :: elements a) cap (element_type a)).
Proof.
  intros Hc. unfold hml_array_unshift. simpl. rewrite Hc. simpl.
  rewrite shift_right_store by reflexivity.
  rewrite grow_if_needed_elements, grow_if_needed_element_type.
  eexists. reflexivity.
Qed.

Lemma hml_array_insert_elements hml_to_i32 a index idx val :
  hml_to_i32 index = Ok idx ->
  check_element_type a val = Ok tt ->
  0 <= idx <= length a ->
  exists cap,
    hml_array_insert hml_to_i32 (hml_val_array a) index val =
      Ok (mkHmlArray (take (Z.to_nat idx) (elements a) ++ val
                        :: drop (Z.to_nat idx) (elements a))
                     cap (element_type a)).
Proof.
  intros Hidx Hc Hb. unfold hml_array_insert. simpl. rewrite Hidx. simpl.
  rewrite Hc. simpl.
  replace ((idx <? 0) || (idx >? length a)) with false
    by (symmetry; apply orb_false_iff; lia).
  rewrite grow_if_needed_elements, grow_if_needed_element_type.
  rewrite shift_right_store by (unfold length in Hb; lia).
  eexists. reflexivity.
Qed.

(** On a typed array whose elements all carry the tag, a push, an
    unshift, an insert, and an indexed write at an index up to the
    length either end with the type-mismatch fault or keep it so. *)
Lemma typed_write_rejects a val hml_to_i32 index idx :
  typed a -> type val <> element_type a ->
  hml_to_i32 index = Ok idx ->
  Forall (fun r : result HmlArray =>
            r = Fatal (stderr_line
                  "Type mismatch in typed array - expected element of specific type") 1)
         [hml_array_push (hml_val_array a) val;
          hml_array_unshift (hml_val_array a) val;
          hml_array_insert hml_to_i32 (hml_val_array a) index val;
          hml_array_set hml_to_i32 (hml_val_array a) index val].
Proof.
  intros Hty Hval Hidx.
  unfold hml_array_push, hml_array_unshift, hml_array_insert, hml_array_set.
  simpl. rewrite Hidx. simpl.
  rewrite check_element_type_mismatch by assumption.
  repeat constructor.
Qed.

Lemma typed_write_preserves a val :
  homogeneous a -> type val = element_type a ->
  (forall a', hml_array_push (hml_val_array a) val = Ok a' ->
              homogeneous a' /\ element_type a' = element_type a)
  /\ (forall a', hml_array_unshift (hml_val_array a) val = Ok a' ->
                 homogeneous a' /\ element_type a' = element_type a)
  /\ (forall hml_to_i32 index a',
        hml_array_insert hml_to_i32 (hml_val_array a) index val = Ok a' ->
        homogeneous a' /\ element_type a' = element_type a)
  /\ (forall hml_to_i32 index idx a',
        hml_to_i32 index = Ok idx -> idx <= length a ->
        hml_array_set hml_to_i32 (hml_val_array a) index val = Ok a' ->
        homogeneous a' /\ element_type a' = element_type a).
Proof.
  intros Hhom Hval. pose proof (check_element_type_ok a val Hval) as Hc.
  unfold homogeneous in *. split; [|split; [|split]].
  - intros a' Hok.
    destruct (hml_array_push_elements a val Hc) as (cap & Hp).
    rewrite Hp in Hok. injection Hok as <-. simpl. split; [|reflexivity].
    apply Forall_app. split; [assumption | repeat constructor; assumption].
  - intros a' Hok.
    destruct (hml_array_unshift_elements a val Hc) as (cap & Hp).
    rewrite Hp in Hok. injection Hok as <-. simpl. split; [|reflexivity].
    constructor; assumption.
  - intros to_i32 index a'. unfold hml_array_insert. simpl.
    destruct (to_i32 index) as [idx|]; simpl; [|discriminate].
    rewrite Hc. simpl.
    destruct ((idx <? 0) || (idx >? length a)) eqn:Hb; [discriminate|].
    apply orb_false_iff in Hb.
    rewrite shift_right_store
      by (rewrite grow_if_needed_elements; unfold length in Hb; lia).
    rewrite grow_if_needed_elements, grow_if_needed_element_type.
    intros Hok. injection Hok as <-. simpl. split; [|reflexivity].
    apply Forall_app. split; [apply Forall_take; assumption|].
    constructor; [assumption | apply Forall_drop; assumption].
  - intros to_i32 index idx a' Hidx Hle. unfold hml_array_set. simpl.
    rewrite Hidx. simpl. rewrite Hc. simpl.
    destruct (idx <? 0) eqn:Hneg; [discriminate|].
    destruct (pad_nulls_spec (Z.to_nat (idx + 1 - length a)) a) as [Hel Het].
    rewrite Hel, Het. intros Hok. injection Hok as <-. simpl.
    split; [|reflexivity].
    destruct (decide (idx = length a)) as [->|Hne].
    + replace (Z.to_nat (length a + 1 - length a)) with 1%nat by lia. simpl.
      replace (Z.to_nat (length a)) with (List.length (elements a))
        by (unfold length; lia).
      rewrite store_lt by (rewrite length_app; simpl; lia).
      rewrite insert_app_r_alt by reflexivity. rewrite Nat.sub_diag. simpl.
      apply Forall_app. split; [assumption | repeat constructor; assumption].
    + replace (Z.to_nat (idx + 1 - length a)) with 0%nat by lia.
      simpl. rewrite app_nil_r.
      rewrite store_lt by (unfold length in *; lia).
      apply Forall_insert; assumption.
Qed.

(** [hml_validate_typed_array] only tags an array whose elements all
    have the requested type. *)
Lemma hml_validate_typed_array_homogeneous a t a' :
  t <> HML_VAL_NULL ->
  hml_validate_typed_array (hml_val_array a) t = Ok a' ->
  element_type a' = t /\ homogeneous a'.
Proof.
  intros Ht. unfold hml_validate_typed_array. simpl.
  rewrite bool_decide_eq_false_2 by assumption.
  destruct (some_mismatch (elements a) t) eqn:Hm; [discriminate|].
  intros Hok. injection Hok as <-. split; [reflexivity|].
  unfold homogeneous. simpl. apply Forall_forall. intros v Hv.
  unfold some_mismatch in Hm.
  destruct (bool_decide (type v = t)) eqn:Hvt; [apply bool_decide_eq_true in Hvt; exact Hvt|].
  exfalso. apply Bool.not_true_iff_false in Hm. apply Hm.
  apply existsb_exists. exists v. split; [apply list_elem_of_In; exact Hv|].
  unfold hml_type_matches. rewrite bool_decide_eq_false_2 by assumption.
  rewrite Hvt. reflexivity.
Qed.

(** C2, where the code departs from it.  An indexed write past the end
    of a typed array, with a value of the array's element type,
    succeeds; the slots between the old end and the index are filled
    with null values, so the array is left with elements whose type is
    not its tag. *)
Theorem hml_array_set_pads_typed_array
    (hml_to_i32 : HmlValue -> result Z) (a : HmlArray) (index val : HmlValue)
    (idx : Z) :
  typed a ->
  type val = element_type a ->
  hml_to_i32 index = Ok idx ->
  length a < idx ->
  exists a',
    hml_array_set hml_to_i32 (hml_val_array a) index val = Ok a'
    /\ element_type a' = element_type a
    /\ elements a' =
         elements a ++ replicate (Z.to_nat (idx - length a)) hml_val_null ++ [val]
    /\ ~ homogeneous a'.
Proof.
  intros Hty Hval Hidx Hlt. unfold hml_array_set. simpl.
  rewrite Hidx. simpl. rewrite check_element_type_ok by assumption. simpl.
  assert (Hlen : 0 <= length a) by (unfold length; lia).
  replace (idx <? 0) with false by lia.
  eexists. split; [reflexivity|]. simpl.
  destruct (pad_nulls_spec (Z.to_nat (idx + 1 - length a)) a) as [Hel Het].
  rewrite Hel, Het.
  assert (Hst :
    store (elements a ++ replicate (Z.to_nat (idx + 1 - length a)) hml_val_null)
          (Z.to_nat idx) val =
    elements a ++ replicate (Z.to_nat (idx - length a)) hml_val_null ++ [val]).
  { replace (Z.to_nat (idx + 1 - length a)) with (S (Z.to_nat (idx - length a))) by lia.
    rewrite replicate_S_end, app_assoc.
    assert (Hi : Z.to_nat idx =
                 List.length (elements a ++
                              replicate (Z.to_nat (idx - length a)) hml_val_null)).
    { rewrite length_app, length_replicate. unfold length in *. lia. }
    rewrite store_lt by (rewrite length_app; simpl; lia).
    rewrite Hi. rewrite insert_app_r_alt by reflexivity.
    rewrite Nat.sub_diag. simpl. rewrite <- app_assoc. reflexivity. }
  rewrite Hst.
  split; [reflexivity|]. split; [reflexivity|].
  unfold homogeneous. simpl. intros Hall.
  assert (Hnull : (elements a ++ replicate (Z.to_nat (idx - length a)) hml_val_null ++ [val])
                    !! List.length (elements a) = Some hml_val_null).
  { rewrite lookup_app_r by reflexivity. rewrite Nat.sub_diag.
    rewrite lookup_app_l by (rewrite length_replicate; unfold length in *; lia).
    apply lookup_replicate_2. unfold length in *. lia. }
  apply (Forall_lookup_1 _ _ _ _ Hall) in Hnull. simpl in Hnull.
  apply Hty. symmetry. exact Hnull.
Qed.

Lemma hml_array_set_pads_typed_array_witness :
  exists a',
    hml_array_set i32_index (hml_val_array typed1) (hml_val_i32 3) (hml_val_i32 9) = Ok a'
    /\ element_type a' = HML_VAL_I32
    /\ elements a' = [hml_val_i32 1; hml_val_null; hml_val_null; hml_val_i32 9]
    /\ ~ homogeneous a'.
Proof.
  apply (hml_array_set_pads_typed_array i32_index typed1 (hml_val_i32 3) (hml_val_i32 9) 3).
  - discriminate.
  - reflexivity.
  - reflexivity.
  - reflexivity.
Defined.

End ArrayFacts.

(** ** Type inference *)

Section InferFacts.
Import Infer.

Lemma refines_narrows old type : refines old type = true <-> narrows old type.
Proof.
  destruct old as [ko eo], type as [kt et]. unfold narrows. simpl.
  destruct ko, kt; (split; [intros H; try discriminate H | intros H]);
    try reflexivity;
    first [ left; split; congruence
          | right; left; split; [reflexivity | auto]
          | right; right; split; [reflexivity | auto]
          | exfalso; intuition congruence ].
Qed.

(** C10.  [infer_meet] is idempotent, and the kind of a meet does not
    depend on the order of its arguments. *)
Theorem infer_meet_idempotent_commutative :
  (forall t, infer_meet t t = t)
  /\ (forall a b, kind (infer_meet a b) = kind (infer_meet b a)).
Proof.
  split.
  - intros t. unfold infer_meet. rewrite bool_decide_eq_true_2; reflexivity.
  - intros [ka ea] [kb eb]. destruct ka, kb; reflexivity.
Qed.

(** C6.  A number literal infers to [F64] when [is_float] is set;
    otherwise to [I32] when its integer value lies in
    [-2^31 .. 2^31 - 1], and to [I64] for every other integer value.
    Inferring a literal leaves the context as it is. *)
Theorem infer_number_literal (ctx : TypeInferContext) (int_value bits is_float : Z) :
  (is_float <> 0 ->
     infer_expr ctx (EXPR_NUMBER int_value bits is_float) = (ctx, infer_f64))
  /\ (is_float = 0 -> - 2 ^ 31 <= int_value <= 2 ^ 31 - 1 ->
      infer_expr ctx (EXPR_NUMBER int_value bits is_float) = (ctx, infer_i32))
  /\ (is_float = 0 -> int_value < - 2 ^ 31 \/ 2 ^ 31 - 1 < int_value ->
      infer_expr ctx (EXPR_NUMBER int_value bits is_float) = (ctx, infer_i64)).
Proof.
  simpl. unfold truthy. repeat split.
  - intros Hf. apply Z.eqb_neq in Hf. rewrite Hf. reflexivity.
  - intros -> [Hlo Hhi]. simpl.
    replace (int_value >=? -2147483648) with true by lia.
    replace (int_value <=? 2147483647) with true by lia. reflexivity.
  - intros -> Hout. simpl.
    destruct (int_value >=? -2147483648) eqn:Hlo; [|reflexivity].
    destruct (int_value <=? 2147483647) eqn:Hhi; [lia|reflexivity].
Qed.

Lemma infer_number_literal_witness :
  infer_expr type_infer_new (expr_number_int 7) = (type_infer_new, infer_i32)
  /\ infer_expr type_infer_new (EXPR_NUMBER 4294967296 0 0) = (type_infer_new, infer_i64)
  /\ infer_expr type_infer_new (expr_number_float 0) = (type_infer_new, infer_f64).
Proof.
  split; [|split].
  - apply (proj1 (proj2 (infer_number_literal type_infer_new 7 0 0))); [reflexivity|lia].
  - apply (proj2 (proj2 (infer_number_literal type_infer_new 4294967296 0 0)));
      [reflexivity|lia].
  - apply (proj1 (infer_number_literal type_infer_new 0 0 1)). discriminate.
Defined.

(** *** Assignment *)

Lemma refine_bindings_spec n V bs :
  match lookup_bindings n bs with
  | Some T =>
      exists bs',
        refine_bindings n V bs = Some (bs', refines T V) /\
        lookup_bindings n bs' = Some (if refines T V then V else T) /\
        (forall m, m <> n -> lookup_bindings m bs' = lookup_bindings m bs)
  | None => refine_bindings n V bs = None
  end.
Proof.
  induction bs as [|b next IH]; simpl; [reflexivity|].
  destruct (String.eqb_spec (tb_name b) n) as [Heq|Hne].
  - destruct (refines (tb_type b) V) eqn:Hr.
    + eexists; split; [reflexivity|]. simpl. rewrite Heq, String.eqb_refl.
      split; [reflexivity|]. intros m Hm.
      destruct (String.eqb_spec n m); [congruence | reflexivity].
    + eexists; split; [reflexivity|]. simpl.
      rewrite Heq, String.eqb_refl. split; [reflexivity|]. reflexivity.
  - destruct (lookup_bindings n next) as [T|].
    + destruct IH as (bs' & -> & Hl & Hother).
      eexists; split; [reflexivity|]. simpl.
      destruct (String.eqb_spec (tb_name b) n); [congruence|].
      split; [exact Hl|]. intros m Hm. rewrite Hother by assumption. reflexivity.
    + rewrite IH. reflexivity.
Qed.

Lemma refine_envs_spec n V envs :
  match lookup_envs n envs with
  | Some T =>
      exists envs',
        refine_envs n V envs = Some (envs', refines T V) /\
        lookup_envs n envs' = Some (if refines T V then V else T) /\
        (forall m, m <> n -> lookup_envs m envs' = lookup_envs m envs) /\
        List.length envs' = List.length envs
  | None => refine_envs n V envs = None
  end.
Proof.
  induction envs as [|env up IH]; simpl; [reflexivity|].
  pose proof (refine_bindings_spec n V env) as Hb.
  destruct (lookup_bindings n env) as [T|] eqn:Hlk.
  - destruct Hb as (env' & -> & Hl & Hother).
    eexists; split; [reflexivity|]. simpl. rewrite Hl.
    split; [reflexivity|]. split; [|reflexivity].
    intros m Hm. rewrite Hother by assumption. reflexivity.
  - rewrite Hb. destruct (lookup_envs n up) as [T|].
    + destruct IH as (up' & -> & Hl & Hother & Hlen).
      eexists; split; [reflexivity|]. simpl. rewrite Hlk.
      split; [exact Hl|]. split; [|congruence].
      intros m Hm. rewrite Hother by assumption. reflexivity.
    + rewrite IH. reflexivity.
Qed.

Lemma type_env_refine_length ctx n V :
  List.length (current_env (type_env_refine ctx n V)) = List.length (current_env ctx).
Proof.
  unfold type_env_refine. pose proof (refine_envs_spec n V (current_env ctx)) as Hs.
  destruct (lookup_envs n (current_env ctx)).
  - destruct Hs as (envs' & -> & _ & _ & Hlen). exact Hlen.
  - rewrite Hs. reflexivity.
Qed.

(** Inference of an expression never pushes or pops a scope. *)
Lemma infer_expr_depth e :
  forall ctx,
    List.length (current_env (fst (infer_expr ctx e))) = List.length (current_env ctx).
Proof.
  induction e; intros ctx; simpl; try reflexivity;
    repeat match goal with
           | IH : forall c, List.length (current_env (fst (infer_expr c ?x))) = _
             |- context [infer_expr ?c0 ?x] =>
               let H := fresh "Hd" in
               pose proof (IH c0) as H; clear IH;
               destruct (infer_expr c0 x) as [? ?]; simpl in H
           end; simpl;
    try rewrite type_env_refine_length; try congruence.
  - destruct (truthy is_float); [reflexivity|].
    destruct ((int_value >=? -2147483648) && (int_value <=? 2147483647)); reflexivity.
  - destruct func as [[]|]; reflexivity.
  - match goal with |- context [if ?b then _ else _] => destruct b end;
      simpl; congruence.
Qed.

(** C4, as the code has it.  Let the right-hand side of [n = value]
    infer to [V], and let [n] be bound with type [T] once that is done.
    Inferring the assignment yields [V].  The binding of [n] becomes [V]
    when [V] narrows [T] (from [UNKNOWN] to a known type, from [NUMERIC]
    to an integer type, from [INTEGER] to [I32] or [I64]), and the
    [changed] flag is raised; otherwise the binding stays [T].  No other
    name is affected. *)
Theorem infer_assign_refines (ctx : TypeInferContext) (n : string) (value : Expr)
    (ctx1 : TypeInferContext) (V T : InferredType) :
  infer_expr ctx value = (ctx1, V) ->
  lookup_envs n (current_env ctx1) = Some T ->
  exists ctx2,
    infer_expr ctx (EXPR_ASSIGN n value) = (ctx2, V)
    /\ (narrows T V -> type_env_lookup ctx2 n = V /\ changed ctx2 = 1)
    /\ (~ narrows T V -> type_env_lookup ctx2 n = T /\ changed ctx2 = changed ctx1)
    /\ (forall m, m <> n -> type_env_lookup ctx2 m = type_env_lookup ctx1 m).
Proof.
  intros Hv HT. simpl. rewrite Hv.
  eexists; split; [reflexivity|].
  unfold type_env_refine, type_env_lookup.
  pose proof (refine_envs_spec n V (current_env ctx1)) as Hs. rewrite HT in Hs.
  destruct Hs as (envs' & -> & Hl & Hother & _). simpl.
  pose proof (refines_narrows T V) as Hrn.
  destruct (refines T V); rewrite Hl; simpl.
  - split; [auto|]. split; [|intros m Hm; rewrite Hother by assumption; reflexivity].
    intros Hno. exfalso. apply Hno, Hrn. reflexivity.
  - split; [|split; [auto|intros m Hm; rewrite Hother by assumption; reflexivity]].
    intros Hn. apply Hrn in Hn. discriminate.
Qed.

Lemma infer_assign_refines_witness :
  exists ctx2,
    infer_expr (type_env_bind type_infer_new "x" infer_integer)
               (EXPR_ASSIGN "x" (expr_number_int 1)) = (ctx2, infer_i32)
    /\ (narrows infer_integer infer_i32 ->
        type_env_lookup ctx2 "x" = infer_i32 /\ changed ctx2 = 1)
    /\ (~ narrows infer_integer infer_i32 ->
        type_env_lookup ctx2 "x" = infer_integer /\ changed ctx2 = 0)
    /\ (forall m, m <> "x" ->
        type_env_lookup ctx2 m =
          type_env_lookup (type_env_bind type_infer_new "x" infer_integer) m).
Proof.
  apply (infer_assign_refines (type_env_bind type_infer_new "x" infer_integer) "x"
           (expr_number_int 1) (type_env_bind type_infer_new "x" infer_integer)
           infer_i32 infer_integer); reflexivity.
Defined.

(** C4 as stated fails: with [x] bound to [I32], inferring [x = "s"]
    yields [STRING] and leaves [x] at [I32], whereas the meet of [I32]
    and [STRING] is [UNKNOWN]. *)
Lemma infer_assign_meet_counterexample :
  lookup_envs "x" (current_env ctx_x_i32) = Some infer_i32
  /\ infer_expr ctx_x_i32 (EXPR_STRING "s") = (ctx_x_i32, infer_string)
  /\ snd (infer_expr ctx_x_i32 assign_x_string) = infer_string
  /\ type_env_lookup (fst (infer_expr ctx_x_i32 assign_x_string)) "x" = infer_i32
  /\ type_env_lookup (fst (infer_expr ctx_x_i32 assign_x_string)) "x"
     <> infer_meet infer_i32 infer_string.
Proof. repeat split; try reflexivity. discriminate. Qed.

(** *** Declarations *)

Lemma type_env_lookup_bind ctx n t :
  current_env ctx <> [] -> type_env_lookup (type_env_bind ctx n t) n = t.
Proof.
  unfold type_env_lookup, type_env_bind.
  destruct (current_env ctx) as [|env up]; [congruence|]. intros _.
  simpl. rewrite String.eqb_refl. reflexivity.
Qed.

(** C5, as the code has it.  After [let n: ty = value] or
    [const n: ty = value], [n] is bound to [I32], [I64], [BOOL] or
    [STRING] when [ty] is that type, and to [F64] when [ty] is [F32] or
    [F64], whatever the initializer infers to.  For every other
    annotation kind the annotation is passed over and [n] is bound to
    the type the initializer infers to ([UNKNOWN] without one). *)
Theorem infer_let_annotation (ctx : TypeInferContext) (n : string) (ty : Type_)
    (value : option Expr) (ctx1 : TypeInferContext) (init : InferredType)
    (stmt : Stmt) :
  current_env ctx <> [] ->
  infer_expr_opt ctx value = (ctx1, init) ->
  stmt = STMT_LET n (Some ty) value \/ stmt = STMT_CONST n (Some ty) value ->
  type_env_lookup (infer_stmt ctx stmt) n =
    match kind_of ty with
    | TYPE_I32 => infer_i32
    | TYPE_I64 => infer_i64
    | TYPE_F32 | TYPE_F64 => infer_f64
    | TYPE_BOOL => infer_bool
    | TYPE_STRING => infer_string
    | _ => init
    end.
Proof.
  intros Hne Hv Hstmt.
  assert (Hne1 : current_env ctx1 <> []).
  { destruct value as [e|]; simpl in Hv.
    - pose proof (infer_expr_depth e ctx) as Hd. rewrite Hv in Hd. simpl in Hd.
      destruct (current_env ctx1); [|discriminate].
      destruct (current_env ctx); [congruence|discriminate].
    - congruence. }
  destruct Hstmt as [-> | ->]; simpl; rewrite Hv;
    rewrite type_env_lookup_bind by assumption;
    unfold annotated_type; destruct (kind_of ty); reflexivity.
Qed.

Lemma infer_let_annotation_witness :
  type_env_lookup
    (infer_stmt type_infer_new
       (STMT_LET "f" (Some (type_new TYPE_F32)) (Some (expr_number_int 1)))) "f"
  = infer_f64.
Proof.
  apply (infer_let_annotation type_infer_new "f" (type_new TYPE_F32)
           (Some (expr_number_int 1)) type_infer_new infer_i32).
  - discriminate.
  - reflexivity.
  - left. reflexivity.
Defined.

(** C5 as stated fails: under the annotation [array] the bound type is
    the initializer's, [I32] for [1] and [STRING] for ["s"]; it is
    neither fixed by the annotation nor the array type. *)
Lemma infer_let_annotation_counterexample :
  type_env_lookup (infer_stmt type_infer_new let_x_array_number) "x" = infer_i32
  /\ type_env_lookup (infer_stmt type_infer_new let_x_array_string) "x" = infer_string
  /\ type_env_lookup (infer_stmt type_infer_new let_x_array_number) "x"
     <> type_env_lookup (infer_stmt type_infer_new let_x_array_string) "x"
  /\ kind (type_env_lookup (infer_stmt type_infer_new let_x_array_number) "x")
     <> INFER_ARRAY.
Proof. repeat split; try reflexivity; discriminate. Qed.

End InferFacts.

(** * Further properties *)

(** ** Environments: lookup, round trips, const, capacity *)

Section EnvMore.
Import Interp Env.

Lemma lookup_scope_hit name bs1 b bs2 :
  ~ declares name bs1 -> b_name b = name ->
  lookup_scope name (bs1 ++ b :: bs2) = Some b.
Proof.
  intros Hno Hb. unfold lookup_scope. rewrite find_slot_hit by assumption.
  apply list_lookup_middle. reflexivity.
Qed.

Lemma lookup_scope_miss name bs :
  ~ declares name bs -> lookup_scope name bs = None.
Proof. intros Hno. unfold lookup_scope. rewrite find_slot_miss by assumption. reflexivity. Qed.

(** A slot found by the search loop splits the scope around it. *)
Lemma find_slot_split name bs i :
  find_slot name bs = Some i ->
  exists bs1 b bs2,
    bs = bs1 ++ b :: bs2 /\ List.length bs1 = i /\ ~ declares name bs1 /\ b_name b = name.
Proof.
  revert i. induction bs as [|b0 rest IH]; simpl; intros i; [discriminate|].
  destruct (String.eqb_spec (b_name b0) name) as [Heq|Hne].
  - intros [= <-]. exists [], b0, rest. repeat split; try assumption.
    intros (b & Hin & _). inversion Hin.
  - destruct (find_slot name rest) as [j|]; [|discriminate].
    intros [= <-]. destruct (IH j eq_refl) as (bs1 & b & bs2 & -> & Hlen & Hno & Hb).
    exists (b0 :: bs1), b, bs2. simpl. repeat split; try congruence.
    rewrite declares_cons. tauto.
Qed.

Lemma lookup_scope_cases name bs :
  (exists bs1 b bs2, bs = bs1 ++ b :: bs2 /\ ~ declares name bs1 /\ b_name b = name
                     /\ lookup_scope name bs = Some b)
  \/ (~ declares name bs /\ lookup_scope name bs = None).
Proof.
  destruct (find_slot name bs) as [i|] eqn:Hf.
  - left. destruct (find_slot_split name bs i Hf) as (bs1 & b & bs2 & -> & _ & Hno & Hb).
    exists bs1, b, bs2. repeat split; try assumption. apply lookup_scope_hit; assumption.
  - right. apply find_slot_None in Hf. split; [assumption|].
    apply lookup_scope_miss. assumption.
Qed.

Lemma lookup_scope_name name bs b : lookup_scope name bs = Some b -> b_name b = name.
Proof.
  destruct (lookup_scope_cases name bs) as [(bs1 & b' & bs2 & _ & _ & Hb & ->)|[_ ->]];
    congruence.
Qed.

Lemma lookup_scope_other name m v bs1 b bs2 :
  b_name b = name -> m <> name ->
  lookup_scope m (bs1 ++ mkBinding name v (b_const b) :: bs2) =
  lookup_scope m (bs1 ++ b :: bs2).
Proof.
  intros Hb Hm. unfold lookup_scope.
  assert (Hfind : forall c, b_name c = name ->
            find_slot m (bs1 ++ c :: bs2) =
            match find_slot m bs1 with
            | Some i => Some i
            | None => option_map (fun j => (List.length bs1 + S j)%nat) (find_slot m bs2)
            end).
  { intros c Hc. induction bs1 as [|b1 rest IH]; simpl.
    - destruct (String.eqb_spec (b_name c) m); [congruence|].
      destruct (find_slot m bs2); reflexivity.
    - destruct (String.eqb (b_name b1) m); [reflexivity|]. rewrite IH.
      destruct (find_slot m rest); [reflexivity|].
      destruct (find_slot m bs2); reflexivity. }
  rewrite (Hfind b Hb), (Hfind (mkBinding name v (b_const b)) eq_refl).
  destruct (find_slot m bs1) as [i|] eqn:Hi.
  - destruct (find_slot_split m bs1 i Hi) as (l1 & c & l2 & -> & <- & _ & _).
    rewrite <- !app_assoc. simpl.
    rewrite !list_lookup_middle by reflexivity. reflexivity.
  - destruct (find_slot m bs2) as [j|]; [|reflexivity]. simpl.
    rewrite !lookup_app_r by lia.
    replace (List.length bs1 + S j - List.length bs1)%nat with (S j) by lia.
    reflexivity.
Qed.

Lemma lookup_scope_append m bs b :
  lookup_scope m (bs ++ [b]) =
  match lookup_scope m bs with
  | Some c => Some c
  | None => if String.eqb (b_name b) m then Some b else None
  end.
Proof.
  destruct (lookup_scope_cases m bs) as [(bs1 & c & bs2 & -> & Hno & Hc & ->)|[Hno ->]].
  - rewrite <- app_assoc. simpl. apply lookup_scope_hit; assumption.
  - destruct (String.eqb_spec (b_name b) m) as [Heq|Hne].
    + apply lookup_scope_hit; assumption.
    + apply lookup_scope_miss. intros (c & Hin & Hc).
      apply elem_of_app in Hin as [Hin|Hin].
      * apply Hno. exists c. split; assumption.
      * apply list_elem_of_singleton in Hin. congruence.
Qed.

(** [env_get] reads the binding the name resolves to. *)
Lemma env_get_lookup_chain name :
  forall env,
    env_get env name =
      match lookup_chain name (scopes env) with
      | Some b => Ok (b_value b)
      | None => runtime_error ("Undefined variable '" +:+ name +:+ "'")
      end.
Proof.
  fix IH 1. intros [s p]. simpl. unfold lookup_scope.
  destruct (find_slot name (bindings s)) as [i|] eqn:Hf.
  - destruct (find_slot_split name (bindings s) i Hf) as (bs1 & b & bs2 & -> & <- & _ & _).
    rewrite list_lookup_middle by reflexivity. reflexivity.
  - destruct p as [up|]; [apply IH | reflexivity].
Qed.

Lemma append_binding_fits s b : fits s -> fits (append_binding s b).
Proof.
  unfold fits, append_binding, env_grow, count. intros [Hpos Hle].
  destruct (Z.of_nat (List.length (bindings s)) >=? capacity s) eqn:Hfull; simpl;
    rewrite length_app; simpl; lia.
Qed.

Lemma append_binding_bindings s b : bindings (append_binding s b) = bindings s ++ [b].
Proof.
  unfold append_binding. destruct (count s >=? capacity s); reflexivity.
Qed.

(** A hit in one scope: the fault on a const slot, the overwritten slot
    otherwise. *)
Lemma assign_slot_lookup s i name value :
  find_slot name (bindings s) = Some i ->
  exists b,
    lookup_scope name (bindings s) = Some b /\
    if truthy (b_const b)
    then assign_slot s i name value =
           runtime_error ("Cannot assign to const variable '" +:+ name +:+ "'")
    else exists s',
           assign_slot s i name value = Ok s' /\
           lookup_scope name (bindings s') = Some (mkBinding name value (b_const b)) /\
           (forall m, m <> name ->
              lookup_scope m (bindings s') = lookup_scope m (bindings s)) /\
           (fits s -> fits s').
Proof.
  intros Hf. destruct s as [bs cap]. simpl in *.
  destruct (find_slot_split name bs i Hf) as (bs1 & b & bs2 & -> & <- & Hno & Hb).
  exists b. split; [apply lookup_scope_hit; assumption|].
  rewrite (assign_slot_hit _ bs1 b bs2 cap) by reflexivity.
  destruct (truthy (b_const b)); [reflexivity|].
  eexists. split; [reflexivity|]. simpl. rewrite Hb. split; [|split].
  - apply lookup_scope_hit; [assumption | reflexivity].
  - intros m Hm. apply lookup_scope_other; assumption.
  - unfold fits, count. simpl. rewrite !length_app. simpl. tauto.
Qed.

Lemma set_in_parents_lookup name value :
  forall up,
    match lookup_chain name (scopes up) with
    | Some b =>
        exists r, set_in_parents up name value = Some r /\
          if truthy (b_const b)
          then r = runtime_error ("Cannot assign to const variable '" +:+ name +:+ "'")
          else exists up',
                 r = Ok up' /\
                 lookup_chain name (scopes up') = Some (mkBinding name value (b_const b)) /\
                 (forall m, m <> name ->
                    lookup_chain m (scopes up') = lookup_chain m (scopes up)) /\
                 (Forall fits (scopes up) -> Forall fits (scopes up'))
    | None => set_in_parents up name value = None
    end.
Proof.
  fix IH 1. intros [s p]. simpl.
  destruct (find_slot name (bindings s)) as [i|] eqn:Hf.
  - destruct (assign_slot_lookup s i name value Hf) as (b & Hb & Hcase).
    rewrite Hb. eexists. split; [reflexivity|].
    destruct (truthy (b_const b)); [rewrite Hcase; reflexivity|].
    destruct Hcase as (s' & -> & Hn & Hother & Hfits). simpl.
    eexists. split; [reflexivity|]. simpl. rewrite Hn. split; [reflexivity|]. split.
    + intros m Hm. rewrite Hother by assumption. reflexivity.
    + intros Hall. apply Forall_cons in Hall as [Hs Hall].
      apply Forall_cons. split; [auto | assumption].
  - rewrite (lookup_scope_miss name (bindings s)) by (apply find_slot_None; assumption).
    destruct p as [up|]; [|reflexivity].
    specialize (IH up). destruct (lookup_chain name (scopes up)) as [b|].
    + destruct IH as (r & -> & Hcase). eexists. split; [reflexivity|].
      destruct (truthy (b_const b)); [rewrite Hcase; reflexivity|].
      destruct Hcase as (up' & -> & Hn & Hother & Hfits). simpl.
      eexists. split; [reflexivity|]. simpl.
      rewrite (lookup_scope_miss name (bindings s)) by (apply find_slot_None; assumption).
      split; [assumption|]. split.
      * intros m Hm. rewrite Hother by assumption. reflexivity.
      * intros Hall. apply Forall_cons in Hall as [Hs Hall].
        apply Forall_cons. split; [assumption | auto].
    + rewrite IH. reflexivity.
Qed.

(** [env_set] in terms of the binding the name resolves to. *)
Lemma env_set_lookup_chain env name value :
  match lookup_chain name (scopes env) with
  | Some b =>
      if truthy (b_const b)
      then env_set env name value =
             runtime_error ("Cannot assign to const variable '" +:+ name +:+ "'")
      else exists env',
             env_set env name value = Ok env' /\
             lookup_chain name (scopes env') = Some (mkBinding name value (b_const b)) /\
             (forall m, m <> name ->
                lookup_chain m (scopes env') = lookup_chain m (scopes env)) /\
             (Forall fits (scopes env) -> Forall fits (scopes env'))
  | None =>
      exists env',
        env_set env name value = Ok env' /\
        lookup_chain name (scopes env') = Some (mkBinding name value 0) /\
        (forall m, m <> name ->
           lookup_chain m (scopes env') = lookup_chain m (scopes env)) /\
        (Forall fits (scopes env) -> Forall fits (scopes env'))
  end.
Proof.
  destruct env as [s p]. unfold env_set. simpl.
  destruct (find_slot name (bindings s)) as [i|] eqn:Hf.
  - destruct (assign_slot_lookup s i name value Hf) as (b & Hb & Hcase).
    rewrite Hb. destruct (truthy (b_const b)); [rewrite Hcase; reflexivity|].
    destruct Hcase as (s' & -> & Hn & Hother & Hfits). simpl.
    eexists. split; [reflexivity|]. simpl. rewrite Hn. split; [reflexivity|]. split.
    + intros m Hm. rewrite Hother by assumption. reflexivity.
    + intros Hall. apply Forall_cons in Hall as [Hs Hall].
      apply Forall_cons. split; [auto | assumption].
  - assert (Hmiss : lookup_scope name (bindings s) = None)
      by (apply lookup_scope_miss, find_slot_None; assumption).
    rewrite Hmiss.
    assert (Himplicit :
      lookup_chain name (match p with Some up => scopes up | None => [] end) = None ->
      exists env',
        Ok (mkEnv (append_binding s (mkBinding name value 0)) p) = Ok env' /\
        lookup_chain name (scopes env') = Some (mkBinding name value 0) /\
        (forall m, m <> name ->
           lookup_chain m (scopes env') =
           match lookup_scope m (bindings s) with
           | Some b => Some b
           | None => lookup_chain m (match p with Some up => scopes up | None => [] end)
           end) /\
        (Forall fits (s :: match p with Some up => scopes up | None => [] end) ->
         Forall fits (scopes env'))).
    { intros Hup. eexists. split; [reflexivity|]. cbn [scopes lookup_chain].
      rewrite append_binding_bindings, !lookup_scope_append, Hmiss. cbn [b_name].
      rewrite String.eqb_refl. split; [reflexivity|]. split.
      - intros m Hm. rewrite lookup_scope_append. cbn [b_name].
        destruct (lookup_scope m (bindings s)); [reflexivity|].
        destruct (String.eqb_spec name m); [congruence | reflexivity].
      - intros Hall. apply Forall_cons in Hall as [Hs Hall].
        apply Forall_cons. split; [apply append_binding_fits; assumption | assumption]. }
    destruct p as [up|]; [|apply Himplicit; reflexivity].
    pose proof (set_in_parents_lookup name value up) as Hup.
    destruct (lookup_chain name (scopes up)) as [b|].
    + destruct Hup as (r & -> & Hcase).
      destruct (truthy (b_const b)); [rewrite Hcase; reflexivity|].
      destruct Hcase as (up' & -> & Hn & Hother & Hfits). simpl.
      eexists. split; [reflexivity|]. simpl. rewrite Hmiss.
      split; [assumption|]. split.
      * intros m Hm. rewrite Hother by assumption. reflexivity.
      * intros Hall. apply Forall_cons in Hall as [Hs Hall].
        apply Forall_cons. split; [assumption | auto].
    + rewrite Hup. apply Himplicit. reflexivity.
Qed.

Lemma lookup_chain_None name ss :
  lookup_chain name ss = None <-> Forall (fun s => ~ declares name (bindings s)) ss.
Proof.
  induction ss as [|s up IH]; simpl.
  - split; [constructor | reflexivity].
  - rewrite Forall_cons.
    destruct (lookup_scope_cases name (bindings s))
      as [(bs1 & b & bs2 & Hs & Hno & Hb & ->)|[Hno ->]].
    + split; [discriminate|]. intros [Hd _]. exfalso. apply Hd.
      rewrite Hs. exists b. split; [|assumption].
      apply elem_of_app. right. left.
    + rewrite IH. tauto.
Qed.

Lemma lookup_chain_hit name pre bs1 b bs2 cap post :
  Forall (fun s => ~ declares name (bindings s)) pre ->
  ~ declares name bs1 -> b_name b = name ->
  lookup_chain name (pre ++ mkScope (bs1 ++ b :: bs2) cap :: post) = Some b.
Proof.
  intros Hpre Hno Hb. induction pre as [|s pre IH]; simpl.
  - rewrite lookup_scope_hit by assumption. reflexivity.
  - apply Forall_cons in Hpre as [Hs Hpre].
    rewrite lookup_scope_miss by assumption. auto.
Qed.

(** X1.  [env_get] returns the value of the first binding called [n] in
    the innermost scope that declares [n], so an inner declaration
    shadows an outer one; it ends the process with
    [Undefined variable 'n'] and exit status 1 exactly when no scope of
    the chain declares [n]. *)
Theorem env_get_resolves (env : Environment) (n : string) :
  (forall pre bs1 b bs2 cap post,
      scopes env = pre ++ mkScope (bs1 ++ b :: bs2) cap :: post ->
      Forall (fun s => ~ declares n (bindings s)) pre ->
      ~ declares n bs1 ->
      b_name b = n ->
      env_get env n = Ok (b_value b))
  /\ (env_get env n = Fatal (stderr_line ("Undefined variable '" +:+ n +:+ "'")) 1
      <-> Forall (fun s => ~ declares n (bindings s)) (scopes env)).
Proof.
  rewrite env_get_lookup_chain. split.
  - intros pre bs1 b bs2 cap post -> Hpre Hno Hb.
    rewrite lookup_chain_hit by assumption. reflexivity.
  - rewrite <- lookup_chain_None.
    destruct (lookup_chain n (scopes env)); split; try discriminate; reflexivity.
Qed.

Lemma env_get_resolves_witness :
  env_get (mkEnv (mkScope [mkBinding "x" (val_int 9) 0] 16)
                 (Some (mkEnv demo_outer None))) "x" = Ok (val_int 9).
Proof.
  apply (proj1 (env_get_resolves
                  (mkEnv (mkScope [mkBinding "x" (val_int 9) 0] 16)
                         (Some (mkEnv demo_outer None))) "x")
           [] [] (mkBinding "x" (val_int 9) 0) [] 16 [demo_outer]).
  - reflexivity.
  - constructor.
  - apply find_slot_None. reflexivity.
  - reflexivity.
Defined.

(** X2.  A successful [env_define] of [n] makes [env_get] return the
    defined value for [n], also when an enclosing scope holds another
    [n], and leaves what [env_get] answers for every other name as it
    was. *)
Theorem env_define_then_get (env env' : Environment) (n : string) (v : Value) (c : Z) :
  env_define env n v c = Ok env' ->
  env_get env' n = Ok v
  /\ (forall m, m <> n -> env_get env' m = env_get env m).
Proof.
  unfold env_define. destruct env as [s p]. cbn [scope parent].
  destruct (find_slot n (bindings s)) as [i|] eqn:Hf; [discriminate|].
  intros [= <-]. rewrite !env_get_lookup_chain. cbn [scopes lookup_chain].
  rewrite append_binding_bindings, lookup_scope_append.
  rewrite (lookup_scope_miss n (bindings s)) by (apply find_slot_None; assumption).
  cbn [b_name]. rewrite String.eqb_refl. split; [reflexivity|].
  intros m Hm. rewrite !env_get_lookup_chain. cbn [scopes lookup_chain].
  rewrite append_binding_bindings, lookup_scope_append. cbn [b_name].
  destruct (lookup_scope m (bindings s)); [reflexivity|].
  destruct (String.eqb_spec n m); [congruence | reflexivity].
Qed.

Lemma env_define_then_get_witness :
  env_get (mkEnv (mkScope [mkBinding "y" (val_int 1) 1; mkBinding "x" (val_int 7) 1] 16)
                 (Some (mkEnv demo_outer None))) "x" = Ok (val_int 7)
  /\ (forall m, m <> "x" ->
        env_get (mkEnv (mkScope [mkBinding "y" (val_int 1) 1;
                                 mkBinding "x" (val_int 7) 1] 16)
                       (Some (mkEnv demo_outer None))) m
        = env_get demo_env m).
Proof.
  apply (env_define_then_get demo_env _ "x" (val_int 7) 1). reflexivity.
Defined.

(** X3.  A successful [env_set] of [n], whether it overwrote a binding
    of the current or of an enclosing scope or declared [n] implicitly,
    makes [env_get] return the assigned value for [n] and leaves what
    [env_get] answers for every other name as it was. *)
Theorem env_set_then_get (env env' : Environment) (n : string) (v : Value) :
  env_set env n v = Ok env' ->
  env_get env' n = Ok v
  /\ (forall m, m <> n -> env_get env' m = env_get env m).
Proof.
  intros Hset. pose proof (env_set_lookup_chain env n v) as Hs.
  assert (Hgoal : exists c,
            lookup_chain n (scopes env') = Some (mkBinding n v c) /\
            (forall m, m <> n -> lookup_chain m (scopes env') = lookup_chain m (scopes env))).
  { destruct (lookup_chain n (scopes env)) as [b|].
    - destruct (truthy (b_const b)); [rewrite Hs in Hset; discriminate|].
      destruct Hs as (e & He & Hn & Hother & _). rewrite He in Hset.
      injection Hset as <-. eauto.
    - destruct Hs as (e & He & Hn & Hother & _). rewrite He in Hset.
      injection Hset as <-. eauto. }
  destruct Hgoal as (c & Hn & Hother). split.
  - rewrite env_get_lookup_chain, Hn. reflexivity.
  - intros m Hm. rewrite !env_get_lookup_chain, Hother by assumption. reflexivity.
Qed.

Lemma env_set_then_get_witness :
  env_get (mkEnv demo_inner (Some (mkEnv (mkScope [mkBinding "x" (val_int 5) 0] 16) None)))
          "x" = Ok (val_int 5)
  /\ (forall m, m <> "x" ->
        env_get (mkEnv demo_inner
                       (Some (mkEnv (mkScope [mkBinding "x" (val_int 5) 0] 16) None))) m
        = env_get demo_env m).
Proof.
  apply (env_set_then_get demo_env _ "x" (val_int 5)). reflexivity.
Defined.

(** X4.  Const bindings are immutable: once [env_define] has declared
    [n] with a non-zero const flag, every [env_set] of [n], from that
    scope or from a fresh scope nested in it, ends the process with
    [Cannot assign to const variable 'n'] and exit status 1. *)
Theorem env_const_is_immutable (env env' : Environment) (n : string) (v w : Value)
    (c : Z) :
  env_define env n v c = Ok env' ->
  c <> 0 ->
  env_set env' n w =
    Fatal (stderr_line ("Cannot assign to const variable '" +:+ n +:+ "'")) 1
  /\ env_set (env_new (Some env')) n w =
       Fatal (stderr_line ("Cannot assign to const variable '" +:+ n +:+ "'")) 1.
Proof.
  intros Hdef Hc.
  assert (Hn : lookup_chain n (scopes env') = Some (mkBinding n v c)).
  { revert Hdef. unfold env_define. destruct env as [s p]. simpl.
    destruct (find_slot n (bindings s)) as [i|] eqn:Hf; [discriminate|].
    intros [= <-]. cbn [scopes lookup_chain].
    rewrite append_binding_bindings, lookup_scope_append.
    rewrite (lookup_scope_miss n (bindings s)) by (apply find_slot_None; assumption).
    cbn [b_name]. rewrite String.eqb_refl. reflexivity. }
  assert (Ht : truthy c = true) by (unfold truthy; apply negb_true_iff, Z.eqb_neq, Hc).
  split.
  - pose proof (env_set_lookup_chain env' n w) as Hs. rewrite Hn in Hs.
    simpl in Hs. rewrite Ht in Hs. exact Hs.
  - pose proof (env_set_lookup_chain (env_new (Some env')) n w) as Hs.
    simpl in Hs. unfold lookup_scope in Hs. simpl in Hs. rewrite Hn in Hs.
    simpl in Hs. rewrite Ht in Hs. exact Hs.
Qed.

Lemma env_const_is_immutable_witness :
  env_set (mkEnv (mkScope [mkBinding "k" (val_int 7) 1] 16) None) "k" (val_int 8) =
    Fatal (stderr_line "Cannot assign to const variable 'k'") 1
  /\ env_set (env_new (Some (mkEnv (mkScope [mkBinding "k" (val_int 7) 1] 16) None)))
             "k" (val_int 8) =
       Fatal (stderr_line "Cannot assign to const variable 'k'") 1.
Proof.
  apply (env_const_is_immutable (env_new None) _ "k" (val_int 7) (val_int 8) 1).
  - reflexivity.
  - discriminate.
Defined.

(** X5.  The growth policy keeps every scope inside its allocation: a
    scope made by [env_new] has room for its slots, and when every scope
    of a chain has a positive capacity that its slot count does not
    exceed, the same holds after a successful [env_define] or
    [env_set]. *)
Theorem env_capacity_invariant (env : Environment) (n : string) (v : Value) (c : Z) :
  Forall fits (scopes env) ->
  (forall p, fits (scope (env_new p)))
  /\ (forall env', env_define env n v c = Ok env' -> Forall fits (scopes env'))
  /\ (forall env', env_set env n v = Ok env' -> Forall fits (scopes env')).
Proof.
  intros Hall. split; [|split].
  - intros p. unfold fits, count. simpl. lia.
  - intros env'. unfold env_define. destruct env as [s p]. simpl in *.
    destruct (find_slot n (bindings s)); [discriminate|]. intros [= <-].
    cbn [scopes]. apply Forall_cons in Hall as [Hs Hall].
    apply Forall_cons. split; [apply append_binding_fits; assumption | assumption].
  - intros env' Hset. pose proof (env_set_lookup_chain env n v) as Hs.
    destruct (lookup_chain n (scopes env)) as [b|].
    + destruct (truthy (b_const b)); [rewrite Hs in Hset; discriminate|].
      destruct Hs as (e & He & _ & _ & Hfits). rewrite He in Hset.
      injection Hset as <-. auto.
    + destruct Hs as (e & He & _ & _ & Hfits). rewrite He in Hset.
      injection Hset as <-. auto.
Qed.

Lemma env_capacity_invariant_witness :
  (forall p, fits (scope (env_new p)))
  /\ (forall env', env_define demo_env "z" (val_int 3) 0 = Ok env' ->
                   Forall fits (scopes env'))
  /\ (forall env', env_set demo_env "z" (val_int 3) = Ok env' ->
                   Forall fits (scopes env')).
Proof.
  apply (env_capacity_invariant demo_env "z" (val_int 3) 0).
  repeat constructor; unfold count; simpl; lia.
Defined.

End EnvMore.

(** ** Interpreter arrays and strings *)

Section InterpMore.
Import Interp.

(** A push onto an array that fits returns unless the buffer is full
    and its doubled size is no [int]; the array it leaves fits again. *)
Lemma array_push_fits arr v arr' :
  fits arr ->
  array_push arr v = Some arr' ->
  elements arr' = elements arr ++ [v]
  /\ capacity arr <= capacity arr'
  /\ fits arr'.
Proof.
  unfold fits, array_push, array_grow, arr_length. intros [Hpos Hle].
  destruct (Z.geb_spec (Z.of_nat (List.length (elements arr))) (capacity arr))
    as [Hfull|Hfree]; simpl.
  - destruct (Z.leb_spec INT_MIN (capacity arr * 2)); simpl; [|discriminate].
    destruct (Z.leb_spec (capacity arr * 2) INT_MAX); simpl; [|discriminate].
    destruct (Z.ltb_spec (Z.of_nat (List.length (elements arr))) (capacity arr * 2));
      [|discriminate].
    intros [= <-]. simpl. rewrite length_app. simpl.
    split; [reflexivity|]. lia.
  - destruct (Z.ltb_spec (Z.of_nat (List.length (elements arr))) (capacity arr));
      [|discriminate].
    intros [= <-]. simpl. rewrite length_app. simpl.
    split; [reflexivity|]. lia.
Qed.

Lemma array_push_returns arr v :
  fits arr ->
  arr_length arr < capacity arr \/ 2 * capacity arr <= INT_MAX ->
  exists arr', array_push arr v = Some arr'.
Proof.
  unfold fits, array_push, array_grow, arr_length. intros [Hpos Hle] Hroom.
  assert (Hmin : INT_MIN <= 0) by (unfold INT_MIN; lia).
  destruct (Z.geb_spec (Z.of_nat (List.length (elements arr))) (capacity arr))
    as [Hfull|Hfree]; simpl.
  - destruct (Z.leb_spec INT_MIN (capacity arr * 2)); [|lia].
    destruct (Z.leb_spec (capacity arr * 2) INT_MAX); [|lia]. simpl.
    destruct (Z.ltb_spec (Z.of_nat (List.length (elements arr))) (capacity arr * 2));
      [|lia].
    eauto.
  - destruct (Z.ltb_spec (Z.of_nat (List.length (elements arr))) (capacity arr));
      [|lia].
    eauto.
Qed.

(** The padding loop, for an index [bound] whose double is an [int]. *)
Lemma interp_pad_nulls_returns n bound :
  forall arr,
    fits arr ->
    arr_length arr + Z.of_nat n <= bound + 1 ->
    2 * bound <= INT_MAX ->
    exists arr',
      pad_nulls n arr = Some arr'
      /\ elements arr' = elements arr ++ replicate n val_null
      /\ fits arr'.
Proof.
  induction n as [|n IH]; intros arr Hf Hn Hb; simpl.
  - exists arr. rewrite app_nil_r. auto.
  - destruct (array_push_returns arr val_null Hf) as [arr1 Hpush].
    { destruct Hf as [_ Hle]. lia. }
    rewrite Hpush. simpl.
    destruct (array_push_fits arr val_null arr1 Hf Hpush) as (Hel1 & _ & Hf1).
    destruct (IH arr1 Hf1) as (arr' & Hpad & Hel & Hf'); [|assumption|].
    + unfold arr_length in *. rewrite Hel1, length_app. simpl. lia.
    + exists arr'. split; [exact Hpad|]. split; [|exact Hf'].
      rewrite Hel, Hel1, <- app_assoc. reflexivity.
Qed.

Lemma interp_pad_nulls_fits n :
  forall arr arr', fits arr -> pad_nulls n arr = Some arr' -> fits arr'.
Proof.
  induction n as [|n IH]; intros arr arr' Hf; simpl.
  - intros [= <-]. exact Hf.
  - destruct (array_push arr val_null) as [arr1|] eqn:Hpush; simpl; [|discriminate].
    apply IH. apply (array_push_fits arr val_null arr1 Hf Hpush).
Qed.

(** Once the buffer is full and its doubled size is no [int], the loop
    has no defined outcome. *)
Lemma interp_pad_nulls_overflow n :
  forall arr,
    fits arr ->
    INT_MAX < 2 * capacity arr ->
    capacity arr - arr_length arr < Z.of_nat n ->
    pad_nulls n arr = None.
Proof.
  induction n as [|n IH]; intros arr Hf Hbig Hn.
  - destruct Hf as [_ Hle]. lia.
  - simpl. destruct (array_push arr val_null) as [arr1|] eqn:Hpush; simpl; [|reflexivity].
    destruct (array_push_fits arr val_null arr1 Hf Hpush) as (Hel1 & Hcap & Hf1).
    assert (Hsame : capacity arr1 = capacity arr /\ arr_length arr < capacity arr).
    { revert Hpush. unfold array_push, array_grow.
      destruct (Z.geb_spec (arr_length arr) (capacity arr)) as [Hfull|Hfree]; simpl.
      - destruct (Z.leb_spec (capacity arr * 2) INT_MAX); [lia|].
        rewrite andb_false_r. discriminate.
      - destruct (Z.ltb_spec (arr_length arr) (capacity arr)); [|discriminate].
        intros [= <-]. simpl. lia. }
    destruct Hsame as [Hsame Hroom].
    apply IH; [exact Hf1 | lia |].
    unfold arr_length in *. rewrite Hel1, length_app. simpl. lia.
Qed.

(** X6.  [array_set] refuses a negative index with
    [Negative array index not supported] and exit status 1.  On an
    array that fits its buffer, an index from [0] on whose double is an
    [int] succeeds, and afterwards [array_get] at that index returns the
    value written, the length is the larger of the old length and the
    index plus one, the other old elements read as before, and the
    slots between the old end and the index read as null.  An index at
    or past a capacity whose double is no [int] has no defined outcome:
    the loop comes to double that capacity. *)
Theorem array_set_then_get (arr : Array) (i : Z) (v : Value) :
  (i < 0 ->
     array_set arr i v =
       Some (Fatal (stderr_line "Negative array index not supported") 1))
  /\ (fits arr -> 0 <= i -> 2 * i <= INT_MAX ->
      exists arr',
        array_set arr i v = Some (Ok arr')
        /\ array_get arr' i = Ok v
        /\ arr_length arr' = Z.max (arr_length arr) (i + 1)
        /\ (forall j, 0 <= j < arr_length arr -> j <> i ->
              array_get arr' j = array_get arr j)
        /\ (forall j, arr_length arr <= j < i -> array_get arr' j = Ok val_null))
  /\ (fits arr -> INT_MAX < 2 * capacity arr -> capacity arr <= i ->
      array_set arr i v = None).
Proof.
  assert (Hnn : 0 <= arr_length arr) by (unfold arr_length; lia).
  split; [|split].
  - intros Hneg. unfold array_set. rewrite (proj2 (Z.ltb_lt i 0)) by lia. reflexivity.
  - intros Hf Hi Hint. unfold array_set. rewrite (proj2 (Z.ltb_ge i 0)) by lia.
    assert (Hpadded : exists arr1,
              pad_nulls (Z.to_nat (i + 1 - arr_length arr)) arr = Some arr1
              /\ elements arr1 =
                   elements arr ++
                   replicate (Z.to_nat (i + 1 - arr_length arr)) val_null
              /\ fits arr1).
    { destruct (Z.lt_ge_cases i (arr_length arr)) as [Hin|Hout].
      - replace (Z.to_nat (i + 1 - arr_length arr)) with 0%nat by lia.
        exists arr. simpl. rewrite app_nil_r. auto.
      - apply (interp_pad_nulls_returns _ i); [exact Hf | lia | lia]. }
    destruct Hpadded as (arr1 & Hpad & Hel1 & Hf1).
    rewrite Hpad. simpl. eexists. split; [reflexivity|].
    set (arr' := mkArray (<[Z.to_nat i := v]> (elements arr1)) (capacity arr1)).
    assert (Hel : elements arr' =
              <[Z.to_nat i := v]>
                (elements arr ++
                 replicate (Z.to_nat (i + 1 - arr_length arr)) val_null)).
    { subst arr'. simpl. rewrite Hel1. reflexivity. }
    assert (Hlen : arr_length arr' = Z.max (arr_length arr) (i + 1)).
    { unfold arr_length. rewrite Hel, length_insert, length_app, length_replicate.
      unfold arr_length. lia. }
    assert (Hget : forall j x,
              0 <= j < arr_length arr' ->
              elements arr' !! Z.to_nat j = Some x -> array_get arr' j = Ok x).
    { intros j x Hj Hx. unfold array_get.
      replace ((j <? 0) || (j >=? arr_length arr')) with false
        by (symmetry; apply orb_false_iff; lia).
      rewrite Hx. reflexivity. }
    split; [|split; [exact Hlen|split]].
    + apply Hget; [lia|]. rewrite Hel. apply list_lookup_insert_eq.
      rewrite length_app, length_replicate. unfold arr_length. lia.
    + intros j Hj Hne. unfold array_get at 2.
      replace ((j <? 0) || (j >=? arr_length arr)) with false
        by (symmetry; apply orb_false_iff; lia).
      destruct (lookup_lt_is_Some_2 (elements arr) (Z.to_nat j)) as [x Hx];
        [unfold arr_length in Hj; lia|].
      rewrite Hx. simpl. apply Hget; [lia|].
      rewrite Hel, list_lookup_insert_ne by lia.
      rewrite lookup_app_l by (unfold arr_length in Hj; lia). exact Hx.
    + intros j Hj.
      apply Hget; [lia|].
      rewrite Hel, list_lookup_insert_ne by lia.
      rewrite lookup_app_r by (unfold arr_length in Hj; lia).
      apply lookup_replicate_2. unfold arr_length in *. lia.
  - intros Hf Hbig Hi. unfold array_set.
    destruct Hf as [[Hpos Hmax] Hle].
    rewrite (proj2 (Z.ltb_ge i 0)) by lia.
    rewrite interp_pad_nulls_overflow; [reflexivity | repeat split; lia | lia | lia].
Qed.

Lemma array_set_then_get_witness :
  (exists arr',
     array_set xs12 4 (val_int 9) = Some (Ok arr')
     /\ array_get arr' 4 = Ok (val_int 9)
     /\ arr_length arr' = Z.max (arr_length xs12) (4 + 1)
     /\ (forall j, 0 <= j < arr_length xs12 -> j <> 4 ->
           array_get arr' j = array_get xs12 j)
     /\ (forall j, arr_length xs12 <= j < 4 -> array_get arr' j = Ok val_null))
  /\ array_set (mkArray [val_int 1] 1073741824) 1073741824 (val_int 9) = None.
Proof.
  split.
  - apply (proj1 (proj2 (array_set_then_get xs12 4 (val_int 9))));
      unfold fits, arr_length, INT_MAX; simpl; lia.
  - apply (proj2 (proj2 (array_set_then_get (mkArray [val_int 1] 1073741824)
                           1073741824 (val_int 9))));
      unfold fits, arr_length, INT_MAX; simpl; lia.
Defined.

(** X7.  The growth policy of the interpreter's arrays.  [array_new]
    allocates room for its (zero) elements.  On an array whose length
    does not exceed a capacity that is a positive [int], [array_push]
    returns unless the buffer is full and its doubled size is no [int],
    so always when the array has fewer than [2^30] elements; and
    whenever [array_push] or [array_set] returns, as after every
    [array_pop], the length is again within a capacity that is a
    positive [int]: no write lands outside the buffer. *)
Theorem array_capacity_invariant (arr : Array) (v : Value) :
  fits arr ->
  fits array_new
  /\ (2 * arr_length arr <= INT_MAX ->
      exists arr', array_push arr v = Some arr' /\ elements arr' = elements arr ++ [v])
  /\ (forall arr', array_push arr v = Some arr' -> fits arr')
  /\ fits (fst (array_pop arr))
  /\ (forall i arr', array_set arr i v = Some (Ok arr') -> fits arr').
Proof.
  intros Hf. split; [|split; [|split; [|split]]].
  - unfold fits, arr_length, INT_MAX. simpl. lia.
  - intros Hlen. destruct (array_push_returns arr v Hf) as [arr' Hpush].
    { destruct Hf as [_ Hle]. lia. }
    exists arr'. split; [exact Hpush|].
    apply (array_push_fits arr v arr' Hf Hpush).
  - intros arr' Hpush. apply (array_push_fits arr v arr' Hf Hpush).
  - unfold array_pop. destruct (arr_length arr =? 0) eqn:Hz; [exact Hf|].
    unfold fits, arr_length in *. simpl. rewrite length_take. lia.
  - intros i arr'. unfold array_set. destruct (i <? 0); [discriminate|].
    destruct (pad_nulls (Z.to_nat (i + 1 - arr_length arr)) arr) as [arr1|] eqn:Hpad;
      simpl; [|discriminate].
    intros [= <-].
    pose proof (interp_pad_nulls_fits _ arr arr1 Hf Hpad) as Hf1.
    unfold fits, arr_length in *. simpl. rewrite length_insert. exact Hf1.
Qed.

Lemma array_capacity_invariant_witness :
  fits array_new
  /\ (2 * arr_length xs12 <= INT_MAX ->
      exists arr', array_push xs12 (val_int 3) = Some arr'
                   /\ elements arr' = elements xs12 ++ [val_int 3])
  /\ (forall arr', array_push xs12 (val_int 3) = Some arr' -> fits arr')
  /\ fits (fst (array_pop xs12))
  /\ (forall i arr', array_set xs12 i (val_int 3) = Some (Ok arr') -> fits arr').
Proof.
  apply (array_capacity_invariant xs12 (val_int 3)).
  unfold fits, arr_length, INT_MAX. simpl. lia.
Defined.

(** *** Strings *)

Lemma list_ascii_length cstr :
  List.length (list_ascii_of_string cstr) = String.length cstr.
Proof. induction cstr as [|c cstr IH]; simpl; [reflexivity | f_equal; exact IH]. Qed.

Lemma list_ascii_append s t :
  list_ascii_of_string (s +:+ t) = list_ascii_of_string s ++ list_ascii_of_string t.
Proof. induction s as [|c s IH]; simpl; [reflexivity | f_equal; exact IH]. Qed.

Lemma string_length_append s t :
  String.length (s +:+ t) = (String.length s + String.length t)%nat.
Proof. induction s as [|c s IH]; simpl; [reflexivity | f_equal; exact IH]. Qed.

Lemma memcpy_all l n : n = Z.of_nat (List.length l) -> memcpy l n = l.
Proof. intros ->. unfold memcpy. rewrite Nat2Z.id. apply take_ge. lia. Qed.

Lemma terminated_length str :
  terminated str -> Z.of_nat (List.length (s_data str)) = s_length str + 1.
Proof.
  intros (Hnn & _ & Hdata). unfold contents in Hdata.
  apply (f_equal (@List.length ascii)) in Hdata.
  rewrite length_app, length_take in Hdata. simpl in Hdata. lia.
Qed.

Lemma terminated_intro chars len cap :
  len = Z.of_nat (List.length chars) -> len + 1 <= cap ->
  terminated (mkString (chars ++ [NUL]) len cap)
  /\ contents (mkString (chars ++ [NUL]) len cap) = chars.
Proof.
  intros -> Hcap.
  assert (Hc : contents (mkString (chars ++ [NUL]) (Z.of_nat (List.length chars)) cap)
               = chars).
  { unfold contents. simpl. rewrite Nat2Z.id. apply take_app_length. }
  split; [|exact Hc]. unfold terminated. rewrite Hc. simpl. repeat split; lia.
Qed.

Lemma memcpy_contents str : memcpy (s_data str) (s_length str) = contents str.
Proof. reflexivity. Qed.

Lemma contents_length str :
  terminated str -> Z.of_nat (List.length (contents str)) = s_length str.
Proof.
  intros Ht. pose proof (terminated_length str Ht) as Hlen.
  destruct Ht as (Hnn & _ & _). unfold contents. rewrite length_take. lia.
Qed.

Lemma string_new_terminated cstr : terminated (string_new cstr).
Proof.
  unfold string_new.
  rewrite memcpy_all by (rewrite list_ascii_length; reflexivity).
  apply terminated_intro; [rewrite list_ascii_length; reflexivity | lia].
Qed.





End InterpMore.

(** ** Runtime arrays: the remaining operations *)

Section RuntimeMore.
Import Runtime.

(** The copying loop appends the [k] elements of the source that start at
    its offset. *)
Lemma copy_loop_spec src src_off dst_off k :
  forall i dst,
    List.length dst = (dst_off + i)%nat ->
    (src_off + i + k <= List.length src)%nat ->
    copy_loop src src_off dst_off k i dst = dst ++ take k (drop (src_off + i) src).
Proof.
  induction k as [|k IH]; intros i dst Hdst Hsrc; simpl.
  - rewrite app_nil_r. reflexivity.
  - destruct (lookup_lt_is_Some_2 src (src_off + i)) as [x Hx]; [lia|].
    rewrite Hx, <- Hdst, store_end.
    rewrite IH by (rewrite ?length_app; simpl; lia).
    rewrite (drop_S src x (src_off + i) Hx). simpl.
    replace (src_off + S i)%nat with (S (src_off + i)) by lia.
    rewrite <- app_assoc. reflexivity.
Qed.


(** X11.  The only faults of [hml_array_slice] on an array are those of
    the coercion of its bounds, the start being coerced first.  When
    both bounds coerce to [int]s it succeeds, whatever they are: it
    clamps a negative start to [0] and an end past the length to the
    length, and returns a new, untyped array holding the elements from
    the clamped start up to, not including, the clamped end; none when
    the start is not below the end. *)
Theorem hml_array_slice_spec (hml_to_i32 : HmlValue -> result Z) (a : HmlArray)
    (start end_ : HmlValue) :
  (forall s e,
     hml_to_i32 start = Ok s ->
     hml_to_i32 end_ = Ok e ->
     exists cap,
       hml_array_slice hml_to_i32 (hml_val_array a) start end_ =
         Ok (mkHmlArray (drop (Z.to_nat (Z.max s 0))
                              (take (Z.to_nat (Z.min e (length a))) (elements a)))
                        cap HML_VAL_NULL)
       /\ 0 < cap
       /\ Z.max 0 (Z.min e (length a) - Z.max s 0) <= cap)
  /\ (forall msg code,
        hml_to_i32 start = Fatal msg code ->
        hml_array_slice hml_to_i32 (hml_val_array a) start end_ = Fatal msg code)
  /\ (forall s msg code,
        hml_to_i32 start = Ok s ->
        hml_to_i32 end_ = Fatal msg code ->
        hml_array_slice hml_to_i32 (hml_val_array a) start end_ = Fatal msg code).
Proof.
  split; [|split].
  - intros s e Hs He. unfold hml_array_slice. simpl. rewrite Hs. simpl.
    rewrite He. simpl.
    assert (Hlen : 0 <= length a) by (unfold length; lia).
    set (s1 := if s <? 0 then 0 else s).
    set (e1 := if e >? length a then length a else e).
    assert (Hs1 : s1 = Z.max s 0) by (subst s1; destruct (Z.ltb_spec s 0); lia).
    assert (He1 : e1 = Z.min e (length a))
      by (subst e1; destruct (e >? length a) eqn:H; lia).
    set (s2 := if s1 >? e1 then e1 else s1).
    eexists. split; [|split].
    + f_equal. f_equal. rewrite <- Hs1, <- He1.
      destruct (s1 >? e1) eqn:Hcmp.
      * subst s2. rewrite Z.sub_diag. simpl.
        symmetry. apply drop_ge. rewrite length_take. lia.
      * subst s2.
        rewrite copy_loop_spec; [|reflexivity|unfold length in *; lia].
        simpl. rewrite Nat.add_0_r, take_drop_commute. f_equal. f_equal. lia.
    + destruct (e1 - s2 >? 0) eqn:Hpos; lia.
    + rewrite <- Hs1, <- He1.
      destruct (e1 - s2 >? 0) eqn:Hpos; subst s2; destruct (s1 >? e1) eqn:Hcmp; lia.
  - intros msg code Hs. unfold hml_array_slice. simpl. rewrite Hs. reflexivity.
  - intros s msg code Hs He. unfold hml_array_slice. simpl. rewrite Hs. simpl.
    rewrite He. reflexivity.
Qed.

Lemma hml_array_slice_spec_witness :
  exists cap,
    hml_array_slice i32_index (hml_val_array Runtime.xs12)
                    (hml_val_i32 (-3)) (hml_val_i32 1) =
      Ok (mkHmlArray [hml_val_i32 1] cap HML_VAL_NULL)
    /\ 0 < cap
    /\ Z.max 0 (Z.min 1 (length Runtime.xs12) - Z.max (-3) 0) <= cap.
Proof.
  apply (proj1 (hml_array_slice_spec i32_index Runtime.xs12 (hml_val_i32 (-3))
                  (hml_val_i32 1)) (-3) 1); reflexivity.
Defined.

(** *** Reverse *)

Lemma reverse_loop_mirrored l k :
  forall i l',
    (2 * (i + k) <= List.length l)%nat ->
    mirrored l l' i ->
    mirrored l (reverse_loop k i l') (i + k).
Proof.
  induction k as [|k IH]; intros i l' Hk [Hlen Hm]; simpl.
  - rewrite Nat.add_0_r. split; assumption.
  - replace (i + S k)%nat with (S i + k)%nat by lia.
    apply IH; [lia|].
    destruct (lookup_lt_is_Some_2 l i) as [x Hx]; [lia|].
    destruct (lookup_lt_is_Some_2 l (List.length l - 1 - i)) as [y Hy]; [lia|].
    assert (Hi : l' !! i = Some x).
    { rewrite Hm by lia. destruct (decide _) as [H|H]; [lia | exact Hx]. }
    assert (Hj : l' !! (List.length l - 1 - i)%nat = Some y).
    { rewrite Hm by lia. destruct (decide _) as [H|H]; [lia | exact Hy]. }
    unfold swap. rewrite Hlen, Hi, Hj. split.
    + rewrite !length_insert. exact Hlen.
    + intros j Hjlt.
      destruct (decide (j = List.length l - 1 - i)%nat) as [->|Hne1].
      * rewrite list_lookup_insert_eq by (rewrite length_insert; lia).
        destruct (decide _) as [H|H]; [|lia].
        rewrite <- Hx. f_equal. lia.
      * rewrite list_lookup_insert_ne by lia.
        destruct (decide (j = i)) as [->|Hne2].
        -- rewrite list_lookup_insert_eq by lia.
           destruct (decide _) as [H|H]; [|lia]. symmetry. exact Hy.
        -- rewrite list_lookup_insert_ne by lia. rewrite Hm by lia.
           destruct (decide _) as [H|H]; destruct (decide _) as [H'|H'];
             try reflexivity; lia.
Qed.

Lemma reverse_loop_spec l :
  reverse_loop (Z.to_nat (Z.of_nat (List.length l) / 2)) 0 l = reverse l.
Proof.
  set (h := Z.to_nat (Z.of_nat (List.length l) / 2)).
  assert (Hh : (2 * h <= List.length l /\ List.length l <= 2 * h + 1)%nat).
  { subst h. pose proof (Z.div_mod (Z.of_nat (List.length l)) 2 ltac:(lia)) as Hd.
    pose proof (Z.mod_pos_bound (Z.of_nat (List.length l)) 2 ltac:(lia)) as Hb.
    assert (0 <= Z.of_nat (List.length l) / 2) by (apply Z.div_pos; lia). lia. }
  destruct (reverse_loop_mirrored l h 0 l) as [Hlen Hm]; [lia| |].
  { split; [reflexivity|]. intros j Hj. destruct (decide _) as [H|H]; [lia|reflexivity]. }
  apply list_eq. intros j. simpl in Hm.
  destruct (decide (j < List.length l)%nat) as [Hj|Hj].
  - rewrite Hm by assumption. rewrite reverse_lookup by assumption.
    destruct (decide _) as [H|H].
    + f_equal. lia.
    + f_equal. lia.
  - rewrite !lookup_ge_None_2; [reflexivity | rewrite length_reverse; lia | lia].
Qed.

(** X12.  [hml_array_reverse] reverses the elements in place, for arrays
    of even and of odd length, keeping capacity and element type; so
    reversing twice restores the array. *)
Theorem hml_array_reverse_spec (a : HmlArray) :
  hml_array_reverse (hml_val_array a) =
    Ok (mkHmlArray (reverse (elements a)) (capacity a) (element_type a))
  /\ (do a' <- hml_array_reverse (hml_val_array a);
      hml_array_reverse (hml_val_array a')) = Ok a.
Proof.
  assert (Hrev : forall b, hml_array_reverse (hml_val_array b) =
            Ok (mkHmlArray (reverse (elements b)) (capacity b) (element_type b))).
  { intros b. unfold hml_array_reverse, length. simpl.
    rewrite reverse_loop_spec. reflexivity. }
  split; [apply Hrev|]. rewrite Hrev. simpl. rewrite Hrev. simpl.
  rewrite reverse_involutive. destruct a; reflexivity.
Qed.

(** *** Remove, first, last, clear *)

Lemma hml_array_remove_elements hml_to_i32 a index idx :
  hml_to_i32 index = Ok idx ->
  0 <= idx < length a ->
  exists x,
    elements a !! Z.to_nat idx = Some x /\
    hml_array_remove hml_to_i32 (hml_val_array a) index =
      Ok (mkHmlArray (take (Z.to_nat idx) (elements a)
                      ++ drop (S (Z.to_nat idx)) (elements a))
                     (capacity a) (element_type a), x).
Proof.
  intros Hidx Hb. unfold hml_array_remove. simpl. rewrite Hidx. simpl.
  rewrite bounds_check_false by assumption.
  destruct (lookup_lt_is_Some_2 (elements a) (Z.to_nat idx)) as [x Hx];
    [unfold length in Hb; lia|].
  exists x. split; [exact Hx|]. rewrite Hx. simpl.
  rewrite shift_left_spec by (unfold length in Hb; lia).
  f_equal. f_equal. f_equal.
  rewrite !app_assoc. apply take_app_length'.
  rewrite length_app, length_take, length_drop. unfold length in Hb. lia.
Qed.

(** X13.  [hml_array_remove] at an index inside the array returns the
    element at that index and closes the gap, leaving the elements
    before and after it in order; at any other index it ends the process
    with [remove index i out of bounds (length n)] and exit status 1. *)
Theorem hml_array_remove_spec (hml_to_i32 : HmlValue -> result Z) (a : HmlArray)
    (index : HmlValue) (idx : Z) :
  hml_to_i32 index = Ok idx ->
  (0 <= idx < length a ->
     exists x,
       elements a !! Z.to_nat idx = Some x /\
       hml_array_remove hml_to_i32 (hml_val_array a) index =
         Ok (mkHmlArray (take (Z.to_nat idx) (elements a)
                         ++ drop (S (Z.to_nat idx)) (elements a))
                        (capacity a) (element_type a), x))
  /\ (~ (0 <= idx < length a) ->
      hml_array_remove hml_to_i32 (hml_val_array a) index =
        Fatal (stderr_line ("remove index " +:+ fmt_d idx +:+ " out of bounds (length "
                            +:+ fmt_d (length a) +:+ ")")) 1).
Proof.
  intros Hidx. split.
  - apply hml_array_remove_elements. exact Hidx.
  - intros Hout. unfold hml_array_remove. simpl. rewrite Hidx. simpl.
    rewrite bounds_check_true by assumption. reflexivity.
Qed.

Lemma hml_array_remove_spec_witness :
  (0 <= 0 < length Runtime.xs12 ->
     exists x,
       elements Runtime.xs12 !! Z.to_nat 0 = Some x /\
       hml_array_remove i32_index (hml_val_array Runtime.xs12) (hml_val_i32 0) =
         Ok (mkHmlArray (take (Z.to_nat 0) (elements Runtime.xs12)
                         ++ drop (S (Z.to_nat 0)) (elements Runtime.xs12))
                        (capacity Runtime.xs12) (element_type Runtime.xs12), x))
  /\ (~ (0 <= 0 < length Runtime.xs12) ->
      hml_array_remove i32_index (hml_val_array Runtime.xs12) (hml_val_i32 0) =
        Fatal (stderr_line ("remove index " +:+ fmt_d 0 +:+ " out of bounds (length "
                            +:+ fmt_d (length Runtime.xs12) +:+ ")")) 1).
Proof.
  apply (hml_array_remove_spec i32_index Runtime.xs12 (hml_val_i32 0) 0). reflexivity.
Defined.

Lemma admits_check a val : admits a val -> check_element_type a val = Ok tt.
Proof.
  intros [Hnull|Hty]; unfold check_element_type.
  - rewrite (bool_decide_eq_false_2 (element_type a <> HML_VAL_NULL)) by tauto.
    reflexivity.
  - apply check_element_type_ok. exact Hty.
Qed.



Lemma find_loop_spec (hml_values_equal : HmlValue -> HmlValue -> Z) val l :
  forall i,
    (find_loop hml_values_equal l val i = -1
     /\ Forall (fun x => hml_values_equal x val = 0) l)
    \/ (exists k x,
          find_loop hml_values_equal l val i = i + Z.of_nat k
          /\ l !! k = Some x
          /\ hml_values_equal x val <> 0
          /\ Forall (fun y => hml_values_equal y val = 0) (take k l)).
Proof.
  induction l as [|x rest IH]; intros i; simpl.
  - left. split; [reflexivity | constructor].
  - unfold truthy. destruct (Z.eqb_spec (hml_values_equal x val) 0) as [Heq|Hne]; simpl.
    + destruct (IH (i + 1)) as [[Hr Hall]|(k & y & Hr & Hk & Hy & Hall)].
      * left. split; [exact Hr | constructor; assumption].
      * right. exists (S k), y. simpl. repeat split; try assumption; [lia|].
        constructor; assumption.
    + right. exists 0%nat, x. simpl. repeat split; [lia | assumption | constructor].
Qed.

(** X15.  [hml_array_find] returns the index of the first element that
    [hml_values_equal] accepts, every element before it being rejected,
    and [-1] when every element is rejected; [hml_array_contains]
    answers true exactly when [hml_array_find] finds an index. *)
Theorem hml_array_find_spec (hml_values_equal : HmlValue -> HmlValue -> Z)
    (a : HmlArray) (val : HmlValue) :
  exists r,
    hml_array_find hml_values_equal (hml_val_array a) val = Ok (hml_val_i32 r)
    /\ ((r = -1 /\ Forall (fun x => hml_values_equal x val = 0) (elements a))
        \/ (0 <= r < length a /\
            exists x, elements a !! Z.to_nat r = Some x
                      /\ hml_values_equal x val <> 0
                      /\ Forall (fun y => hml_values_equal y val = 0)
                                (take (Z.to_nat r) (elements a))))
    /\ hml_array_contains hml_values_equal (hml_val_array a) val =
         Ok (hml_val_bool (if r >=? 0 then 1 else 0)).
Proof.
  unfold hml_array_contains, hml_array_find. simpl.
  eexists. split; [reflexivity|]. split; [|reflexivity].
  destruct (find_loop_spec hml_values_equal val (elements a) 0)
    as [[Hr Hall]|(k & x & Hr & Hk & Hx & Hall)].
  - left. split; assumption.
  - right. rewrite Z.add_0_l in Hr. rewrite Hr, Nat2Z.id.
    apply lookup_lt_Some in Hk as Hlt. split; [unfold length; lia|].
    exists x. repeat split; assumption.
Qed.

(** X16.  [hml_array_first] and [hml_array_last] return the null value
    on an empty array, without a fault, and the element at index [0]
    and at index [length - 1] otherwise; after a successful push the
    last element is the pushed value, and after a successful unshift
    the first element is the unshifted value. *)
Theorem hml_array_first_last_spec (a : HmlArray) :
  (elements a = [] ->
     hml_array_first (hml_val_array a) = Ok hml_val_null
     /\ hml_array_last (hml_val_array a) = Ok hml_val_null)
  /\ (forall x l, elements a = x :: l -> hml_array_first (hml_val_array a) = Ok x)
  /\ (forall l x, elements a = l ++ [x] -> hml_array_last (hml_val_array a) = Ok x)
  /\ (forall val a', hml_array_push (hml_val_array a) val = Ok a' ->
        hml_array_last (hml_val_array a') = Ok val)
  /\ (forall val a', hml_array_unshift (hml_val_array a) val = Ok a' ->
        hml_array_first (hml_val_array a') = Ok val).
Proof.
  assert (Hlast : forall b l x, elements b = l ++ [x] ->
            hml_array_last (hml_val_array b) = Ok x).
  { intros b l x Hb. unfold hml_array_last, length. simpl. rewrite Hb, length_app. simpl.
    rewrite (proj2 (Z.eqb_neq _ 0)) by lia.
    replace (Z.to_nat (Z.of_nat (List.length l + 1) - 1)) with (List.length l) by lia.
    rewrite list_lookup_middle by reflexivity. reflexivity. }
  assert (Hfirst : forall b x l, elements b = x :: l ->
            hml_array_first (hml_val_array b) = Ok x).
  { intros b x l Hb. unfold hml_array_first, length. simpl. rewrite Hb.
    cbn [List.length]. rewrite (proj2 (Z.eqb_neq _ 0)) by lia. reflexivity. }
  split; [|split; [|split; [|split]]].
  - intros He. unfold hml_array_first, hml_array_last, length. simpl. rewrite He.
    split; reflexivity.
  - apply Hfirst.
  - apply Hlast.
  - intros val a'. unfold hml_array_push. simpl.
    destruct (check_element_type a val) as [[]|]; simpl; [|discriminate].
    rewrite store_end, grow_if_needed_elements. intros [= <-].
    apply (Hlast _ (elements a) val). reflexivity.
  - intros val a'. unfold hml_array_unshift. simpl.
    destruct (check_element_type a val) as [[]|]; simpl; [|discriminate].
    rewrite shift_right_store by reflexivity. rewrite grow_if_needed_elements.
    intros [= <-]. apply (Hfirst _ val (elements a)). reflexivity.
Qed.

Lemma hml_array_first_last_spec_witness :
  hml_array_first (hml_val_array Runtime.xs12) = Ok (hml_val_i32 1)
  /\ hml_array_last (hml_val_array Runtime.xs12) = Ok (hml_val_i32 2).
Proof.
  split.
  - apply (proj1 (proj2 (hml_array_first_last_spec Runtime.xs12))
             (hml_val_i32 1) [hml_val_i32 2]). reflexivity.
  - apply (proj1 (proj2 (proj2 (hml_array_first_last_spec Runtime.xs12)))
             [hml_val_i32 1] (hml_val_i32 2)). reflexivity.
Defined.

(** *** Typed arrays, indexed writes and capacity *)

Lemma grow_if_needed_room a :
  fits a -> length (grow_if_needed a) + 1 <= capacity (grow_if_needed a).
Proof.
  unfold fits, grow_if_needed, length. intros Hf.
  destruct (Z.of_nat (List.length (elements a)) >=? capacity a) eqn:Hfull; simpl; [|lia].
  destruct (Z.eqb_spec (capacity a) 0); lia.
Qed.

Lemma pad_nulls_fits n : forall a, fits a -> fits (pad_nulls n a).
Proof.
  induction n as [|n IH]; intros a Hf; simpl; [exact Hf|].
  apply IH. pose proof (grow_if_needed_room a Hf) as Hroom.
  unfold fits, length in *. simpl. rewrite store_end, length_app. simpl. lia.
Qed.

(** What a successful indexed write leaves in the array. *)
Lemma hml_array_set_elements hml_to_i32 a index idx val :
  hml_to_i32 index = Ok idx ->
  check_element_type a val = Ok tt ->
  0 <= idx ->
  exists cap,
    hml_array_set hml_to_i32 (hml_val_array a) index val =
      Ok (mkHmlArray
            (<[Z.to_nat idx := val]>
               (elements a ++ replicate (Z.to_nat (idx + 1 - length a)) hml_val_null))
            cap (element_type a))
    /\ (fits a -> Z.max (length a) (idx + 1) <= cap).
Proof.
  intros Hidx Hc Hnn. unfold hml_array_set. simpl. rewrite Hidx. simpl. rewrite Hc. simpl.
  rewrite (proj2 (Z.ltb_ge idx 0)) by lia.
  destruct (pad_nulls_spec (Z.to_nat (idx + 1 - length a)) a) as [Hel Het].
  rewrite Hel, Het.
  rewrite store_lt by (rewrite length_app, length_replicate; unfold length; lia).
  eexists. split; [reflexivity|].
  intros Hf. pose proof (pad_nulls_fits (Z.to_nat (idx + 1 - length a)) a Hf) as Hp.
  unfold fits in Hp. unfold length at 1 in Hp.
  rewrite Hel, length_app, length_replicate in Hp.
  unfold length in *. lia.
Qed.

(** The growth step and the padding loop keep the capacity an [int] as
    long as the array stays below [2^30] elements. *)
Lemma grow_if_needed_int a :
  0 <= capacity a <= INT_MAX ->
  2 * length a <= INT_MAX ->
  capacity a <= capacity (grow_if_needed a) <= INT_MAX.
Proof.
  unfold grow_if_needed, INT_MAX. intros Hcap Hlen.
  destruct (Z.geb_spec (length a) (capacity a)); simpl; [|lia].
  destruct (Z.eqb_spec (capacity a) 0); lia.
Qed.

Lemma pad_nulls_int n bound :
  forall a,
    0 <= capacity a <= INT_MAX ->
    length a + Z.of_nat n <= bound + 1 ->
    2 * bound <= INT_MAX ->
    capacity a <= capacity (pad_nulls n a) <= INT_MAX.
Proof.
  induction n as [|n IH]; intros a Hcap Hn Hb; simpl; [lia|].
  pose proof (grow_if_needed_int a Hcap ltac:(lia)) as Hgrow.
  match goal with
  | |- _ <= capacity (pad_nulls n ?a1) <= _ =>
      assert (Hstep : capacity a <= capacity (pad_nulls n a1) <= INT_MAX);
        [|exact Hstep];
      assert (Hrec : capacity a1 <= capacity (pad_nulls n a1) <= INT_MAX);
        [apply IH|simpl in Hrec; lia]
  end.
  - simpl. lia.
  - unfold length in *. simpl. rewrite store_end, length_app.
    rewrite grow_if_needed_elements. simpl. lia.
  - exact Hb.
Qed.

Lemma hml_array_set_int hml_to_i32 a index idx val a' :
  hml_to_i32 index = Ok idx ->
  2 * idx <= INT_MAX ->
  0 <= capacity a <= INT_MAX ->
  hml_array_set hml_to_i32 (hml_val_array a) index val = Ok a' ->
  capacity a <= capacity a' <= INT_MAX.
Proof.
  intros Hidx Hint Hcap. unfold hml_array_set. simpl. rewrite Hidx. simpl.
  destruct (check_element_type a val) as [[]|]; simpl; [|discriminate].
  destruct (Z.ltb_spec idx 0) as [Hneg|Hnn]; [discriminate|].
  intros [= <-]. simpl.
  destruct (Z.lt_ge_cases idx (length a)) as [Hin|Hout].
  - replace (Z.to_nat (idx + 1 - length a)) with 0%nat by lia. simpl. lia.
  - apply (pad_nulls_int _ idx); [exact Hcap | lia | exact Hint].
Qed.

(** X17.  An indexed write to an array that admits the value: a negative
    index ends the process with [Negative array index not supported] and
    exit status 1.  On an array whose length does not exceed a capacity
    that is an [int], every index from [0] on whose double is an [int]
    succeeds, every capacity that the loop computes being an [int]
    again, and afterwards
    [hml_array_get] at that index returns the value written, the length
    is the larger of the old length and the index plus one, and the
    other old elements read as before. *)
Theorem hml_array_set_then_get (hml_to_i32 : HmlValue -> result Z) (a : HmlArray)
    (index val : HmlValue) (idx : Z) :
  hml_to_i32 index = Ok idx ->
  admits a val ->
  (idx < 0 ->
     hml_array_set hml_to_i32 (hml_val_array a) index val =
       Fatal (stderr_line "Negative array index not supported") 1)
  /\ (0 <= idx -> 2 * idx <= INT_MAX -> int_sized a ->
      exists a',
        hml_array_set hml_to_i32 (hml_val_array a) index val = Ok a'
        /\ capacity a <= capacity a' <= INT_MAX
        /\ hml_array_get hml_to_i32 (hml_val_array a') index = Ok val
        /\ length a' = Z.max (length a) (idx + 1)
        /\ element_type a' = element_type a
        /\ (forall j x, (j < List.length (elements a))%nat -> j <> Z.to_nat idx ->
              elements a !! j = Some x -> elements a' !! j = Some x)).
Proof.
  intros Hidx Hadm. pose proof (admits_check a val Hadm) as Hc. split.
  - intros Hneg. unfold hml_array_set. simpl. rewrite Hidx. simpl. rewrite Hc. simpl.
    rewrite (proj2 (Z.ltb_lt idx 0)) by lia. reflexivity.
  - intros Hnn Hint [Hfit Hmax].
    assert (Hcap : 0 <= capacity a <= INT_MAX) by (unfold length in Hfit; lia).
    destruct (hml_array_set_elements hml_to_i32 a index idx val Hidx Hc Hnn)
      as (cap & Hset & _).
    eexists. split; [exact Hset|].
    assert (Hlen : List.length
                     (<[Z.to_nat idx := val]>
                        (elements a ++
                         replicate (Z.to_nat (idx + 1 - length a)) hml_val_null))
                   = Z.to_nat (Z.max (length a) (idx + 1))).
    { rewrite length_insert, length_app, length_replicate. unfold length. lia. }
    split; [|split; [|split; [|split]]].
    + apply (hml_array_set_int hml_to_i32 a index idx val _ Hidx Hint Hcap Hset).
    + unfold hml_array_get. simpl. rewrite Hidx. simpl.
      rewrite bounds_check_false by (unfold length in *; simpl; lia).
      rewrite list_lookup_insert_eq
        by (rewrite length_app, length_replicate; unfold length; lia).
      reflexivity.
    + unfold length in *. simpl. lia.
    + reflexivity.
    + intros j x Hj Hne Hx. simpl. rewrite list_lookup_insert_ne by lia.
      rewrite lookup_app_l by assumption. exact Hx.
Qed.

Lemma hml_array_set_then_get_witness :
  exists a',
    hml_array_set i32_index (hml_val_array Runtime.xs12) (hml_val_i32 4) (hml_val_i32 7)
      = Ok a'
    /\ capacity Runtime.xs12 <= capacity a' <= INT_MAX
    /\ hml_array_get i32_index (hml_val_array a') (hml_val_i32 4) = Ok (hml_val_i32 7)
    /\ length a' = Z.max (length Runtime.xs12) (4 + 1)
    /\ element_type a' = element_type Runtime.xs12
    /\ (forall j x, (j < List.length (elements Runtime.xs12))%nat -> j <> Z.to_nat 4 ->
          elements Runtime.xs12 !! j = Some x -> elements a' !! j = Some x).
Proof.
  apply (proj2 (hml_array_set_then_get i32_index Runtime.xs12 (hml_val_i32 4)
                  (hml_val_i32 7) 4 eq_refl (or_introl eq_refl)));
    unfold int_sized, length, INT_MAX; simpl; lia.
Defined.



(** X19.  The growth policy of the runtime arrays.  An array whose
    length does not exceed a capacity that is an [int], and that holds
    fewer than [2^30] elements, is left that way by every successful
    push, unshift and insert, from a capacity of zero on, and by every
    successful indexed write at an index whose double is an [int],
    however far past the end; removals keep it as well.  Within these
    sizes no doubling of the capacity leaves the range of [int]. *)
Theorem hml_array_capacity_invariant (hml_to_i32 : HmlValue -> result Z)
    (a : HmlArray) (index val : HmlValue) :
  int_sized a ->
  2 * length a <= INT_MAX ->
  (forall a', hml_array_push (hml_val_array a) val = Ok a' -> int_sized a')
  /\ (forall a', hml_array_unshift (hml_val_array a) val = Ok a' -> int_sized a')
  /\ (forall a', hml_array_insert hml_to_i32 (hml_val_array a) index val = Ok a' ->
                 int_sized a')
  /\ (forall idx a',
        hml_to_i32 index = Ok idx -> 2 * idx <= INT_MAX ->
        hml_array_set hml_to_i32 (hml_val_array a) index val = Ok a' -> int_sized a')
  /\ (forall a' x, hml_array_pop (hml_val_array a) = Ok (a', x) -> int_sized a')
  /\ (forall a' x, hml_array_shift (hml_val_array a) = Ok (a', x) -> int_sized a')
  /\ (forall a' x, hml_array_remove hml_to_i32 (hml_val_array a) index = Ok (a', x) ->
                   int_sized a').
Proof.
  intros [Hf Hmax] Hsmall.
  assert (Hnn : 0 <= length a) by (unfold length; lia).
  pose proof (grow_if_needed_room a Hf) as Hroom.
  pose proof (grow_if_needed_int a ltac:(lia) Hsmall) as Hgrow.
  split; [|split; [|split; [|split; [|split; [|split]]]]].
  - intros a'. unfold hml_array_push. simpl.
    destruct (check_element_type a val) as [[]|]; simpl; [|discriminate].
    intros [= <-]. unfold int_sized, length in *. simpl.
    rewrite store_end, length_app. simpl. lia.
  - intros a'. unfold hml_array_unshift. simpl.
    destruct (check_element_type a val) as [[]|]; simpl; [|discriminate].
    intros [= <-]. unfold int_sized, length in *. cbn [elements capacity].
    rewrite shift_right_store by reflexivity.
    rewrite take_0, drop_0. cbn [List.length app]. lia.
  - intros a'. unfold hml_array_insert. simpl.
    destruct (hml_to_i32 index) as [idx|]; simpl; [|discriminate].
    destruct (check_element_type a val) as [[]|]; simpl; [|discriminate].
    destruct ((idx <? 0) || (idx >? length a)) eqn:Hb; [discriminate|].
    apply orb_false_iff in Hb. intros [= <-]. unfold int_sized, length in *. simpl.
    rewrite shift_right_store
      by (rewrite grow_if_needed_elements in *; lia).
    rewrite length_app, length_take. simpl. rewrite length_drop. lia.
  - intros idx a' Hidx Hint Hset.
    pose proof (hml_array_set_int hml_to_i32 a index idx val a' Hidx Hint
                  ltac:(lia) Hset) as Hcap'.
    split; [|lia]. revert Hset. unfold hml_array_set. simpl. rewrite Hidx. simpl.
    destruct (check_element_type a val) as [[]|] eqn:Hc; simpl; [|discriminate].
    destruct (Z.ltb_spec idx 0) as [Hneg|Hnn']; [discriminate|].
    destruct (hml_array_set_elements hml_to_i32 a index idx val Hidx Hc Hnn')
      as (cap & Hset & Hcap).
    unfold hml_array_set in Hset. simpl in Hset. rewrite Hidx in Hset. simpl in Hset.
    rewrite Hc in Hset. simpl in Hset. rewrite (proj2 (Z.ltb_ge idx 0)) in Hset by lia.
    rewrite Hset. intros [= <-]. unfold length. simpl.
    rewrite length_insert, length_app, length_replicate.
    specialize (Hcap Hf). unfold length in *. lia.
  - intros a' x. unfold hml_array_pop. simpl.
    destruct (length a =? 0); intros [= <- _]; [split; assumption|].
    unfold int_sized, length in *. simpl. rewrite length_take. lia.
  - intros a' x. unfold hml_array_shift. simpl.
    destruct (length a =? 0) eqn:Hz; intros [= <- _]; [split; assumption|].
    apply Z.eqb_neq in Hz.
    rewrite shift_left_spec by (unfold length in *; lia).
    unfold int_sized, length in *. simpl. rewrite length_take. lia.
  - intros a' x. unfold hml_array_remove. simpl.
    destruct (hml_to_i32 index) as [idx|]; simpl; [|discriminate].
    destruct ((idx <? 0) || (idx >=? length a)); [discriminate|].
    intros [= <- _]. unfold int_sized, length in *. simpl. rewrite length_take. lia.
Qed.

Lemma hml_array_capacity_invariant_witness :
  int_sized (mkHmlArray [hml_val_null; hml_val_null; hml_val_i32 1] 8 HML_VAL_NULL).
Proof.
  apply (proj1 (proj2 (proj2 (proj2
           (hml_array_capacity_invariant i32_index (mkHmlArray [] 0 HML_VAL_NULL)
              (hml_val_i32 2) (hml_val_i32 1)
              ltac:(unfold int_sized, length, INT_MAX; simpl; lia)
              ltac:(unfold length, INT_MAX; simpl; lia)))))
           2 _ eq_refl ltac:(unfold INT_MAX; lia)).
  reflexivity.
Defined.



Lemma some_mismatch_false l t :
  t <> HML_VAL_NULL ->
  some_mismatch l t = false <-> Forall (fun v => type v = t) l.
Proof.
  intros Ht. unfold some_mismatch. induction l as [|v rest IH]; simpl.
  - split; [constructor | reflexivity].
  - rewrite Forall_cons, orb_false_iff, IH. unfold hml_type_matches.
    rewrite (bool_decide_eq_false_2 (t = HML_VAL_NULL)) by assumption.
    rewrite negb_false_iff, bool_decide_eq_true. reflexivity.
Qed.

(** X21.  [hml_validate_typed_array] with a non-null element type tags
    the array, leaving its elements alone, exactly when every element
    has that type, and ends the process with the type-mismatch fault
    otherwise; with the null type it returns the array as it is, tag
    included. *)
Theorem hml_validate_typed_array_spec (a : HmlArray) (t : HmlValueType) :
  (t <> HML_VAL_NULL ->
     (Forall (fun v => type v = t) (elements a) ->
        hml_validate_typed_array (hml_val_array a) t =
          Ok (mkHmlArray (elements a) (capacity a) t))
     /\ (~ Forall (fun v => type v = t) (elements a) ->
         hml_validate_typed_array (hml_val_array a) t =
           Fatal (stderr_line
                    "Type mismatch in typed array - expected element of specific type") 1))
  /\ hml_validate_typed_array (hml_val_array a) HML_VAL_NULL = Ok a.
Proof.
  split; [|reflexivity].
  intros Ht. unfold hml_validate_typed_array. simpl.
  rewrite (bool_decide_eq_false_2 (t = HML_VAL_NULL)) by assumption.
  pose proof (some_mismatch_false (elements a) t Ht) as Hm.
  destruct (some_mismatch (elements a) t).
  - split; [|reflexivity]. intros Hall. apply Hm in Hall. discriminate.
  - split; [reflexivity|]. intros Hno. exfalso. apply Hno, Hm. reflexivity.
Qed.

Lemma hml_validate_typed_array_spec_witness :
  hml_validate_typed_array (hml_val_array Runtime.xs12) HML_VAL_I32 =
    Ok (mkHmlArray (elements Runtime.xs12) (capacity Runtime.xs12) HML_VAL_I32).
Proof.
  apply (proj1 (proj1 (hml_validate_typed_array_spec Runtime.xs12 HML_VAL_I32)
                  ltac:(discriminate))).
  repeat constructor.
Defined.

(** *** Map, filter, join *)

Lemma push_untyped out v :
  element_type out = HML_VAL_NULL ->
  exists cap,
    hml_array_push (hml_val_array out) v =
      Ok (mkHmlArray (elements out ++ [v]) cap HML_VAL_NULL).
Proof.
  intros Hnull.
  destruct (hml_array_push_elements out v (admits_check out v (or_introl Hnull)))
    as (cap & Hp).
  exists cap. rewrite Hp, Hnull. reflexivity.
Qed.

Lemma map_loop_spec call callback (f : HmlValue -> HmlValue) a :
  forall fuel i out,
    (List.length (elements a) - i < fuel)%nat ->
    element_type out = HML_VAL_NULL ->
    (forall x, x ∈ drop i (elements a) -> call callback [x] a = Ok (f x, a)) ->
    exists cap,
      map_loop call fuel callback a i out =
        Some (Ok (mkHmlArray (elements out ++ List.map f (drop i (elements a)))
                             cap HML_VAL_NULL)).
Proof.
  induction fuel as [|fuel IH]; intros i out Hfuel Hnull Hcall; [lia|].
  simpl. destruct (elements a !! i) as [x|] eqn:Hx.
  - rewrite (drop_S _ x i Hx) in *.
    rewrite Hcall by left.
    destruct (push_untyped out (f x) Hnull) as (cap & ->).
    destruct (IH (S i) (mkHmlArray (elements out ++ [f x]) cap HML_VAL_NULL))
      as (cap' & ->); [apply lookup_lt_Some in Hx; lia | reflexivity | |].
    + intros y Hy. apply Hcall. right. exact Hy.
    + exists cap'. simpl. rewrite <- app_assoc. reflexivity.
  - apply lookup_ge_None in Hx. rewrite drop_ge, app_nil_r by lia.
    exists (capacity out). destruct out; simpl in *; subst; reflexivity.
Qed.

Lemma map_loop_fault call callback (f : HmlValue -> HmlValue) a msg code :
  forall fuel i out l1 x l2,
    (List.length (elements a) - i < fuel)%nat ->
    element_type out = HML_VAL_NULL ->
    drop i (elements a) = l1 ++ x :: l2 ->
    (forall y, y ∈ l1 -> call callback [y] a = Ok (f y, a)) ->
    call callback [x] a = Fatal msg code ->
    map_loop call fuel callback a i out = Some (Fatal msg code).
Proof.
  induction fuel as [|fuel IH]; intros i out l1 x l2 Hfuel Hnull Hdrop Hcall Hfault;
    [lia|].
  simpl. destruct (elements a !! i) as [y|] eqn:Hy.
  - rewrite (drop_S _ y i Hy) in Hdrop.
    destruct l1 as [|y1 l1]; simpl in Hdrop; injection Hdrop as -> Hrest.
    + rewrite Hfault. reflexivity.
    + rewrite Hcall by left.
      destruct (push_untyped out (f y1) Hnull) as (cap & ->).
      apply (IH (S i) _ l1 x l2); try assumption;
        [apply lookup_lt_Some in Hy; lia | reflexivity|].
      intros z Hz. apply Hcall. right. exact Hz.
  - apply lookup_ge_None in Hy. rewrite drop_ge in Hdrop by lia.
    destruct l1; discriminate.
Qed.

(** X22.  With a callback that does not write to the array it is
    mapped over, [hml_array_map] calls the callback on the elements in
    order and collects the results in a new untyped array of the same
    length.  When the callback ends the process on some element, after
    returning on all earlier ones, the map ends with that same fault. *)
Theorem hml_array_map_spec
    (hml_call_function :
       HmlValue -> list HmlValue -> HmlArray -> result (HmlValue * HmlArray))
    (fresh a : HmlArray) (callback : HmlValue) (f : HmlValue -> HmlValue)
    (fuel : nat) :
  elements fresh = [] ->
  element_type fresh = HML_VAL_NULL ->
  (List.length (elements a) < fuel)%nat ->
  ((forall x, x ∈ elements a -> hml_call_function callback [x] a = Ok (f x, a)) ->
     exists cap,
       hml_array_map hml_call_function fresh fuel (hml_val_array a) callback =
         Some (Ok (mkHmlArray (List.map f (elements a)) cap HML_VAL_NULL)))
  /\ (forall l1 x l2 msg code,
        elements a = l1 ++ x :: l2 ->
        (forall y, y ∈ l1 -> hml_call_function callback [y] a = Ok (f y, a)) ->
        hml_call_function callback [x] a = Fatal msg code ->
        hml_array_map hml_call_function fresh fuel (hml_val_array a) callback =
          Some (Fatal msg code)).
Proof.
  intros Hempty Hnull Hfuel. unfold hml_array_map. simpl. split.
  - intros Hcall.
    destruct (map_loop_spec hml_call_function callback f a fuel 0 fresh)
      as (cap & ->); [lia | assumption | rewrite drop_0; assumption |].
    exists cap. rewrite Hempty, drop_0. reflexivity.
  - intros l1 x l2 msg code Hsplit Hcall Hfault.
    apply (map_loop_fault hml_call_function callback f a msg code
             fuel 0 fresh l1 x l2); try assumption. lia.
Qed.

Lemma hml_array_map_spec_witness :
  exists cap,
    hml_array_map (leaving (call_unary square)) empty_array 4 (hml_val_array xs123)
                  fn_add =
      Some (Ok (mkHmlArray [hml_val_i32 1; hml_val_i32 4; hml_val_i32 9] cap
                           HML_VAL_NULL)).
Proof.
  apply (proj1 (hml_array_map_spec (leaving (call_unary square)) empty_array xs123
                  fn_add square 4 eq_refl eq_refl ltac:(simpl; lia))).
  intros x _. reflexivity.
Defined.

Lemma filter_loop_spec call (hml_to_bool : HmlValue -> Z) predicate
    (verdict : HmlValue -> HmlValue) a :
  forall fuel i out,
    (List.length (elements a) - i < fuel)%nat ->
    element_type out = HML_VAL_NULL ->
    (forall x, x ∈ drop i (elements a) -> call predicate [x] a = Ok (verdict x, a)) ->
    exists cap,
      filter_loop call hml_to_bool fuel predicate a i out =
        Some (Ok (mkHmlArray
                    (elements out ++
                     List.filter (fun x => truthy (hml_to_bool (verdict x)))
                                 (drop i (elements a)))
                    cap HML_VAL_NULL)).
Proof.
  induction fuel as [|fuel IH]; intros i out Hfuel Hnull Hcall; [lia|].
  simpl. destruct (elements a !! i) as [x|] eqn:Hx.
  - rewrite (drop_S _ x i Hx) in *.
    rewrite Hcall by left. simpl. rewrite Hx.
    assert (Hlt : (List.length (elements a) - S i < fuel)%nat)
      by (apply lookup_lt_Some in Hx; lia).
    destruct (truthy (hml_to_bool (verdict x))).
    + destruct (push_untyped out x Hnull) as (cap & ->).
      destruct (IH (S i) (mkHmlArray (elements out ++ [x]) cap HML_VAL_NULL))
        as (cap' & ->); [exact Hlt | reflexivity | |].
      * intros y Hy. apply Hcall. right. exact Hy.
      * exists cap'. simpl. rewrite <- app_assoc. reflexivity.
    + apply IH; [exact Hlt | assumption|].
      intros y Hy. apply Hcall. right. exact Hy.
  - apply lookup_ge_None in Hx. rewrite drop_ge, app_nil_r by lia.
    exists (capacity out). destruct out; simpl in *; subst; reflexivity.
Qed.

(** X23.  With a predicate that does not write to the array it is
    applied to, [hml_array_filter] returns a new untyped array holding,
    in their original order, exactly the elements for which the value
    returned by the predicate coerces to true. *)
Theorem hml_array_filter_spec
    (hml_call_function :
       HmlValue -> list HmlValue -> HmlArray -> result (HmlValue * HmlArray))
    (hml_to_bool : HmlValue -> Z) (fresh a : HmlArray) (predicate : HmlValue)
    (verdict : HmlValue -> HmlValue) (fuel : nat) :
  elements fresh = [] ->
  element_type fresh = HML_VAL_NULL ->
  (List.length (elements a) < fuel)%nat ->
  (forall x, x ∈ elements a ->
     hml_call_function predicate [x] a = Ok (verdict x, a)) ->
  exists cap,
    hml_array_filter hml_call_function hml_to_bool fresh fuel (hml_val_array a)
                     predicate =
      Some (Ok (mkHmlArray
                  (List.filter (fun x => negb (hml_to_bool (verdict x) =? 0))
                               (elements a))
                  cap HML_VAL_NULL)).
Proof.
  intros Hempty Hnull Hfuel Hcall. unfold hml_array_filter. simpl.
  destruct (filter_loop_spec hml_call_function hml_to_bool predicate verdict a
              fuel 0 fresh) as (cap & ->);
    [lia | assumption | rewrite drop_0; assumption |].
  exists cap. rewrite Hempty, drop_0. reflexivity.
Qed.

Lemma hml_array_filter_spec_witness :
  exists cap,
    hml_array_filter (leaving (call_unary above_one)) bool_payload empty_array 4
                     (hml_val_array xs123) fn_add =
      Some (Ok (mkHmlArray [hml_val_i32 2; hml_val_i32 3] cap HML_VAL_NULL)).
Proof.
  apply (hml_array_filter_spec (leaving (call_unary above_one)) bool_payload
           empty_array xs123 fn_add above_one 4 eq_refl eq_refl ltac:(simpl; lia)).
  intros x _. reflexivity.
Defined.

Lemma string_app_assoc (s t u : string) : (s +:+ t) +:+ u = s +:+ (t +:+ u).
Proof.
  induction s as [|c s IH]; [reflexivity|].
  change (String c ((s +:+ t) +:+ u) = String c (s +:+ (t +:+ u))).
  rewrite IH. reflexivity.
Qed.

Lemma string_app_nil_r (s : string) : s +:+ "" = s.
Proof.
  induction s as [|c s IH]; [reflexivity|].
  change (String c (s +:+ "") = String c s). rewrite IH. reflexivity.
Qed.

Lemma join_copy_spec (hml_to_string : HmlValue -> string) delim l :
  forall written,
    join_copy hml_to_string l delim written =
      written +:+ String.concat delim (List.map hml_to_string l).
Proof.
  induction l as [|x rest IH]; intros written; simpl.
  - rewrite string_app_nil_r. reflexivity.
  - destruct rest as [|y rest].
    + reflexivity.
    + rewrite IH. cbn [List.map]. rewrite !string_app_assoc. reflexivity.
Qed.

Lemma join_total_spec (hml_to_string : HmlValue -> string) delim l :
  forall total_len,
    join_total hml_to_string l (Z.of_nat (String.length delim)) total_len =
      total_len
      + Z.of_nat (String.length (String.concat delim (List.map hml_to_string l))).
Proof.
  induction l as [|x rest IH]; intros total_len; simpl.
  - lia.
  - destruct rest as [|y rest].
    + simpl. lia.
    + rewrite IH. cbn [List.map]. rewrite !string_length_append. lia.
Qed.



End RuntimeMore.

(** ** Type inference: lattice, refinement, flags and scopes *)

Section InferMore.
Import Infer.

(** X25.  On kinds, [infer_meet] is associative, [UNKNOWN] absorbs every
    type, and the meet of a type with a meet it is part of is that
    meet; with idempotence and commutativity this makes the kinds a
    semilattice with [UNKNOWN] on top. *)
Theorem infer_meet_semilattice :
  (forall a b c,
      kind (infer_meet a (infer_meet b c)) = kind (infer_meet (infer_meet a b) c))
  /\ (forall a b, kind a = INFER_UNKNOWN \/ kind b = INFER_UNKNOWN ->
        kind (infer_meet a b) = INFER_UNKNOWN)
  /\ (forall a b, kind (infer_meet a (infer_meet a b)) = kind (infer_meet a b)).
Proof.
  split; [|split].
  - intros [ka ea] [kb eb] [kc ec]. destruct ka, kb, kc; reflexivity.
  - intros [ka ea] [kb eb] [H|H]; simpl in H; destruct ka, kb;
      try discriminate H; reflexivity.
  - intros [ka ea] [kb eb]. destruct ka, kb; reflexivity.
Qed.

Lemma infer_meet_semilattice_witness :
  kind (infer_meet infer_unknown infer_i32) = INFER_UNKNOWN.
Proof.
  apply (proj1 (proj2 infer_meet_semilattice) infer_unknown infer_i32).
  left. reflexivity.
Defined.

(** X26.  The result type of a binary operation does not depend on the
    order of its operands, for every operator and every pair of operand
    types. *)
Theorem infer_binary_result_symmetric (op : BinaryOp) (a b : InferredType) :
  infer_binary_result op a b = infer_binary_result op b a.
Proof.
  destruct a as [ka ea], b as [kb eb]. destruct op, ka, kb; reflexivity.
Qed.

(** X27.  A refinement always moves a binding strictly down the lattice:
    when [type_env_refine] overwrites a type [T] by [V], [V] is strictly
    more specific than [T] and their meet is [T] again; hence no binding
    is overwritten more than three times. *)
Theorem refinement_descends :
  (forall T V, refines T V = true ->
     (specificity (kind V) < specificity (kind T))%nat
     /\ kind (infer_meet T V) = kind T)
  /\ (forall t0 t1 t2 t3 t4,
        refines t0 t1 = true -> refines t1 t2 = true -> refines t2 t3 = true ->
        refines t3 t4 = false).
Proof.
  assert (Hstep : forall T V, refines T V = true ->
            (specificity (kind V) < specificity (kind T))%nat
            /\ kind (infer_meet T V) = kind T).
  { intros [kt et] [kv ev]. destruct kt, kv; simpl; intros H;
      try discriminate H; split; try reflexivity; lia. }
  split; [exact Hstep|].
  intros t0 t1 t2 t3 t4 H01 H12 H23.
  destruct (refines t3 t4) eqn:H34; [|reflexivity].
  apply Hstep in H01 as [H01 _], H12 as [H12 _], H23 as [H23 _], H34 as [H34 _].
  assert (specificity (kind t0) <= 3)%nat by (destruct t0 as [[] ?]; simpl; lia).
  lia.
Qed.

Lemma refinement_descends_witness :
  (specificity (kind infer_i32) < specificity (kind infer_integer))%nat
  /\ kind (infer_meet infer_integer infer_i32) = kind infer_integer.
Proof.
  apply (proj1 refinement_descends infer_integer infer_i32). reflexivity.
Defined.

(** *** The [changed] flag *)

Lemma quiet_refl ctx : quiet ctx ctx.
Proof. unfold quiet. auto. Qed.

Lemma quiet_trans c1 c2 c3 : quiet c1 c2 -> quiet c2 c3 -> quiet c1 c3.
Proof.
  unfold quiet. intros (Hf1 & Hs1 & H1) (Hf2 & Hs2 & H2).
  split; [congruence|]. split; [congruence|].
  destruct H2 as [H2| ->]; [left; exact H2 | exact H1].
Qed.

Lemma refine_bindings_quiet n V bs :
  match refine_bindings n V bs with
  | Some (bs', w) =>
      List.map tb_name bs' = List.map tb_name bs /\ (w = false -> bs' = bs)
  | None => True
  end.
Proof.
  induction bs as [|b next IH]; simpl; [exact I|].
  destruct (String.eqb (tb_name b) n).
  - destruct (refines (tb_type b) V); simpl; split; try reflexivity; discriminate.
  - destruct (refine_bindings n V next) as [[next' w]|]; [|exact I].
    destruct IH as [Hn Hw]. simpl. split; [congruence|].
    intros Hf. rewrite Hw by assumption. reflexivity.
Qed.

Lemma refine_envs_quiet n V envs :
  match refine_envs n V envs with
  | Some (envs', w) =>
      List.map (List.map tb_name) envs' = List.map (List.map tb_name) envs
      /\ (w = false -> envs' = envs)
  | None => True
  end.
Proof.
  induction envs as [|env up IH]; simpl; [exact I|].
  pose proof (refine_bindings_quiet n V env) as Hb.
  destruct (refine_bindings n V env) as [[env' w]|].
  - destruct Hb as [Hn Hw]. simpl. split; [congruence|].
    intros Hf. rewrite Hw by assumption. reflexivity.
  - destruct (refine_envs n V up) as [[up' w]|]; [|exact I].
    destruct IH as [Hn Hw]. simpl. split; [congruence|].
    intros Hf. rewrite Hw by assumption. reflexivity.
Qed.

Lemma type_env_refine_quiet ctx n V : quiet ctx (type_env_refine ctx n V).
Proof.
  unfold type_env_refine, quiet, shape.
  pose proof (refine_envs_quiet n V (current_env ctx)) as Hq.
  destruct (refine_envs n V (current_env ctx)) as [[envs' w]|]; [|auto].
  destruct Hq as [Hn Hw]. simpl. split; [reflexivity|]. split; [exact Hn|].
  destruct w; [left; reflexivity|]. right.
  rewrite Hw by reflexivity. destruct ctx; reflexivity.
Qed.

Lemma infer_expr_quiet_step (e : Expr) :
  forall ctx, quiet ctx (fst (infer_expr ctx e)).
Proof.
  induction e; intros ctx; simpl; try apply quiet_refl;
    repeat match goal with
           | IH : forall c, quiet c (fst (infer_expr c ?x))
             |- context [infer_expr ?c0 ?x] =>
               let H := fresh "Hq" in
               pose proof (IH c0) as H; clear IH;
               destruct (infer_expr c0 x) as [? ?]; simpl in H
           end; simpl;
    repeat match goal with
           | |- context [if ?b then _ else _] => destruct b
           | |- context [match ?o with Some _ => _ | None => _ end] => destruct o
           | |- context [match ?x with EXPR_NULL => _ | _ => _ end] => destruct x
           end; simpl;
    eauto using quiet_refl, quiet_trans, type_env_refine_quiet.
Qed.

(** X28.  Inferring an expression never declares or removes a name and
    never touches the registry of return types, and the [changed] flag
    tells the truth about it: unless the flag is up afterwards, the
    context is exactly what it was. *)
Theorem infer_expr_quiet (e : Expr) (ctx : TypeInferContext) :
  func_returns (fst (infer_expr ctx e)) = func_returns ctx
  /\ shape (fst (infer_expr ctx e)) = shape ctx
  /\ (changed (fst (infer_expr ctx e)) = 1 \/ fst (infer_expr ctx e) = ctx).
Proof. exact (infer_expr_quiet_step e ctx). Qed.

(** *** Scopes *)

Lemma grows_refl ctx : current_env ctx <> [] -> grows ctx ctx.
Proof.
  intros Hne. split; [reflexivity|]. unfold shape.
  destruct (current_env ctx) as [|env up]; [congruence|].
  exists [], (List.map tb_name env), (List.map (List.map tb_name) up).
  split; reflexivity.
Qed.

Lemma grows_trans c1 c2 c3 : grows c1 c2 -> grows c2 c3 -> grows c1 c3.
Proof.
  intros (Hf1 & a1 & hd1 & tl1 & Hs1 & Hs1') (Hf2 & a2 & hd2 & tl2 & Hs2 & Hs2').
  split; [congruence|]. rewrite Hs1' in Hs2. injection Hs2 as <- <-.
  exists (a2 ++ a1), hd1, tl1. split; [assumption|].
  rewrite Hs2', <- app_assoc. reflexivity.
Qed.

Lemma grows_nonempty c1 c2 : grows c1 c2 -> current_env c2 <> [].
Proof.
  intros (_ & a & hd & tl & _ & Hs) He. unfold shape in Hs. rewrite He in Hs.
  discriminate.
Qed.

Lemma quiet_grows c1 c2 : current_env c1 <> [] -> quiet c1 c2 -> grows c1 c2.
Proof.
  intros Hne (Hf & Hs & _). split; [assumption|]. unfold shape in *.
  destruct (current_env c1) as [|env up]; [congruence|].
  exists [], (List.map tb_name env), (List.map (List.map tb_name) up).
  split; [reflexivity | exact Hs].
Qed.

Lemma grows_bind ctx n t :
  current_env ctx <> [] -> grows ctx (type_env_bind ctx n t).
Proof.
  intros Hne. unfold type_env_bind, grows, shape.
  destruct (current_env ctx) as [|env up]; [congruence|]. simpl.
  split; [reflexivity|].
  exists [n], (List.map tb_name env), (List.map (List.map tb_name) up).
  split; reflexivity.
Qed.

Lemma infer_expr_grows ctx e :
  current_env ctx <> [] -> grows ctx (fst (infer_expr ctx e)).
Proof. intros Hne. apply quiet_grows; [assumption|]. apply infer_expr_quiet_step. Qed.

(** A scope that is pushed, used and popped leaves no trace in the
    shape. *)
Lemma grows_push_pop ctx c' :
  grows (type_env_push ctx) c' ->
  func_returns (type_env_pop c') = func_returns ctx
  /\ shape (type_env_pop c') = shape ctx.
Proof.
  intros (Hf & a & hd & tl & Hs & Hs'). unfold shape in *. simpl in *.
  injection Hs as <- <-. split; [exact Hf|].
  destruct (current_env c') as [|env up]; [discriminate|].
  simpl in *. injection Hs' as _ Hup. exact Hup.
Qed.

Lemma same_shape_grows ctx ctx' :
  current_env ctx <> [] ->
  func_returns ctx' = func_returns ctx -> shape ctx' = shape ctx -> grows ctx ctx'.
Proof.
  intros Hne Hf Hs. split; [assumption|]. unfold shape in *.
  destruct (current_env ctx) as [|env up]; [congruence|].
  exists [], (List.map tb_name env), (List.map (List.map tb_name) up).
  split; [reflexivity | exact Hs].
Qed.

Lemma infer_stmt_grows :
  forall stmt ctx, current_env ctx <> [] -> grows ctx (infer_stmt ctx stmt).
Proof.
  fix IH 1. intros stmt ctx Hne.
  assert (Hpush : current_env (type_env_push ctx) <> []) by discriminate.
  destruct stmt as [n ann v | n ann v | e | c thn els | c body
                    | init c inc body | ss | v | | ]; simpl.
  - destruct v as [e|]; simpl.
    + pose proof (infer_expr_grows ctx e Hne) as Hg.
      destruct (infer_expr ctx e) as [c1 t]. simpl in Hg.
      eapply grows_trans; [exact Hg|]. apply grows_bind. eapply grows_nonempty, Hg.
    + apply grows_bind. assumption.
  - destruct v as [e|]; simpl.
    + pose proof (infer_expr_grows ctx e Hne) as Hg.
      destruct (infer_expr ctx e) as [c1 t]. simpl in Hg.
      eapply grows_trans; [exact Hg|]. apply grows_bind. eapply grows_nonempty, Hg.
    + apply grows_bind. assumption.
  - apply infer_expr_grows. assumption.
  - pose proof (infer_expr_grows ctx c Hne) as Hg1.
    pose proof (IH thn _ (grows_nonempty _ _ Hg1)) as Hg2.
    pose proof (grows_trans _ _ _ Hg1 Hg2) as Hg12.
    destruct els as [s|]; [|exact Hg12].
    eapply grows_trans; [exact Hg12|]. apply IH. eapply grows_nonempty, Hg12.
  - pose proof (infer_expr_grows ctx c Hne) as Hg1.
    eapply grows_trans; [exact Hg1|]. apply IH. eapply grows_nonempty, Hg1.
  - assert (Hg : grows (type_env_push ctx)
             (infer_stmt
                (match inc with
                 | Some e => fst (infer_expr
                     (match c with
                      | Some e0 => fst (infer_expr
                          (match init with
                           | Some s => infer_stmt (type_env_push ctx) s
                           | None => type_env_push ctx
                           end) e0)
                      | None => match init with
                                | Some s => infer_stmt (type_env_push ctx) s
                                | None => type_env_push ctx
                                end
                      end) e)
                 | None => match c with
                           | Some e0 => fst (infer_expr
                               (match init with
                                | Some s => infer_stmt (type_env_push ctx) s
                                | None => type_env_push ctx
                                end) e0)
                           | None => match init with
                                     | Some s => infer_stmt (type_env_push ctx) s
                                     | None => type_env_push ctx
                                     end
                           end
                 end) body)).
    { assert (H1 : grows (type_env_push ctx)
                (match init with
                 | Some s => infer_stmt (type_env_push ctx) s
                 | None => type_env_push ctx
                 end)).
      { destruct init as [s|]; [apply IH; assumption | apply grows_refl; assumption]. }
      set (c1 := match init with
                 | Some s => infer_stmt (type_env_push ctx) s
                 | None => type_env_push ctx
                 end) in *.
      assert (H2 : grows (type_env_push ctx)
                (match c with Some e0 => fst (infer_expr c1 e0) | None => c1 end)).
      { destruct c as [e0|]; [|exact H1].
        eapply grows_trans; [exact H1|]. apply infer_expr_grows.
        eapply grows_nonempty, H1. }
      set (c2 := match c with Some e0 => fst (infer_expr c1 e0) | None => c1 end) in *.
      assert (H3 : grows (type_env_push ctx)
                (match inc with Some e => fst (infer_expr c2 e) | None => c2 end)).
      { destruct inc as [e|]; [|exact H2].
        eapply grows_trans; [exact H2|]. apply infer_expr_grows.
        eapply grows_nonempty, H2. }
      eapply grows_trans; [exact H3|]. apply IH. eapply grows_nonempty, H3. }
    destruct (grows_push_pop ctx _ Hg) as [Hf Hs].
    apply same_shape_grows; assumption.
  - assert (Hg : forall (l : list Stmt) c0,
              current_env c0 <> [] ->
              grows c0
                ((fix each (ss0 : list Stmt) (ctx0 : TypeInferContext) {struct ss0} :=
                    match ss0 with
                    | [] => ctx0
                    | s :: rest => each rest (infer_stmt ctx0 s)
                    end) l c0)).
    { clear ss. fix IHl 1. intros l c0 Hc0. destruct l as [|s rest].
      - apply grows_refl. assumption.
      - pose proof (IH s c0 Hc0) as Hs.
        eapply grows_trans; [exact Hs|]. apply IHl. eapply grows_nonempty, Hs. }
    destruct (grows_push_pop ctx _ (Hg ss _ Hpush)) as [Hf Hs].
    apply same_shape_grows; assumption.
  - destruct v as [e|]; [apply infer_expr_grows | apply grows_refl]; assumption.
  - apply grows_refl. assumption.
  - apply grows_refl. assumption.
Qed.

Lemma infer_stmts_grow (l : list Stmt) :
  forall c0,
    current_env c0 <> [] ->
    grows c0
      ((fix each (ss0 : list Stmt) (ctx0 : TypeInferContext) {struct ss0} :=
          match ss0 with
          | [] => ctx0
          | s :: rest => each rest (infer_stmt ctx0 s)
          end) l c0).
Proof.
  induction l as [|s rest IHl]; intros c0 Hc0.
  - apply grows_refl. assumption.
  - pose proof (infer_stmt_grows s c0 Hc0) as Hs.
    eapply grows_trans; [exact Hs|]. apply IHl. eapply grows_nonempty, Hs.
Qed.

Lemma shape_bind ctx n t :
  shape (type_env_bind ctx n t) =
    match shape ctx with
    | hd :: tl => (n :: hd) :: tl
    | [] => []
    end.
Proof.
  unfold shape, type_env_bind.
  destruct (current_env ctx) as [|env up] eqn:Henv; [rewrite Henv|]; reflexivity.
Qed.

(** X29.  Scopes of statement inference are balanced.  In a context with
    a current scope, inferring any statement leaves the registry and the
    names of the enclosing scopes as they were, and the current scope
    keeps its names behind those the statement declares; [let] and
    [const] declare exactly their name, and a block or a [for] loop
    declares nothing, so what is declared inside them does not leak. *)
Theorem infer_stmt_scoping (stmt : Stmt) (ctx : TypeInferContext) :
  current_env ctx <> [] ->
  func_returns (infer_stmt ctx stmt) = func_returns ctx
  /\ (exists added hd tl,
        shape ctx = hd :: tl /\ shape (infer_stmt ctx stmt) = (added ++ hd) :: tl)
  /\ (forall n ann v, stmt = STMT_LET n ann v \/ stmt = STMT_CONST n ann v ->
        exists hd tl,
          shape ctx = hd :: tl /\ shape (infer_stmt ctx stmt) = (n :: hd) :: tl)
  /\ (forall ss, stmt = STMT_BLOCK ss -> shape (infer_stmt ctx stmt) = shape ctx)
  /\ (forall init c inc body, stmt = STMT_FOR init c inc body ->
        shape (infer_stmt ctx stmt) = shape ctx).
Proof.
  intros Hne. destruct (infer_stmt_grows stmt ctx Hne) as [Hf Hadded].
  split; [exact Hf|]. split; [exact Hadded|].
  assert (Hpush : current_env (type_env_push ctx) <> []) by discriminate.
  split; [|split].
  - intros n ann v Hstmt.
    assert (Hq : quiet ctx (fst (infer_expr_opt ctx v))).
    { destruct v as [e|]; simpl; [apply infer_expr_quiet_step | apply quiet_refl]. }
    destruct Hq as (_ & Hs & _).
    assert (Hshape : shape (infer_stmt ctx stmt) =
              match shape ctx with hd :: tl => (n :: hd) :: tl | [] => [] end).
    { destruct Hstmt as [-> | ->]; simpl;
        destruct (infer_expr_opt ctx v) as [c1 t]; simpl in Hs;
        rewrite shape_bind, Hs; reflexivity. }
    rewrite Hshape. unfold shape in *.
    destruct (current_env ctx) as [|env up]; [congruence|]. simpl. eauto.
  - intros ss ->. simpl.
    apply (grows_push_pop ctx). apply infer_stmts_grow. assumption.
  - intros init c inc body ->. simpl. apply (grows_push_pop ctx).
    assert (H1 : grows (type_env_push ctx)
              (match init with
               | Some s => infer_stmt (type_env_push ctx) s
               | None => type_env_push ctx
               end)).
    { destruct init as [s|]; [apply infer_stmt_grows | apply grows_refl]; assumption. }
    set (c1 := match init with
               | Some s => infer_stmt (type_env_push ctx) s
               | None => type_env_push ctx
               end) in *.
    assert (H2 : grows (type_env_push ctx)
              (match c with Some e0 => fst (infer_expr c1 e0) | None => c1 end)).
    { destruct c as [e0|]; [|exact H1].
      eapply grows_trans; [exact H1|]. apply infer_expr_grows.
      eapply grows_nonempty, H1. }
    set (c2 := match c with Some e0 => fst (infer_expr c1 e0) | None => c1 end) in *.
    assert (H3 : grows (type_env_push ctx)
              (match inc with Some e => fst (infer_expr c2 e) | None => c2 end)).
    { destruct inc as [e|]; [|exact H2].
      eapply grows_trans; [exact H2|]. apply infer_expr_grows.
      eapply grows_nonempty, H2. }
    eapply grows_trans; [exact H3|]. apply infer_stmt_grows. eapply grows_nonempty, H3.
Qed.

Lemma infer_stmt_scoping_witness :
  shape (infer_stmt type_infer_new (STMT_BLOCK [let_x_array_number])) =
    shape type_infer_new.
Proof.
  apply (proj1 (proj2 (proj2 (proj2
           (infer_stmt_scoping (STMT_BLOCK [let_x_array_number]) type_infer_new
              ltac:(discriminate))))) [let_x_array_number]).
  reflexivity.
Defined.

(** *** The registry of return types *)

Lemma update_func_return_spec n t fs :
  match update_func_return n t fs with
  | Some fs' =>
      lookup_func_return n fs' = Some t
      /\ (forall m, m <> n -> lookup_func_return m fs' = lookup_func_return m fs)
      /\ List.length fs' = List.length fs
      /\ lookup_func_return n fs <> None
  | None => lookup_func_return n fs = None
  end.
Proof.
  induction fs as [|[f u] next IH]; simpl; [reflexivity|].
  destruct (String.eqb_spec f n) as [Heq|Hne]; simpl.
  - rewrite Heq, String.eqb_refl. split; [reflexivity|]. split; [|split; [reflexivity|discriminate]].
    intros m Hm. destruct (String.eqb_spec n m); [congruence | reflexivity].
  - destruct (update_func_return n t next) as [next'|]; simpl.
    + destruct IH as (Hn & Hother & Hlen & Hsome).
      destruct (String.eqb_spec f n); [congruence|].
      split; [exact Hn|]. split; [|split; [congruence | exact Hsome]].
      intros m Hm. rewrite Hother by assumption. reflexivity.
    + exact IH.
Qed.

Lemma lookup_func_return_None n fs :
  n ∉ fs.*1 -> lookup_func_return n fs = None.
Proof.
  induction fs as [|[f u] next IH]; simpl; [reflexivity|].
  intros Hnot. destruct (String.eqb_spec f n) as [->|Hne].
  - exfalso. apply Hnot. left.
  - apply IH. intros Hin. apply Hnot. right. exact Hin.
Qed.

(** X30.  The registry of return types works as a map.  After
    [type_register_func_return] of [n], [type_lookup_func_return]
    answers the registered type for [n] and what it answered before for
    every other name, and a direct call of [n] infers to that type;
    registering a name that is present overwrites its entry instead of
    adding a second one.  A name that no entry of the registry carries,
    as every name in a new context, looks up as [UNKNOWN], and so does
    a direct call of it; a call whose callee is anything but an
    identifier infers to [UNKNOWN] whatever the registry holds. *)
Theorem func_return_registry (ctx : TypeInferContext) (n : string) (t : InferredType) :
  type_lookup_func_return (type_register_func_return ctx n t) n = t
  /\ (forall m, m <> n ->
        type_lookup_func_return (type_register_func_return ctx n t) m =
        type_lookup_func_return ctx m)
  /\ (forall args,
        snd (infer_expr (type_register_func_return ctx n t)
                        (EXPR_CALL (Some (EXPR_IDENT n)) args)) = t)
  /\ (forall t',
        List.length (func_returns
                       (type_register_func_return
                          (type_register_func_return ctx n t) n t')) =
        List.length (func_returns (type_register_func_return ctx n t)))
  /\ (n ∉ (func_returns ctx).*1 ->
      type_lookup_func_return ctx n = infer_unknown
      /\ forall args,
           snd (infer_expr ctx (EXPR_CALL (Some (EXPR_IDENT n)) args)) = infer_unknown)
  /\ type_lookup_func_return type_infer_new n = infer_unknown
  /\ (forall callee args,
        (forall m, callee <> Some (EXPR_IDENT m)) ->
        snd (infer_expr ctx (EXPR_CALL callee args)) = infer_unknown).
Proof.
  assert (Hreg : lookup_func_return n (func_returns (type_register_func_return ctx n t))
                 = Some t
                 /\ forall m, m <> n ->
                      lookup_func_return m
                        (func_returns (type_register_func_return ctx n t)) =
                      lookup_func_return m (func_returns ctx)).
  { unfold type_register_func_return.
    pose proof (update_func_return_spec n t (func_returns ctx)) as Hu.
    destruct (update_func_return n t (func_returns ctx)) as [fs|]; simpl.
    - destruct Hu as (Hn & Hother & _). split; assumption.
    - rewrite String.eqb_refl. split; [reflexivity|].
      intros m Hm. destruct (String.eqb_spec n m); [congruence | reflexivity]. }
  destruct Hreg as [Hn Hother].
  split; [|split; [|split; [|split; [|split; [|split]]]]].
  - unfold type_lookup_func_return. rewrite Hn. reflexivity.
  - intros m Hm. unfold type_lookup_func_return. rewrite Hother by assumption.
    reflexivity.
  - intros args. simpl. unfold type_lookup_func_return. rewrite Hn. reflexivity.
  - intros t'. unfold type_register_func_return at 1.
    pose proof (update_func_return_spec n t'
                  (func_returns (type_register_func_return ctx n t))) as Hu.
    destruct (update_func_return n t' (func_returns (type_register_func_return ctx n t)))
      as [fs|]; simpl.
    + destruct Hu as (_ & _ & Hlen & _). exact Hlen.
    + congruence.
  - intros Hnot.
    assert (Hlook : type_lookup_func_return ctx n = infer_unknown).
    { unfold type_lookup_func_return.
      rewrite (lookup_func_return_None n _ Hnot). reflexivity. }
    split; [exact Hlook|]. intros args. simpl. exact Hlook.
  - reflexivity.
  - intros callee args Hnot. simpl.
    destruct callee as [[]|]; try reflexivity.
    exfalso. eapply Hnot. reflexivity.
Qed.

Lemma func_return_registry_witness :
  type_lookup_func_return (type_register_func_return ctx_x_i32 "f" infer_i32) "g" =
    type_lookup_func_return ctx_x_i32 "g"
  /\ snd (infer_expr ctx_x_i32
            (EXPR_CALL (Some (EXPR_CALL (Some (EXPR_IDENT "f")) [])) [])) =
       infer_unknown.
Proof.
  split.
  - apply (proj1 (proj2 (func_return_registry ctx_x_i32 "f" infer_i32)) "g").
    discriminate.
  - apply (proj2 (proj2 (proj2 (proj2 (proj2 (proj2
             (func_return_registry ctx_x_i32 "f" infer_i32))))))).
    intros m. discriminate.
Defined.

End InferMore.
